(** * gettercheck: a shallow embedding of the checker and its properties

    The development follows the Go sources of the repository:
    - [gettercheck/gettercheck_visitor.go]: the visitor ([Visit],
      [UnaryVisitor_Visit], [addErrorAtPosition], [readfile], [FindMethod],
      [contains]);
    - [gettercheck/errcheck.go]: [UnusedGetterError], [Result], [byName_Less],
      [Result_Append], [Result_Unique], [shouldSkipFile], [CheckPackage];
    - the command ([checkPaths]).

    Go heap objects that the checker mutates are kept in an explicit store:
    the syntax tree is a tree of immutable shapes whose identifiers carry an
    address, and the [Name] field of every [*ast.Ident] lives in the store
    under that address.  The checker never replaces a node by another one
    (every [c.Replace] puts back the node it was given), so the shape of the
    tree is constant and only identifier names change. *)

From Stdlib Require Import ZArith String Ascii DecimalString List.
From Stdlib Require Import Sorting.Sorted Sorting.Permutation.
From Stdlib Require Import Structures.OrderedTypeEx.
From stdpp Require Import base option list gmap strings.

Local Open Scope string_scope.
Local Open Scope Z_scope.

(** ** Results of partial operations: a Go panic ends the run *)

Inductive Res (A : Type) : Type :=
| Ok (a : A)
| Panic (msg : string).
Arguments Ok {A} a.
Arguments Panic {A} msg.

Definition bindR {A B} (r : Res A) (k : A -> Res B) : Res B :=
  match r with
  | Ok a => k a
  | Panic m => Panic m
  end.

#[global] Instance Res_ret : MRet Res := fun _ a => Ok a.
#[global] Instance Res_bind : MBind Res := fun _ _ k r => bindR r k.

(** ** go/token *)

Module token.

Definition Pos := Z.
Definition NoPos : Pos := 0.

Record Position := mkPosition {
  Filename : string;
  Offset : Z;
  Line : Z;
  Column : Z
}.

Definition zero : Position := mkPosition "" 0 0 0.

Definition IsValid (pos : Position) : bool := 0 <? Line pos.

(** [strconv.Itoa] / [%d] *)
Definition Itoa (z : Z) : string := NilZero.string_of_int (Z.to_int z).

(** [Position.String] *)
Definition String (pos : Position) : string :=
  let s := Filename pos in
  let s :=
    if IsValid pos then
      let s := if String.eqb s "" then s else s +:+ ":" in
      let s := s +:+ Itoa (Line pos) in
      if Column pos =? 0 then s else s +:+ ":" +:+ Itoa (Column pos)
    else s in
  if String.eqb s "" then "-" else s.

(** A [*token.FileSet], seen through the position of every [Pos] that
    lies in one of its files. *)
Definition FileSet := Pos -> option Position.

(** [fset.Position(p)]: the zero position when no file holds [p]. *)
Definition FileSet_Position (fset : FileSet) (p : Pos) : Position :=
  if p =? NoPos then zero else default zero (fset p).

(** [fset.File(p).Position(p)]: [File] answers nil when no file holds [p];
    the [Position] method of a file touches its receiver only for
    [p != NoPos]. *)
Definition File_Position (fset : FileSet) (p : Pos) : Res Position :=
  if p =? NoPos then Ok zero
  else match fset p with
       | Some pos => Ok pos
       | None => Panic "invalid memory address or nil pointer dereference"
       end.

Inductive Token :=
| ADD | SUB | MUL | QUO | AND | OR | XOR | NOT | ARROW
| LAND | LOR | EQL | NEQ | LSS | GTR | LEQ | GEQ
| ASSIGN | DEFINE.

Definition Token_eqb (a b : Token) : bool :=
  match a, b with
  | ADD, ADD | SUB, SUB | MUL, MUL | QUO, QUO | AND, AND | OR, OR
  | XOR, XOR | NOT, NOT | ARROW, ARROW | LAND, LAND | LOR, LOR
  | EQL, EQL | NEQ, NEQ | LSS, LSS | GTR, GTR | LEQ, LEQ | GEQ, GEQ
  | ASSIGN, ASSIGN | DEFINE, DEFINE => true
  | _, _ => false
  end.

End token.

(** ** go/types *)

Module types.

(** [*types.Func]: a declared function or method. *)
Record Func := mkFunc {
  Func_Name : string;
  Func_Pos : token.Pos;
  Func_NumParams : nat
}.

Inductive Type_ :=
| Basic (name : string)
| Pointer (elem : Type_)
| Slice (elem : Type_)
| Struct (fields : list string)
| Named (pkg name : string) (underlying : Type_) (methods : list Func).

(** [Type.String()]: a named type prints qualified by its package path. *)
Fixpoint String (t : Type_) : string :=
  match t with
  | Basic name => name
  | Pointer elem => "*" +:+ String elem
  | Slice elem => "[]" +:+ String elem
  | Struct _ => "struct{...}"
  | Named pkg name _ _ =>
      if String.eqb pkg "" then name else pkg +:+ "." +:+ name
  end.

Inductive ObjectKind :=
| KVar | KFunc | KConst | KTypeName | KPkgName | KNil | KBuiltin.

(** [types.Object] *)
Record Object := mkObject {
  Obj_Kind : ObjectKind;
  Obj_Name : string;
  Obj_Pos : token.Pos;
  Obj_Type : Type_
}.

End types.

(** ** go/ast

    The node kinds that [astutil.Apply] walks, for the expression and
    statement forms the checker's rules and tests speak of.  Slices of
    nodes and optional children are part of the mutual definition. *)

Module ast.

(** [*ast.Ident]: [addr] is the identity of the heap object; its [Name]
    is read from and written to the store. *)
Record Ident := mkIdent {
  addr : N;
  NamePos : token.Pos
}.

Definition Ident_eqb (a b : Ident) : bool :=
  (addr a =? addr b)%N && (NamePos a =? NamePos b).

Inductive Expr :=
| IdentExpr (id : Ident)
| BasicLit (value : string)
| CompositeLit (Type_ : OptExpr) (Elts : ExprList)
| ParenExpr (X : Expr)
| SelectorExpr (X : Expr) (Sel : Ident)
| IndexExpr (X : Expr) (Index : Expr)
| CallExpr (Fun : Expr) (Args : ExprList)
| StarExpr (X : Expr)
| UnaryExpr (Op : token.Token) (X : Expr)
| BinaryExpr (X : Expr) (Op : token.Token) (Y : Expr)
| KeyValueExpr (Key : Expr) (Value : Expr)
with ExprList :=
| ENil
| ECons (e : Expr) (es : ExprList)
with OptExpr :=
| NoExpr
| SomeExpr (e : Expr).

Inductive Stmt :=
| ExprStmt (X : Expr)
| AssignStmt (Lhs : ExprList) (Tok : token.Token) (Rhs : ExprList)
| ReturnStmt (Results : ExprList)
| BlockStmt (List_ : StmtList)
| IfStmt (Init : OptStmt) (Cond : Expr) (Body : StmtList) (Else : OptStmt)
with StmtList :=
| SNil
| SCons (s : Stmt) (ss : StmtList)
with OptStmt :=
| NoStmt
| SomeStmt (s : Stmt).

(** [*ast.FuncDecl] *)
Record FuncDecl := mkFuncDecl {
  Decl_Name : Ident;
  Decl_Body : StmtList
}.

(** [*ast.File]: [Comments] holds the text of every comment of every
    comment group. *)
Record File := mkFile {
  Package : token.Pos;
  File_Name : Ident;
  Decls : list FuncDecl;
  Comments : list (list string)
}.

Fixpoint Expr_eqb (a b : Expr) {struct a} : bool :=
  match a, b with
  | IdentExpr i, IdentExpr j => Ident_eqb i j
  | BasicLit v, BasicLit w => String.eqb v w
  | CompositeLit t es, CompositeLit t' es' =>
      OptExpr_eqb t t' && ExprList_eqb es es'
  | ParenExpr x, ParenExpr x' => Expr_eqb x x'
  | SelectorExpr x s, SelectorExpr x' s' => Expr_eqb x x' && Ident_eqb s s'
  | IndexExpr x i, IndexExpr x' i' => Expr_eqb x x' && Expr_eqb i i'
  | CallExpr f es, CallExpr f' es' => Expr_eqb f f' && ExprList_eqb es es'
  | StarExpr x, StarExpr x' => Expr_eqb x x'
  | UnaryExpr o x, UnaryExpr o' x' => token.Token_eqb o o' && Expr_eqb x x'
  | BinaryExpr x o y, BinaryExpr x' o' y' =>
      Expr_eqb x x' && token.Token_eqb o o' && Expr_eqb y y'
  | KeyValueExpr k v, KeyValueExpr k' v' => Expr_eqb k k' && Expr_eqb v v'
  | _, _ => false
  end
with ExprList_eqb (a b : ExprList) {struct a} : bool :=
  match a, b with
  | ENil, ENil => true
  | ECons e es, ECons e' es' => Expr_eqb e e' && ExprList_eqb es es'
  | _, _ => false
  end
with OptExpr_eqb (a b : OptExpr) {struct a} : bool :=
  match a, b with
  | NoExpr, NoExpr => true
  | SomeExpr e, SomeExpr e' => Expr_eqb e e'
  | _, _ => false
  end.

Fixpoint to_list (es : ExprList) : list Expr :=
  match es with
  | ENil => []
  | ECons e es => e :: to_list es
  end.

Fixpoint of_list (es : list Expr) : ExprList :=
  match es with
  | [] => ENil
  | e :: es => ECons e (of_list es)
  end.

Fixpoint stmts (ss : list Stmt) : StmtList :=
  match ss with
  | [] => SNil
  | s :: ss => SCons s (stmts ss)
  end.

(** What a cursor can stand on, or have as its parent.  [Wrapper] is the
    anonymous [struct{ ast.Node }] that [astutil.Apply] gives its root as
    parent. *)
Inductive Node :=
| NExpr (e : Expr)
| NStmt (s : Stmt)
| NFuncDecl (d : FuncDecl)
| NFile (f : File)
| Wrapper.

End ast.

Scheme Expr_mind := Induction for ast.Expr Sort Prop
  with ExprList_mind := Induction for ast.ExprList Sort Prop
  with OptExpr_mind := Induction for ast.OptExpr Sort Prop.
Combined Scheme Expr_mutind from Expr_mind, ExprList_mind, OptExpr_mind.

Scheme Stmt_mind := Induction for ast.Stmt Sort Prop
  with StmtList_mind := Induction for ast.StmtList Sort Prop
  with OptStmt_mind := Induction for ast.OptStmt Sort Prop.
Combined Scheme Stmt_mutind from Stmt_mind, StmtList_mind, OptStmt_mind.

(** ** The part of [*types.Info] the checker reads *)

Record Info := mkInfo {
  (** [info.Types]: the type recorded for an expression. *)
  Types : ast.Expr -> option types.Type_;
  (** [info.ObjectOf]: the object an identifier defines or uses. *)
  ObjectOf : ast.Ident -> option types.Object
}.

(** [info.TypeOf(e)]: the recorded type, else the type of the object an
    identifier denotes, else nil. *)
Definition TypeOf (info : Info) (e : ast.Expr) : option types.Type_ :=
  match Types info e with
  | Some t => Some t
  | None =>
      match e with
      | ast.IdentExpr id =>
          match ObjectOf info id with
          | Some obj => Some (types.Obj_Type obj)
          | None => None
          end
      | _ => None
      end
  end.

(** ** errcheck.go: the records *)

(** [UnusedGetterError] *)
Record UnusedGetterError := mkError {
  Pos : token.Position;
  GetterPos : token.Position;
  Line : string;
  FuncName : string
}.

(** [Result] *)
Record Result := mkResult {
  UnusedGetterErrors : list UnusedGetterError
}.

Definition newline : string := String (ascii_of_nat 10) "".

(** ** The mutable world of a run *)

Record World := mkWorld {
  (** the [Name] field of every [*ast.Ident], by address *)
  names : gmap N string;
  (** the files that can be opened, as the lines a scanner yields *)
  fs : gmap string (list string);
  (** what was printed on standard output *)
  stdout : list string
}.

Definition Ident_Name (w : World) (id : ast.Ident) : string :=
  default "" (names w !! ast.addr id).

Definition set_Ident_Name (w : World) (id : ast.Ident) (s : string) : World :=
  mkWorld (<[ast.addr id := s]> (names w)) (fs w) (stdout w).

(** ** gettercheck_visitor.go *)

(** [visitor]; a nil [lines] map is [None].  The fields [types] and
    [imports] are never read by the code below. *)
Record visitor := mkVisitor {
  typesInfo : Info;
  fset : token.FileSet;
  lines : option (gmap string (list string));
  errors : list UnusedGetterError
}.

(** [readfile]: the lines of the file, nil when it cannot be opened. *)
Definition readfile (w : World) (filename : string) : list string :=
  match fs w !! filename with
  | Some ls => ls
  | None => []
  end.

(** [strings.TrimSpace]: white space is tab, line feed, vertical tab, form
    feed, carriage return, space, and in UTF-8 U+0085 and U+00A0. *)
Definition isSpaceByte (c : ascii) : bool :=
  let n := N_of_ascii c in
  ((9 <=? n)%N && (n <=? 13)%N) || (n =? 32)%N.

Fixpoint trimLeftBytes (s : list ascii) : list ascii :=
  match s with
  | c :: r =>
      if isSpaceByte c then trimLeftBytes r
      else if (N_of_ascii c =? 194)%N then
        match r with
        | d :: r' =>
            if (N_of_ascii d =? 133)%N || (N_of_ascii d =? 160)%N
            then trimLeftBytes r' else s
        | [] => s
        end
      else s
  | [] => []
  end.

(** The same from the right end, on the reversed bytes. *)
Fixpoint trimRightBytes (s : list ascii) : list ascii :=
  match s with
  | c :: r =>
      if isSpaceByte c then trimRightBytes r
      else if (N_of_ascii c =? 133)%N || (N_of_ascii c =? 160)%N then
        match r with
        | d :: r' => if (N_of_ascii d =? 194)%N then trimRightBytes r' else s
        | [] => s
        end
      else s
  | [] => []
  end.

Definition TrimSpace (s : string) : string :=
  string_of_list_ascii
    (rev (trimRightBytes (rev (trimLeftBytes (list_ascii_of_string s))))).

(** [strings.Contains] *)
Definition strings_Contains (s substr : string) : bool :=
  match String.index 0 substr s with
  | Some _ => true
  | None => false
  end.

(** [contains] *)
Fixpoint contains (s : list string) (e : string) : bool :=
  match s with
  | a :: s' => if String.eqb a e then true else contains s' e
  | [] => false
  end.

(** [FindMethod] *)
Fixpoint FindMethod_loop (methods : list types.Func) (methodName : string)
  : option types.Func :=
  match methods with
  | method :: rest =>
      if String.eqb (types.Func_Name method) methodName then Some method
      else FindMethod_loop rest methodName
  | [] => None
  end.

Fixpoint FindMethod (p : types.Type_) (methodName : string)
  : option types.Func :=
  match p with
  | types.Pointer elem => FindMethod elem methodName
  | types.Named _ _ _ methods => FindMethod_loop methods methodName
  | _ => None
  end.

(** [FindMethod] on a [types.Type] interface value that may be nil. *)
Definition FindMethod_nilable (p : option types.Type_) (methodName : string)
  : option types.Func :=
  match p with
  | Some t => FindMethod t methodName
  | None => None
  end.

(** [visitor.addErrorAtPosition].  A store into a nil map panics, and so
    does an index below zero. *)
Definition addErrorAtPosition (v : visitor) (position : token.Pos)
    (ident : ast.Ident) (getterPos : token.Position) (w : World)
  : Res visitor :=
  let pos := token.FileSet_Position (fset v) position in
  '(lines_, cache) ←
    match lines v with
    | Some m =>
        match m !! token.Filename pos with
        | Some ls => Ok (ls, Some m)
        | None =>
            let ls := readfile w (token.Filename pos) in
            Ok (ls, Some (<[token.Filename pos := ls]> m))
        end
    | None => Panic "assignment to entry in nil map"
    end;
  line ←
    (if token.Line pos - 1 <? Z.of_nat (length lines_) then
       if token.Line pos - 1 <? 0 then Panic "index out of range"
       else Ok (TrimSpace (nth (Z.to_nat (token.Line pos - 1)) lines_ ""))
     else Ok "??");
  let name := Ident_Name w ident in
  Ok (mkVisitor (typesInfo v) (fset v) cache
        (errors v ++ [mkError pos getterPos line name])).

Record Cursor := mkCursor {
  Node : option ast.Node;
  Parent : ast.Node
}.

Definition basicPointerTypes : list string :=
  ["*string"; "*int"; "*bool"; "*int"; "*int32"; "*int64"; "*float32";
   "*float64"; "*uint32"; "*uint64"].

(** The first switch of [Visit] on a selector [n]: the contexts in which
    the getter is not wanted.  [true] stands for the early [return true]. *)
Definition exemptContext (v : visitor) (n : ast.Expr) (parent : ast.Node)
  : Res bool :=
  match parent with
  | ast.NStmt (ast.AssignStmt Lhs _ _) =>
      Ok (existsb (ast.Expr_eqb n) (ast.to_list Lhs))
  | ast.NExpr (ast.BinaryExpr pX Op pY) =>
      if token.Token_eqb Op token.EQL then
        match pY with
        | ast.IdentExpr i =>
            match TypeOf (typesInfo v) (ast.IdentExpr i) with
            | None => Panic "invalid memory address or nil pointer dereference"
            | Some ti =>
                if String.eqb (types.String ti) "untyped nil" then
                  match pX with
                  | ast.SelectorExpr _ sel =>
                      match TypeOf (typesInfo v) (ast.IdentExpr sel) with
                      | None =>
                          Panic "invalid memory address or nil pointer dereference"
                      | Some b =>
                          Ok (contains basicPointerTypes (types.String b))
                      end
                  | _ => Ok false
                  end
                else Ok false
            end
        | _ => Ok false
        end
      else Ok false
  | ast.NExpr (ast.UnaryExpr Op _) => Ok (token.Token_eqb Op token.AND)
  | _ => Ok false
  end.

Definition isVar (obj : option types.Object) : option types.Object :=
  match obj with
  | Some o =>
      match types.Obj_Kind o with
      | types.KVar => Some o
      | _ => None
      end
  | None => None
  end.

(** [UnaryVisitor] *)
Record UnaryVisitor := mkUnaryVisitor {
  u_typesInfo : Info;
  u_fset : token.FileSet
}.

(** [visitor.Visit].  [Apply_Visit e v] is
    [astutil.Apply(e, v.Visit, nil)] and [Apply_Unary e uV] is
    [astutil.Apply(e, uV.Visit, nil)]. *)
Definition Visit
    (Apply_Visit : ast.Expr -> visitor -> World -> Res (visitor * World))
    (Apply_Unary : ast.Expr -> UnaryVisitor -> World -> Res World)
    (c : Cursor) (v : visitor) (w : World) : Res (bool * visitor * World) :=
  match Node c with
  | None => Ok (false, v, w)
  | Some (ast.NExpr (ast.SelectorExpr X Sel as n)) =>
      exempt ← exemptContext v n (Parent c);
      if exempt : bool then Ok (true, v, w) else
      match isVar (ObjectOf (typesInfo v) Sel) with
      | None => Ok (true, v, w)
      | Some obj =>
          let p := types.Obj_Pos obj in
          goPos ← token.File_Position (fset v) p;
          if strings_Contains (token.String goPos) ".pb.go:" then
            let getter := "Get" +:+ Ident_Name w Sel in
            let typ := TypeOf (typesInfo v) X in
            match FindMethod_nilable typ getter with
            | Some method =>
                let mPos := types.Func_Pos method in
                goMethodPos ← token.File_Position (fset v) mPos;
                let w := set_Ident_Name w Sel (getter +:+ "()") in
                v ← addErrorAtPosition v (ast.NamePos Sel) Sel goMethodPos w;
                Ok (true, v, w)
            | None => Ok (true, v, w)
            end
          else Ok (true, v, w)
      end
  | Some (ast.NExpr (ast.KeyValueExpr _ Value)) =>
      '(v, w) ← Apply_Visit Value v w;
      Ok (true, v, w)
  | Some (ast.NExpr (ast.UnaryExpr _ X)) =>
      match X with
      | ast.SelectorExpr xX _ =>
          '(v, w) ← Apply_Visit xX v w;
          Ok (true, v, w)
      | _ =>
          let uV := mkUnaryVisitor (typesInfo v) (fset v) in
          w ← Apply_Unary X uV w;
          Ok (true, v, w)
      end
  | _ => Ok (true, v, w)
  end.

(** [UnaryVisitor.Visit].  The visitor [rv] it makes has a nil [lines]
    map and no errors, and is dropped after the walk. *)
Definition UnaryVisitor_Visit
    (Apply_Visit : ast.Expr -> visitor -> World -> Res (visitor * World))
    (Apply_Unary : ast.Expr -> UnaryVisitor -> World -> Res World)
    (c : Cursor) (uv : UnaryVisitor) (w : World) : Res (bool * World) :=
  match Node c with
  | None => Ok (false, w)
  | Some (ast.NExpr (ast.ParenExpr xX)) =>
      w ← match xX with
          | ast.SelectorExpr selX _ =>
              let rv := mkVisitor (u_typesInfo uv) (u_fset uv) None [] in
              '(_, w) ← Apply_Visit selX rv w;
              Ok w
          | _ => Ok w
          end;
      w ← match xX with
          | ast.ParenExpr selX => Apply_Unary selX uv w
          | _ => Ok w
          end;
      Ok (true, w)
  | Some (ast.NExpr (ast.SelectorExpr xX _)) =>
      w ← Apply_Unary xX uv w;
      Ok (true, w)
  | _ => Ok (true, w)
  end.

(** ** astutil.Apply with a [pre] function and no [post]

    [walkExpr] is the part of [application.apply] that walks the children
    of an expression, in the order of the fields. *)

Definition walkExpr {S : Type}
    (rec : ast.Node -> ast.Expr -> S -> Res S)
    (recL : ast.Node -> ast.ExprList -> S -> Res S)
    (recO : ast.Node -> ast.OptExpr -> S -> Res S)
    (leaf : ast.Node -> ast.Ident -> S -> Res S)
    (n : ast.Expr) (s : S) : Res S :=
  let p := ast.NExpr n in
  match n with
  | ast.IdentExpr _ => Ok s
  | ast.BasicLit _ => Ok s
  | ast.CompositeLit t es => s ← recO p t s; recL p es s
  | ast.ParenExpr x => rec p x s
  | ast.SelectorExpr x sel => s ← rec p x s; leaf p sel s
  | ast.IndexExpr x i => s ← rec p x s; rec p i s
  | ast.CallExpr f args => s ← rec p f s; recL p args s
  | ast.StarExpr x => rec p x s
  | ast.UnaryExpr _ x => rec p x s
  | ast.BinaryExpr x _ y => s ← rec p x s; rec p y s
  | ast.KeyValueExpr k v => s ← rec p k s; rec p v s
  end.

Definition noApply_Visit (_ : ast.Expr) (v : visitor) (w : World)
  : Res (visitor * World) := Ok (v, w).
Definition noApply_Unary (_ : ast.Expr) (_ : UnaryVisitor) (w : World)
  : Res World := Ok w.

(** [apply] on a node without children that [v.Visit] looks into: a nil
    node ([None]) or an identifier. *)
Definition applyLeaf (parent : ast.Node) (node : option ast.Node)
    (s : visitor * World) : Res (visitor * World) :=
  '(_, v, w) ← Visit noApply_Visit noApply_Unary (mkCursor node parent)
                 s.1 s.2;
  Ok (v, w).

Definition applyLeafU (uv : UnaryVisitor) (parent : ast.Node)
    (node : option ast.Node) (w : World) : Res World :=
  '(_, w) ← UnaryVisitor_Visit noApply_Visit noApply_Unary
              (mkCursor node parent) uv w;
  Ok w.

Definition identNode (id : ast.Ident) : option ast.Node :=
  Some (ast.NExpr (ast.IdentExpr id)).

(** [applyExpr parent n v w] is [apply] with [pre = v.Visit] at the
    expression [n]; [applyUnaryExpr] is [apply] with [pre = uV.Visit]. *)
Fixpoint applyExpr (parent : ast.Node) (n : ast.Expr) (v : visitor)
    (w : World) {struct n} : Res (visitor * World) :=
  '(cont, v, w) ← Visit (fun e => applyExpr ast.Wrapper e)
                    (fun e => applyUnaryExpr ast.Wrapper e)
                    (mkCursor (Some (ast.NExpr n)) parent) v w;
  if cont : bool then
    walkExpr (fun p e s => applyExpr p e s.1 s.2)
             (fun p es s => applyExprList p es s.1 s.2)
             (fun p o s => applyOptExpr p o s.1 s.2)
             (fun p id s => applyLeaf p (identNode id) s)
             n (v, w)
  else Ok (v, w)
with applyExprList (parent : ast.Node) (es : ast.ExprList) (v : visitor)
    (w : World) {struct es} : Res (visitor * World) :=
  match es with
  | ast.ENil => Ok (v, w)
  | ast.ECons e es' =>
      '(v, w) ← applyExpr parent e v w;
      applyExprList parent es' v w
  end
with applyOptExpr (parent : ast.Node) (o : ast.OptExpr) (v : visitor)
    (w : World) {struct o} : Res (visitor * World) :=
  match o with
  | ast.NoExpr => applyLeaf parent None (v, w)
  | ast.SomeExpr e => applyExpr parent e v w
  end
with applyUnaryExpr (parent : ast.Node) (n : ast.Expr) (uv : UnaryVisitor)
    (w : World) {struct n} : Res World :=
  '(cont, w) ← UnaryVisitor_Visit (fun e => applyExpr ast.Wrapper e)
                 (fun e => applyUnaryExpr ast.Wrapper e)
                 (mkCursor (Some (ast.NExpr n)) parent) uv w;
  if cont : bool then
    walkExpr (fun p e s => applyUnaryExpr p e uv s)
             (fun p es s => applyUnaryExprList p es uv s)
             (fun p o s => applyUnaryOptExpr p o uv s)
             (fun p id s => applyLeafU uv p (identNode id) s)
             n w
  else Ok w
with applyUnaryExprList (parent : ast.Node) (es : ast.ExprList)
    (uv : UnaryVisitor) (w : World) {struct es} : Res World :=
  match es with
  | ast.ENil => Ok w
  | ast.ECons e es' =>
      w ← applyUnaryExpr parent e uv w;
      applyUnaryExprList parent es' uv w
  end
with applyUnaryOptExpr (parent : ast.Node) (o : ast.OptExpr)
    (uv : UnaryVisitor) (w : World) {struct o} : Res World :=
  match o with
  | ast.NoExpr => applyLeafU uv parent None w
  | ast.SomeExpr e => applyUnaryExpr parent e uv w
  end.

(** [astutil.Apply(root, v.Visit, nil)] and
    [astutil.Apply(root, uV.Visit, nil)] for an expression [root]. *)
Definition Apply_Visit (root : ast.Expr) (v : visitor) (w : World)
  : Res (visitor * World) := applyExpr ast.Wrapper root v w.

Definition Apply_Unary (root : ast.Expr) (uv : UnaryVisitor) (w : World)
  : Res World := applyUnaryExpr ast.Wrapper root uv w.

(** Statements, declarations and files under [v.Visit]. *)
Definition visitNode (parent : ast.Node) (node : ast.Node) (v : visitor)
    (w : World) : Res (bool * visitor * World) :=
  Visit Apply_Visit Apply_Unary (mkCursor (Some node) parent) v w.

Fixpoint applyStmt (parent : ast.Node) (n : ast.Stmt) (v : visitor)
    (w : World) {struct n} : Res (visitor * World) :=
  '(cont, v, w) ← visitNode parent (ast.NStmt n) v w;
  if cont : bool then
    let p := ast.NStmt n in
    match n with
    | ast.ExprStmt x => applyExpr p x v w
    | ast.AssignStmt lhs _ rhs =>
        '(v, w) ← applyExprList p lhs v w;
        applyExprList p rhs v w
    | ast.ReturnStmt results => applyExprList p results v w
    | ast.BlockStmt l => applyStmtList p l v w
    | ast.IfStmt init cond body els =>
        '(v, w) ← applyOptStmt p init v w;
        '(v, w) ← applyExpr p cond v w;
        '(v, w) ←
          (let b := ast.NStmt (ast.BlockStmt body) in
           '(cont, v, w) ← visitNode p b v w;
           if cont : bool then applyStmtList b body v w else Ok (v, w));
        applyOptStmt p els v w
    end
  else Ok (v, w)
with applyStmtList (parent : ast.Node) (ss : ast.StmtList) (v : visitor)
    (w : World) {struct ss} : Res (visitor * World) :=
  match ss with
  | ast.SNil => Ok (v, w)
  | ast.SCons s ss' =>
      '(v, w) ← applyStmt parent s v w;
      applyStmtList parent ss' v w
  end
with applyOptStmt (parent : ast.Node) (o : ast.OptStmt) (v : visitor)
    (w : World) {struct o} : Res (visitor * World) :=
  match o with
  | ast.NoStmt => applyLeaf parent None (v, w)
  | ast.SomeStmt s => applyStmt parent s v w
  end.

Definition applyFuncDecl (parent : ast.Node) (d : ast.FuncDecl)
    (v : visitor) (w : World) : Res (visitor * World) :=
  '(cont, v, w) ← visitNode parent (ast.NFuncDecl d) v w;
  if cont : bool then
    let p := ast.NFuncDecl d in
    '(v, w) ← applyLeaf p (identNode (ast.Decl_Name d)) (v, w);
    let b := ast.NStmt (ast.BlockStmt (ast.Decl_Body d)) in
    '(cont, v, w) ← visitNode p b v w;
    if cont : bool then applyStmtList b (ast.Decl_Body d) v w else Ok (v, w)
  else Ok (v, w).

Fixpoint applyDecls (parent : ast.Node) (ds : list ast.FuncDecl)
    (v : visitor) (w : World) : Res (visitor * World) :=
  match ds with
  | [] => Ok (v, w)
  | d :: ds' =>
      '(v, w) ← applyFuncDecl parent d v w;
      applyDecls parent ds' v w
  end.

(** [astutil.Apply(astFile, v.Visit, nil)] *)
Definition Apply_File (f : ast.File) (v : visitor) (w : World)
  : Res (visitor * World) :=
  '(cont, v, w) ← visitNode ast.Wrapper (ast.NFile f) v w;
  if cont : bool then
    let p := ast.NFile f in
    '(v, w) ← applyLeaf p (identNode (ast.File_Name f)) (v, w);
    applyDecls p (ast.Decls f) v w
  else Ok (v, w).

(** ** errcheck.go: ordering and deduplication *)

(** The [<] of Go strings: byte-wise lexicographic. *)
Definition string_ltb (a b : string) : bool :=
  match String.compare a b with
  | Lt => true
  | _ => false
  end.

(** [byName.Less], on the two elements rather than their indices. *)
Definition byName_Less (ei ej : UnusedGetterError) : bool :=
  let pi := Pos ei in
  let pj := Pos ej in
  if negb (String.eqb (token.Filename pi) (token.Filename pj)) then
    string_ltb (token.Filename pi) (token.Filename pj)
  else if negb (token.Line pi =? token.Line pj) then
    token.Line pi <? token.Line pj
  else if negb (token.Column pi =? token.Column pj) then
    token.Column pi <? token.Column pj
  else string_ltb (Line ei) (Line ej).

(** [==] on the structs. *)
Definition Position_eqb (a b : token.Position) : bool :=
  String.eqb (token.Filename a) (token.Filename b)
  && (token.Offset a =? token.Offset b)
  && (token.Line a =? token.Line b)
  && (token.Column a =? token.Column b).

Definition UnusedGetterError_eqb (a b : UnusedGetterError) : bool :=
  Position_eqb (Pos a) (Pos b)
  && Position_eqb (GetterPos a) (GetterPos b)
  && String.eqb (Line a) (Line b)
  && String.eqb (FuncName a) (FuncName b).

(** [Result.Append] *)
Definition Result_Append (r other : Result) : Result :=
  mkResult (UnusedGetterErrors r ++ UnusedGetterErrors other).

(** The loop of [Result.Unique].  [uniq] is [result[:0]]: it shares the
    array of [result], so [append(uniq, err)] stores at index [k], the
    length of [uniq], of the array that the loop is still reading.
    [compactLoop is_ arr k] runs the iterations [is_] and returns the array
    and the length of [uniq]. *)
Definition compactStep (st : list UnusedGetterError * nat) (i : nat)
  : list UnusedGetterError * nat :=
  let '(arr, k) := st in
  match arr !! i with
  | None => st
  | Some err =>
      let keep :=
        match i with
        | O => true
        | S j =>
            match arr !! j with
            | Some prev => negb (UnusedGetterError_eqb err prev)
            | None => true
            end
        end in
      if keep then (<[k := err]> arr, S k) else (arr, k)
  end.

Definition compactLoop (arr : list UnusedGetterError)
  : list UnusedGetterError * nat :=
  fold_left compactStep (seq 0 (length arr)) (arr, O).

(** The external collaborators of the checker: the standard library and
    the package loader. *)
Record Package := mkPackage {
  ID : string;
  PkgPath : string;
  Errors : list string;
  Syntax : list ast.File;
  TypesInfo : Info;
  Fset : token.FileSet
}.

Inductive error :=
| ErrNoGoFiles
| LoaderError (msg : string)
| PackageErrors (id : string) (errs : list string).

Record Externals := mkExternals {
  (** [sort.Sort(byName(result))]: the slice after the call *)
  sort_Sort : list UnusedGetterError -> list UnusedGetterError;
  (** [generatedCodeRegexp.MatchString] *)
  generatedCodeRegexp_MatchString : string -> bool;
  (** [format.Node] into a buffer, as the lines it prints *)
  format_Node : token.FileSet -> gmap N string -> ast.File
                -> option (list string);
  (** [ioutil.WriteAndSyncFile]: the file system after the write, or an
      error *)
  WriteAndSyncFile : gmap string (list string) -> string -> list string
                     -> option (gmap string (list string));
  (** [loadPackages(cfg, paths...)], [Tests] being the only field of the
      configuration that the checker sets from its flags *)
  loadPackages : bool -> list string -> list Package + error;
  (** the order in which the workers take the lock to append *)
  schedule : list Package -> list Package
}.

Section Checker.

Context (ext : Externals).

(** [Result.Unique]: copy, sort, compact in place. *)
Definition Result_Unique (r : Result) : Result :=
  let result := UnusedGetterErrors r in
  let result := sort_Sort ext result in
  let '(arr, k) := compactLoop result in
  mkResult (take k arr).

Record Exclusions := mkExclusions {
  TestFiles : bool;
  GeneratedFiles : bool
}.

Record Checker := mkChecker {
  Exclusions_ : Exclusions;
  WriteGetters : bool;
  Mod : string
}.

(** [Checker.LoadPackages] *)
Definition LoadPackages (c : Checker) (paths : list string)
  : list Package + error :=
  loadPackages ext (negb (TestFiles (Exclusions_ c))) paths.

(** [Checker.shouldSkipFile]; the comment that matches is printed. *)
Fixpoint firstGenerated (comments : list string) : option string :=
  match comments with
  | text :: rest =>
      if generatedCodeRegexp_MatchString ext text then Some text
      else firstGenerated rest
  | [] => None
  end.

Definition shouldSkipFile (c : Checker) (file : ast.File) (w : World)
  : bool * World :=
  if negb (GeneratedFiles (Exclusions_ c)) then (false, w)
  else
    match firstGenerated (concat (ast.Comments file)) with
    | Some text =>
        (true, mkWorld (names w) (fs w) (stdout w ++ [text +:+ newline]))
    | None => (false, w)
    end.

(** The body of the loop of [CheckPackage] for one file. *)
Definition checkFile (c : Checker) (astFile : ast.File) (v : visitor)
    (w : World) : Res (visitor * World) :=
  let '(skip, w) := shouldSkipFile c astFile w in
  if skip : bool then Ok (v, w) else
  '(v, w) ← Apply_File astFile v w;
  if WriteGetters c then
    match format_Node ext (fset v) (names w) astFile with
    | None => Panic "error creating formatted code"
    | Some buf =>
        let fileName :=
          token.Filename
            (token.FileSet_Position (fset v) (ast.Package astFile)) in
        match WriteAndSyncFile ext (fs w) fileName buf with
        | None => Panic "write error"
        | Some fs' => Ok (v, mkWorld (names w) fs' (stdout w))
        end
    end
  else Ok (v, w).

Fixpoint checkFiles (c : Checker) (files : list ast.File) (v : visitor)
    (w : World) : Res (visitor * World) :=
  match files with
  | [] => Ok (v, w)
  | astFile :: rest =>
      '(v, w) ← checkFile c astFile v w;
      checkFiles c rest v w
  end.

(** [Checker.CheckPackage] *)
Definition CheckPackage (c : Checker) (pkg : Package) (w : World)
  : Res (Result * World) :=
  let v := mkVisitor (TypesInfo pkg) (Fset pkg) (Some ∅) [] in
  '(v, w) ← checkFiles c (Syntax pkg) v w;
  Ok (mkResult (errors v), w).

(** The first loop of [checkPaths]: a package with errors ends the call,
    the others are queued. *)
Fixpoint enqueue (pkgs work : list Package) : Package + list Package :=
  match pkgs with
  | [] => inr work
  | pkg :: rest =>
      if (0 <? length (Errors pkg))%nat then inl pkg
      else enqueue rest (work ++ [pkg])
  end.

(** The workers: every queued package is checked once and its result
    appended under the lock, in the order of [schedule]. *)
Fixpoint drain (check : Package -> World -> Res (Result * World))
    (work : list Package) (result : Result) (w : World)
  : Res (Result * World) :=
  match work with
  | [] => Ok (result, w)
  | pkg :: rest =>
      '(r, w) ← check pkg w;
      drain check rest (Result_Append result r) w
  end.

(** [checkPaths], with the function the workers call as an argument. *)
Definition checkPaths_with
    (check : Package -> World -> Res (Result * World))
    (c : Checker) (paths : list string) (w : World)
  : Res (Result * option error * World) :=
  match LoadPackages c paths with
  | inr err => Ok (mkResult [], Some err, w)
  | inl pkgs =>
      match enqueue pkgs [] with
      | inl pkg =>
          Ok (mkResult [], Some (PackageErrors (ID pkg) (Errors pkg)), w)
      | inr work =>
          '(result, w) ← drain check (schedule ext work) (mkResult []) w;
          Ok (Result_Unique result, None, w)
      end
  end.

(** [checkPaths] *)
Definition checkPaths (c : Checker) (paths : list string) (w : World)
  : Res (Result * option error * World) :=
  checkPaths_with (CheckPackage c) c paths w.

End Checker.

(** ** The test suite's package

    [gettercheck_test.go] writes [testdata/src/main.go] around the body of
    [main] and checks it against the generated package, whose structs
    [Basic] and [Parent] have fields [Name], [Address] and [Child] with the
    getters [GetName], [GetAddress] and [GetChild].  A [Pos] below
    [100000] is [100 * line + column] in [main.go]; the ones from [100000]
    are laid out the same way in the generated file. *)

Module testdata.

Definition mainFile : string := "testdata/src/main.go".
Definition generatedFile : string := "testdata/src/generated/test.pb.go".

Definition fset : token.FileSet := fun p =>
  if (0 <? p) && (p <? 100000) then
    Some (token.mkPosition mainFile p (p / 100) (p mod 100))
  else if (100000 <=? p) && (p <? 200000) then
    Some (token.mkPosition generatedFile (p - 100000)
            ((p - 100000) / 100) ((p - 100000) mod 100))
  else None.

Definition at_ (line col : Z) : token.Pos := 100 * line + col.
Definition gen_at (line col : Z) : token.Pos := 100000 + 100 * line + col.

Definition GetName := types.mkFunc "GetName" (gen_at 20 17) 0.
Definition GetAddress := types.mkFunc "GetAddress" (gen_at 27 17) 0.
Definition GetChild := types.mkFunc "GetChild" (gen_at 40 18) 0.

Definition tString := types.Basic "string".
Definition tNil := types.Basic "untyped nil".
Definition pkgPath : string :=
  "github.com/saiskee/gettercheck/gettercheck/testdata/src/generated".
Definition tBasic :=
  types.Named pkgPath "Basic" (types.Struct ["Name"; "Address"])
    [GetName; GetAddress].
Definition tParent :=
  types.Named pkgPath "Parent" (types.Struct ["Child"]) [GetChild].
(** A hand-written struct with a field and a method of the getter's name *)
Definition tLocal :=
  types.Named "src" "Local" (types.Struct ["Name"])
    [types.mkFunc "GetName" (at_ 3 17) 0].

Definition fieldName :=
  types.mkObject types.KVar "Name" (gen_at 12 2) tString.
Definition fieldAddress :=
  types.mkObject types.KVar "Address" (gen_at 13 2) (types.Pointer tString).
Definition fieldChild :=
  types.mkObject types.KVar "Child" (gen_at 32 2) (types.Pointer tBasic).
Definition localFieldName :=
  types.mkObject types.KVar "Name" (at_ 2 2) tString.
Definition objNil := types.mkObject types.KNil "nil" token.NoPos tNil.
Definition typeName (name : string) (t : types.Type_) :=
  types.mkObject types.KTypeName name (gen_at 11 6) t.
Definition var (name : string) (pos : token.Pos) (t : types.Type_) :=
  types.mkObject types.KVar name pos t.
Definition method (f : types.Func) :=
  types.mkObject types.KFunc (types.Func_Name f) (types.Func_Pos f)
    (types.Basic "func()").

(** An identifier of [main.go]: address, place, name and object. *)
Record entry := mkEntry {
  e_ident : ast.Ident;
  e_name : string;
  e_obj : option types.Object
}.

Definition ident (a : N) (line col : Z) (name : string)
    (obj : option types.Object) : entry :=
  mkEntry (ast.mkIdent a (at_ line col)) name obj.

Definition E (e : entry) : ast.Expr := ast.IdentExpr (e_ident e).
Definition Sel (x : ast.Expr) (e : entry) : ast.Expr :=
  ast.SelectorExpr x (e_ident e).

Definition info (table : list entry) : Info :=
  let objectOf := fun id : ast.Ident =>
    match find (fun e => ast.Ident_eqb (e_ident e) id) table with
    | Some e => e_obj e
    | None => None
    end in
  mkInfo
    (fun e =>
       match e with
       | ast.SelectorExpr _ sel => types.Obj_Type <$> objectOf sel
       | _ => None
       end)
    objectOf.

Definition heap (table : list entry) : gmap N string :=
  list_to_map (map (fun e => (ast.addr (e_ident e), e_name e)) table).

Definition world (table : list entry) (body : list string) : World :=
  mkWorld (heap table)
    {[ mainFile :=
         (["package src"; ""; "import ("; "	. generated"; ")"; "";
           "func main() {"] ++ body ++ ["}"])%list ]}
    [].

Definition idSrc := ident 1 1 9 "src" None.
Definition idMain := ident 2 7 6 "main" None.

Definition package (table : list entry) (body : list ast.Stmt) : Package :=
  mkPackage "testdata/src" "testdata/src" []
    [ast.mkFile (at_ 1 1) (e_ident idSrc)
       [ast.mkFuncDecl (e_ident idMain) (ast.stmts body)] []]
    (info table) fset.

Definition checker : Checker :=
  mkChecker (mkExclusions false true) false "".

(** A stable insertion sort; [sort.Sort] runs its insertion sort, which is
    stable, on slices of up to twelve elements. *)
Fixpoint insert (e : UnusedGetterError) (l : list UnusedGetterError)
  : list UnusedGetterError :=
  match l with
  | [] => [e]
  | x :: r => if byName_Less x e then x :: insert e r else e :: l
  end.

Fixpoint insertionSort (l : list UnusedGetterError)
  : list UnusedGetterError :=
  match l with
  | [] => []
  | e :: r => insert e (insertionSort r)
  end.

Definition ext : Externals :=
  mkExternals insertionSort (fun _ => false) (fun _ _ _ => Some [])
    (fun fs_ name ls => Some (<[name := ls]> fs_))
    (fun _ _ => inl []) (fun work => work).

Definition lit (s : string) : ast.Expr := ast.BasicLit s.
Definition addressOf (x : ast.Expr) : ast.Expr :=
  ast.UnaryExpr token.AND x.
Definition composite (t : entry) (elts : list ast.Expr) : ast.Expr :=
  ast.CompositeLit (ast.SomeExpr (E t)) (ast.of_list elts).
Definition define (x : entry) (e : ast.Expr) : ast.Stmt :=
  ast.AssignStmt (ast.of_list [E x]) token.DEFINE (ast.of_list [e]).
Definition assign (lhs rhs : list ast.Expr) : ast.Stmt :=
  ast.AssignStmt (ast.of_list lhs) token.ASSIGN (ast.of_list rhs).

(** *** [a.Name, b.Name = "hello", "bye"] *)
Module lhs.
Definition a0 := ident 10 9 2 "a" (Some (var "a" (at_ 9 2) (types.Pointer tBasic))).
Definition tB0 := ident 11 9 8 "Basic" (Some (typeName "Basic" tBasic)).
Definition b0 := ident 12 10 2 "b" (Some (var "b" (at_ 10 2) (types.Pointer tBasic))).
Definition tB1 := ident 13 10 8 "Basic" (Some (typeName "Basic" tBasic)).
Definition a1 := ident 14 11 2 "a" (e_obj a0).
Definition name1 := ident 15 11 4 "Name" (Some fieldName).
Definition b1 := ident 16 11 10 "b" (e_obj b0).
Definition name2 := ident 17 11 12 "Name" (Some fieldName).
Definition table := [idSrc; idMain; a0; tB0; b0; tB1; a1; name1; b1; name2].
Definition body : list ast.Stmt :=
  [define a0 (addressOf (composite tB0 []));
   define b0 (addressOf (composite tB1 []));
   assign [Sel (E a1) name1; Sel (E b1) name2] [lit "hello"; lit "bye"]].
Definition source : list string :=
  [""; "	a := &Basic{}"; "	b := &Basic{}"; "	a.Name, b.Name = hello, bye"].
Definition pkg := package table body.
Definition w := world table source.
End lhs.

(** *** [_, _ = a.Name, a.Name] *)
Module rhs.
Definition a0 := ident 10 9 2 "a" (Some (var "a" (at_ 9 2) (types.Pointer tBasic))).
Definition tB0 := ident 11 9 8 "Basic" (Some (typeName "Basic" tBasic)).
Definition u1 := ident 12 10 2 "_" None.
Definition u2 := ident 13 10 5 "_" None.
Definition a1 := ident 14 10 9 "a" (e_obj a0).
Definition name1 := ident 15 10 11 "Name" (Some fieldName).
Definition a2 := ident 16 10 17 "a" (e_obj a0).
Definition name2 := ident 17 10 19 "Name" (Some fieldName).
Definition table := [idSrc; idMain; a0; tB0; u1; u2; a1; name1; a2; name2].
Definition body : list ast.Stmt :=
  [define a0 (addressOf (composite tB0 []));
   assign [E u1; E u2] [Sel (E a1) name1; Sel (E a2) name2]].
Definition source : list string :=
  [""; "	a := &Basic{}"; "	_, _ = a.Name, a.Name"].
Definition pkg := package table body.
Definition w := world table source.
End rhs.

(** *** [if c.Address == nil {}] *)
Module nilcheck.
Definition address0 := ident 10 9 1 "address" (Some (var "address" (at_ 9 1) tString)).
Definition c0 := ident 11 10 2 "c" (Some (var "c" (at_ 10 2) tBasic)).
Definition tB0 := ident 12 10 7 "Basic" (Some (typeName "Basic" tBasic)).
Definition key0 := ident 13 10 13 "Address" (Some fieldAddress).
Definition address1 := ident 14 10 23 "address" (e_obj address0).
Definition c1 := ident 15 11 5 "c" (e_obj c0).
Definition address2 := ident 16 11 7 "Address" (Some fieldAddress).
Definition nil0 := ident 17 11 18 "nil" (Some objNil).
Definition table :=
  [idSrc; idMain; address0; c0; tB0; key0; address1; c1; address2; nil0].
Definition cond : ast.Expr :=
  ast.BinaryExpr (Sel (E c1) address2) token.EQL (E nil0).
Definition body : list ast.Stmt :=
  [define address0 (lit "Muffin Man Lane");
   define c0 (composite tB0
                [ast.KeyValueExpr (E key0) (addressOf (E address1))]);
   ast.IfStmt ast.NoStmt cond ast.SNil ast.NoStmt].
Definition source : list string :=
  [""; "address := Muffin Man Lane"; "	c := Basic{Address: &address}";
   "	if c.Address == nil {"; "	}"].
Definition pkg := package table body.
Definition w := world table source.
End nilcheck.

(** *** [a.Child.Name = "hello"] after [a := &Parent{Child: &Basic{Name: "hello"}}] *)
Module nested.
Definition a0 := ident 10 9 2 "a" (Some (var "a" (at_ 9 2) (types.Pointer tParent))).
Definition tP0 := ident 11 9 8 "Parent" (Some (typeName "Parent" tParent)).
Definition key0 := ident 12 10 3 "Child" (Some fieldChild).
Definition tB0 := ident 13 10 11 "Basic" (Some (typeName "Basic" tBasic)).
Definition key1 := ident 14 11 4 "Name" (Some fieldName).
Definition a1 := ident 15 15 2 "a" (e_obj a0).
Definition child1 := ident 16 15 4 "Child" (Some fieldChild).
Definition name1 := ident 17 15 10 "Name" (Some fieldName).
Definition table :=
  [idSrc; idMain; a0; tP0; key0; tB0; key1; a1; child1; name1].
Definition body : list ast.Stmt :=
  [define a0
     (addressOf
        (composite tP0
           [ast.KeyValueExpr (E key0)
              (addressOf
                 (composite tB0
                    [ast.KeyValueExpr (E key1) (lit "hello")]))]));
   assign [Sel (Sel (E a1) child1) name1] [lit "hello"]].
Definition source : list string :=
  [""; "	a := &Parent{"; "		Child: &Basic{"; "			Name: hello,"; "		},";
   "	}"; ""; "	a.Child.Name = hello"].
Definition pkg := package table body.
Definition w := world table source.
End nested.

(** *** [_ = u.Name] for a struct written by hand in [main.go], with a
    method [GetName] *)
Module handwritten.
Definition u0 := ident 10 9 2 "u" (Some (var "u" (at_ 9 2) tLocal)).
Definition tL0 := ident 11 9 7 "Local" (Some (typeName "Local" tLocal)).
Definition u1 := ident 12 10 2 "_" None.
Definition u2 := ident 13 10 6 "u" (e_obj u0).
Definition name1 := ident 14 10 8 "Name" (Some localFieldName).
Definition table := [idSrc; idMain; u0; tL0; u1; u2; name1].
Definition body : list ast.Stmt :=
  [define u0 (composite tL0 []);
   assign [E u1] [Sel (E u2) name1]].
Definition source : list string := [""; "	u := Local{}"; "	_ = u.Name"].
Definition pkg := package table body.
Definition w := world table source.
End handwritten.

End testdata.

(** ** gettercheck_visitor.go: the names of selectors *)

(** [getSelectorName], on the receiver and the identifier of the
    selector. *)
Fixpoint getSelectorName (w : World) (X : ast.Expr) (Sel : ast.Ident)
    {struct X} : string :=
  match X with
  | ast.IdentExpr ident => Ident_Name w ident +:+ "." +:+ Ident_Name w Sel
  | ast.SelectorExpr sX sSel =>
      getSelectorName w sX sSel +:+ "." +:+ Ident_Name w Sel
  | _ => ""
  end.

(** [visitor.selectorAndFunc], on the [Fun] of the call. *)
Definition selectorAndFunc (v : visitor) (Fun : ast.Expr)
  : option (ast.Expr * ast.Ident * types.Object) :=
  match Fun with
  | ast.SelectorExpr X Sel =>
      match ObjectOf (typesInfo v) Sel with
      | Some fn =>
          match types.Obj_Kind fn with
          | types.KFunc => Some (X, Sel, fn)
          | _ => None
          end
      | None => None
      end
  | _ => None
  end.

(** [visitor.selectorName] *)
Definition selectorName (v : visitor) (w : World) (Fun : ast.Expr) : string :=
  match selectorAndFunc v Fun with
  | Some (X, Sel, _) => getSelectorName w X Sel
  | None => ""
  end.

(** ** The command: [parseFlags], [reportResult], [mainCmd] *)

Definition exitCodeOk : Z := 0.
Definition exitUncheckedError : Z := 1.
Definition exitFatalError : Z := 2.

(** What the flag set holds after [flags.Parse]. *)
Record Flags := mkFlags {
  flag_ignoretests : bool;
  flag_ignoregenerated : bool;
  flag_write : bool;
  flag_verbose : bool;
  flag_abspath : bool;
  flag_mod : string;
  flag_Args : list string
}.

(** The operating system and the [flag] package, as the command uses
    them. *)
Record OS := mkOS {
  (** [flags.Parse(args[1:])] of the flag set of [parseFlags]; [None] is an
      error *)
  flags_Parse : list string -> option Flags;
  (** [os.Getwd()]; [None] is an error *)
  os_Getwd : option string;
  (** [filepath.Rel]; [None] is an error *)
  filepath_Rel : string -> string -> option string
}.

(** The global flags [abspath] and [verbose]. *)
Record Globals := mkGlobals {
  abspath : bool;
  verbose : bool
}.

(** [parseFlags]: the checker and the globals as the flags set them, the
    paths and the exit code.  [args[0]] of an empty [args] panics. *)
Definition parseFlags (os : OS) (args : list string)
  : Res (option (Checker * Globals) * list string * Z) :=
  match args with
  | [] => Panic "index out of range"
  | _ :: rest =>
      match flags_Parse os rest with
      | None => Ok (None, [], exitFatalError)
      | Some f =>
          let checker :=
            mkChecker (mkExclusions (flag_ignoretests f)
                         (flag_ignoregenerated f))
              (flag_write f) (flag_mod f) in
          let paths :=
            match flag_Args f with
            | [] => ["."]
            | _ => flag_Args f
            end in
          Ok (Some (checker, mkGlobals (flag_abspath f) (flag_verbose f)),
              paths, exitCodeOk)
      end
  end.

(** The line [reportResult] prints for one violation. *)
Definition reportLine (os : OS) (g : Globals) (wd : string)
    (e : UnusedGetterError) : string :=
  let pos := token.String (Pos e) in
  let pos :=
    if abspath g then pos
    else match filepath_Rel os wd pos with
         | Some newPos => newPos
         | None => pos
         end in
  if verbose g then
    pos +:+ ":" +:+ String (ascii_of_nat 9) "" +:+ FuncName e
    +:+ String (ascii_of_nat 9) "" +:+ Line e +:+ newline
    +:+ String (ascii_of_nat 9) "" +:+ "Getter at "
    +:+ token.String (GetterPos e) +:+ newline +:+ newline
  else
    pos +:+ ":" +:+ String (ascii_of_nat 9) "" +:+ FuncName e
    +:+ String (ascii_of_nat 9) "" +:+ Line e.

(** [reportResult] *)
Definition reportResult (os : OS) (g : Globals) (e : Result) (w : World)
  : World :=
  let wd := match os_Getwd os with
            | Some wd => wd
            | None => ""
            end in
  mkWorld (names w) (fs w)
    (stdout w ++ map (reportLine os g wd) (UnusedGetterErrors e)).

(** [err.Error()] *)
Definition Error_ (e : error) : string :=
  match e with
  | ErrNoGoFiles => "package contains no go source files"
  | LoaderError msg => msg
  | PackageErrors id errs =>
      "errors while loading package " +:+ id +:+ ": ["
      +:+ String.concat " " errs +:+ "]"
  end.

Definition isErrNoGoFiles (e : error) : bool :=
  match e with
  | ErrNoGoFiles => true
  | _ => false
  end.

(** [mainCmd]: the exit code, the world, and what the function itself
    writes on standard error.  (The trace of [logf] under [verbose] is
    not kept.) *)
Definition mainCmd (ext : Externals) (os : OS) (args : list string)
    (w : World) : Res (Z * World * list string) :=
  '(flags, paths, rc) ← parseFlags os args;
  match flags with
  | None => Ok (rc, w, [])
  | Some (checker, g) =>
      '(result, err, w) ← checkPaths ext checker paths w;
      match err with
      | Some e =>
          if isErrNoGoFiles e then Ok (exitCodeOk, w, [Error_ e +:+ newline])
          else
            Ok (exitFatalError, w,
                ["error: failed to check packages: " +:+ Error_ e
                 +:+ newline])
      | None =>
          if (0 <? length (UnusedGetterErrors result))%nat then
            Ok (exitUncheckedError, reportResult os g result w, [])
          else Ok (exitCodeOk, w, [])
      end
  end.

(** * Properties *)

(** ** The result monad *)

Lemma bind_Ok {A B} (r : Res A) (k : A -> Res B) (b : B) :
  r ≫= k = Ok b -> exists a, r = Ok a /\ k a = Ok b.
Proof.
  destruct r as [a|m]; cbn; intros H; [eauto | discriminate].
Qed.

Lemma bind_Ok_eq {A B} (r : Res A) (k : A -> Res B) (a : A) :
  r = Ok a -> r ≫= k = k a.
Proof. intros ->; reflexivity. Qed.

Ltac inv_bind H :=
  let a := fresh "a" in
  let Ha := fresh "Ha" in
  apply bind_Ok in H; destruct H as (a & Ha & H).

(** ** Equations of the traversal *)

Lemma applyExpr_eq parent n v w :
  applyExpr parent n v w =
  '(cont, v, w) ← Visit Apply_Visit Apply_Unary
                    (mkCursor (Some (ast.NExpr n)) parent) v w;
  if cont : bool then
    walkExpr (fun p e s => applyExpr p e s.1 s.2)
             (fun p es s => applyExprList p es s.1 s.2)
             (fun p o s => applyOptExpr p o s.1 s.2)
             (fun p id s => applyLeaf p (identNode id) s)
             n (v, w)
  else Ok (v, w).
Proof. destruct n; reflexivity. Qed.

Lemma applyUnaryExpr_eq parent n uv w :
  applyUnaryExpr parent n uv w =
  '(cont, w) ← UnaryVisitor_Visit Apply_Visit Apply_Unary
                 (mkCursor (Some (ast.NExpr n)) parent) uv w;
  if cont : bool then
    walkExpr (fun p e s => applyUnaryExpr p e uv s)
             (fun p es s => applyUnaryExprList p es uv s)
             (fun p o s => applyUnaryOptExpr p o uv s)
             (fun p id s => applyLeafU uv p (identNode id) s)
             n w
  else Ok w.
Proof. destruct n; reflexivity. Qed.

Lemma applyStmt_eq parent n v w :
  applyStmt parent n v w =
  '(cont, v, w) ← visitNode parent (ast.NStmt n) v w;
  if cont : bool then
    let p := ast.NStmt n in
    match n with
    | ast.ExprStmt x => applyExpr p x v w
    | ast.AssignStmt lhs _ rhs =>
        '(v, w) ← applyExprList p lhs v w;
        applyExprList p rhs v w
    | ast.ReturnStmt results => applyExprList p results v w
    | ast.BlockStmt l => applyStmtList p l v w
    | ast.IfStmt init cond body els =>
        '(v, w) ← applyOptStmt p init v w;
        '(v, w) ← applyExpr p cond v w;
        '(v, w) ←
          (let b := ast.NStmt (ast.BlockStmt body) in
           '(cont, v, w) ← visitNode p b v w;
           if cont : bool then applyStmtList b body v w else Ok (v, w));
        applyOptStmt p els v w
    end
  else Ok (v, w).
Proof. destruct n; reflexivity. Qed.

(** On a selector, [Visit] does not start a nested walk. *)
Lemma Visit_selector_nowalk AV AU X Sel parent v w :
  Visit AV AU (mkCursor (Some (ast.NExpr (ast.SelectorExpr X Sel))) parent)
    v w =
  Visit noApply_Visit noApply_Unary
    (mkCursor (Some (ast.NExpr (ast.SelectorExpr X Sel))) parent) v w.
Proof. reflexivity. Qed.

(** On a nil node, an identifier, a statement, a declaration or a file,
    [Visit] does nothing. *)
Lemma applyLeaf_None parent s : applyLeaf parent None s = Ok s.
Proof. destruct s; reflexivity. Qed.

Lemma applyLeaf_ident parent id s :
  applyLeaf parent (identNode id) s = Ok s.
Proof. destruct s; reflexivity. Qed.

Lemma applyLeafU_None uv parent w : applyLeafU uv parent None w = Ok w.
Proof. reflexivity. Qed.

Lemma applyLeafU_ident uv parent id w :
  applyLeafU uv parent (identNode id) w = Ok w.
Proof. reflexivity. Qed.

Lemma visitNode_stmt parent n v w :
  visitNode parent (ast.NStmt n) v w = Ok (true, v, w).
Proof. reflexivity. Qed.

Lemma visitNode_decl parent d v w :
  visitNode parent (ast.NFuncDecl d) v w = Ok (true, v, w).
Proof. reflexivity. Qed.

Lemma visitNode_file parent f v w :
  visitNode parent (ast.NFile f) v w = Ok (true, v, w).
Proof. reflexivity. Qed.

(** ** An induction principle for the walk

    [RV] relates the visitor and world before and after a walk with
    [v.Visit], [RW] the world before and after a walk with [uV.Visit].
    Both hold of every walk as soon as they are closed under composition,
    hold of the one step that can change something (the visit of a
    selector), and agree on the nested walks. *)

Section Traversal.

Variable RV : visitor * World -> visitor * World -> Prop.
Variable RW : World -> World -> Prop.

Hypothesis RV_refl : forall s, RV s s.
Hypothesis RV_trans : forall a b c, RV a b -> RV b c -> RV a c.
Hypothesis RW_refl : forall w, RW w w.
Hypothesis RW_trans : forall a b c, RW a b -> RW b c -> RW a c.
Hypothesis RV_selector : forall X Sel parent v w b v' w',
  Visit noApply_Visit noApply_Unary
    (mkCursor (Some (ast.NExpr (ast.SelectorExpr X Sel))) parent) v w
  = Ok (b, v', w') ->
  RV (v, w) (v', w').
Hypothesis RV_unary : forall v w w', RW w w' -> RV (v, w) (v, w').
Hypothesis RW_fresh : forall info fs_ w rv' w',
  RV (mkVisitor info fs_ None [], w) (rv', w') -> RW w w'.

Definition walkV (n : ast.Expr) : Prop :=
  forall parent v w v' w',
    applyExpr parent n v w = Ok (v', w') -> RV (v, w) (v', w').

Definition walkU (n : ast.Expr) : Prop :=
  forall parent uv w w',
    applyUnaryExpr parent n uv w = Ok w' -> RW w w'.

Definition walkVL (es : ast.ExprList) : Prop :=
  forall parent v w v' w',
    applyExprList parent es v w = Ok (v', w') -> RV (v, w) (v', w').

Definition walkUL (es : ast.ExprList) : Prop :=
  forall parent uv w w',
    applyUnaryExprList parent es uv w = Ok w' -> RW w w'.

Definition walkVO (o : ast.OptExpr) : Prop :=
  forall parent v w v' w',
    applyOptExpr parent o v w = Ok (v', w') -> RV (v, w) (v', w').

Definition walkUO (o : ast.OptExpr) : Prop :=
  forall parent uv w w',
    applyUnaryOptExpr parent o uv w = Ok w' -> RW w w'.

(** The receiver of a selector and the inside of a parenthesis are
    walked from two levels up; the induction carries them along. *)
Definition walkInner (n : ast.Expr) : Prop :=
  match n with
  | ast.SelectorExpr x _ => walkV x /\ walkU x
  | ast.ParenExpr x => walkV x /\ walkU x
  | _ => True
  end.

Lemma Visit_RV n parent v w cont v' w' :
  walkInner n ->
  match n with
  | ast.KeyValueExpr _ val => walkV val
  | ast.UnaryExpr _ x => walkU x /\ walkInner x
  | _ => True
  end ->
  Visit Apply_Visit Apply_Unary (mkCursor (Some (ast.NExpr n)) parent) v w
  = Ok (cont, v', w') ->
  cont = true /\ RV (v, w) (v', w').
Proof.
  intros Hin Hn H. destruct n; try (injection H as <- <- <-; auto).
  - (* SelectorExpr *)
    rewrite Visit_selector_nowalk in H.
    assert (cont = true) as ->.
    { unfold Visit in H; cbn [Node Parent] in H.
      repeat match type of H with
      | _ ≫= _ = Ok _ => inv_bind H
      | (if ?c then _ else _) = Ok _ => destruct c
      | match ?c with _ => _ end = Ok _ => destruct c
      | Ok _ = Ok _ => injection H as <- <- <-
      end; reflexivity. }
    split; [reflexivity | eauto].
  - (* UnaryExpr *)
    destruct Hn as [HU Hx]. unfold Visit, Apply_Visit, Apply_Unary in H; cbn [Node] in H.
    destruct n; cbn in Hx;
      try (inv_bind H; injection H as <- <- <-; split; [reflexivity|];
           apply RV_unary; exact (HU ast.Wrapper _ _ _ Ha)).
    inv_bind H. destruct a as [v1 w1]. injection H as <- <- <-.
    split; [reflexivity|]. destruct Hx as [HV _].
    exact (HV ast.Wrapper _ _ _ _ Ha).
  - (* KeyValueExpr *)
    unfold Visit, Apply_Visit, Apply_Unary in H; cbn [Node] in H.
    inv_bind H. destruct a as [v1 w1]. injection H as <- <- <-.
    split; [reflexivity|]. exact (Hn ast.Wrapper _ _ _ _ Ha).
Qed.

Lemma Visit_RW n parent uv w cont w' :
  match n with
  | ast.ParenExpr x => walkInner x
  | ast.SelectorExpr x _ => walkU x
  | _ => True
  end ->
  UnaryVisitor_Visit Apply_Visit Apply_Unary
    (mkCursor (Some (ast.NExpr n)) parent) uv w = Ok (cont, w') ->
  cont = true /\ RW w w'.
Proof.
  intros Hn H. destruct n; try (injection H as <- <-; auto).
  - (* ParenExpr *)
    unfold UnaryVisitor_Visit, Apply_Visit, Apply_Unary in H; cbn [Node] in H.
    inv_bind H. inv_bind H. injection H as <- <-.
    split; [reflexivity|].
    destruct n; cbn in Hn;
      try (injection Ha as <-; injection Ha0 as <-; apply RW_refl).
    + (* a parenthesis inside *)
      simplify_eq. destruct Hn as [_ HU].
      exact (HU ast.Wrapper _ _ _ Ha0).
    + (* a selector inside *)
      simplify_eq. inv_bind Ha. destruct a as [rv' w1].
      simplify_eq. destruct Hn as [HV _].
      eapply RW_fresh. exact (HV ast.Wrapper _ _ _ _ Ha0).
  - (* SelectorExpr *)
    unfold UnaryVisitor_Visit, Apply_Visit, Apply_Unary in H; cbn [Node] in H.
    inv_bind H. injection H as <- <-.
    split; [reflexivity|]. exact (Hn ast.Wrapper _ _ _ Ha).
Qed.

Ltac walk_children :=
  repeat match goal with
  | H : _ ≫= _ = Ok _ |- _ => inv_bind H
  | a : (visitor * World)%type |- _ => destruct a
  | H : applyLeaf _ _ _ = Ok _ |- _ =>
      rewrite ?applyLeaf_ident, ?applyLeaf_None in H
  | H : applyLeafU _ _ _ _ = Ok _ |- _ =>
      rewrite ?applyLeafU_ident, ?applyLeafU_None in H
  | H : Ok _ = Ok _ |- _ => simplify_eq
  end;
  cbn [fst snd] in *.

Lemma walk_all :
  (forall n, (walkV n /\ walkU n) /\ walkInner n)
  /\ (forall es, walkVL es /\ walkUL es)
  /\ (forall o, walkVO o /\ walkUO o).
Proof.
  apply Expr_mutind; intros;
    repeat match goal with
    | H : (_ /\ _) /\ _ |- _ => destruct H as [[? ?] ?]
    | H : _ /\ _ |- _ => destruct H as [? ?]
    end;
    repeat split; try (cbn; auto; fail);
    try (intros parent v w v' w' Hrun;
         first [ rewrite applyExpr_eq in Hrun; inv_bind Hrun;
                 destruct a as [[cont v1] w1];
                 apply Visit_RV in Ha as [-> HR]; [| cbn; auto ..];
                 cbn [walkExpr] in Hrun
               | cbn in Hrun ];
         unfold walkV, walkVL, walkVO in *;
         walk_children; eauto 6 using RV_trans; fail);
    try (intros parent uv w w' Hrun;
         first [ rewrite applyUnaryExpr_eq in Hrun; inv_bind Hrun;
                 destruct a as [cont w1];
                 apply Visit_RW in Ha as [-> HR]; [| cbn; auto ..];
                 cbn [walkExpr] in Hrun
               | cbn in Hrun ];
         unfold walkU, walkUL, walkUO in *;
         walk_children; eauto 6 using RW_trans; fail).
Qed.

Lemma walk_block parent body v w v' w' :
  (forall parent v w v' w',
      applyStmtList parent body v w = Ok (v', w') -> RV (v, w) (v', w')) ->
  ('(cont, v, w) ← visitNode parent (ast.NStmt (ast.BlockStmt body)) v w;
   if cont : bool
   then applyStmtList (ast.NStmt (ast.BlockStmt body)) body v w
   else Ok (v, w)) = Ok (v', w') ->
  RV (v, w) (v', w').
Proof.
  intros IH H. rewrite visitNode_stmt in H. cbn in H. eapply IH; exact H.
Qed.

Lemma walk_stmts :
  (forall n parent v w v' w',
      applyStmt parent n v w = Ok (v', w') -> RV (v, w) (v', w'))
  /\ (forall ss parent v w v' w',
      applyStmtList parent ss v w = Ok (v', w') -> RV (v, w) (v', w'))
  /\ (forall o parent v w v' w',
      applyOptStmt parent o v w = Ok (v', w') -> RV (v, w) (v', w')).
Proof.
  destruct walk_all as (HE & HL & HO).
  assert (HV : forall n, walkV n) by (intros n; apply HE).
  assert (HVL : forall es, walkVL es) by (intros es; apply HL).
  clear HE HL HO. unfold walkV, walkVL in HV, HVL.
  apply Stmt_mutind.
  - (* ExprStmt *)
    intros X parent v w v' w' H.
    rewrite applyStmt_eq, visitNode_stmt in H. cbn in H. eauto.
  - (* AssignStmt *)
    intros Lhs Tok Rhs parent v w v' w' H.
    rewrite applyStmt_eq, visitNode_stmt in H. cbn in H.
    inv_bind H. destruct a as [v1 w1]. eauto.
  - (* ReturnStmt *)
    intros Results parent v w v' w' H.
    rewrite applyStmt_eq, visitNode_stmt in H. cbn in H. eauto.
  - (* BlockStmt *)
    intros l IH parent v w v' w' H.
    rewrite applyStmt_eq, visitNode_stmt in H. cbn in H. eauto.
  - (* IfStmt *)
    intros Init IHi Cond Body IHb Else IHe parent v w v' w' H.
    rewrite applyStmt_eq, visitNode_stmt in H. cbn [mbind Res_bind bindR] in H.
    cbv zeta in H.
    inv_bind H. destruct a as [v1 w1].
    inv_bind H. destruct a as [v2 w2].
    inv_bind H. destruct a as [v3 w3].
    apply IHi in Ha. apply HV in Ha0.
    apply (walk_block _ _ _ _ _ _ IHb) in Ha1. apply IHe in H.
    eauto.
  - (* SNil *)
    intros parent v w v' w' H. cbn in H. simplify_eq. apply RV_refl.
  - (* SCons *)
    intros s IHs ss IHss parent v w v' w' H. cbn [applyStmtList] in H.
    inv_bind H. destruct a as [v1 w1]. eauto.
  - (* NoStmt *)
    intros parent v w v' w' H. cbn [applyOptStmt] in H.
    rewrite applyLeaf_None in H. simplify_eq. apply RV_refl.
  - (* SomeStmt *)
    intros s IHs parent v w v' w' H. cbn [applyOptStmt] in H. eauto.
Qed.

Lemma walk_decls ds parent v w v' w' :
  applyDecls parent ds v w = Ok (v', w') -> RV (v, w) (v', w').
Proof.
  destruct walk_stmts as (_ & HSL & _).
  revert v w; induction ds as [|d ds IH]; intros v w H; cbn in H.
  - simplify_eq. apply RV_refl.
  - walk_children. eauto using RV_trans.
Qed.

Lemma walk_file f v w v' w' :
  Apply_File f v w = Ok (v', w') -> RV (v, w) (v', w').
Proof.
  unfold Apply_File. rewrite visitNode_file. cbn. apply walk_decls.
Qed.

End Traversal.

(** ** The recorder and the visit of a selector *)

(** The source line the recorder reports for line number [line] of a file
    with the lines [ls]. *)
Definition lineText (ls : list string) (line : Z) : string :=
  if line - 1 <? Z.of_nat (length ls)
  then TrimSpace (nth (Z.to_nat (line - 1)) ls "")
  else "??".

(** The lines the recorder looks into: the cached ones, else the file's. *)
Definition cachedLines (m : gmap string (list string)) (w : World)
    (filename : string) : list string :=
  match m !! filename with
  | Some ls => ls
  | None => readfile w filename
  end.

Lemma addErrorAtPosition_Ok v position ident getterPos w v' :
  addErrorAtPosition v position ident getterPos w = Ok v' ->
  exists m,
    let pos := token.FileSet_Position (fset v) position in
    let ls := cachedLines m w (token.Filename pos) in
    lines v = Some m
    /\ ~ (token.Line pos - 1 < 0 /\ (0 < length ls)%nat)
    /\ v' = mkVisitor (typesInfo v) (fset v)
              (Some (<[token.Filename pos := ls]> m))
              (errors v ++ [mkError pos getterPos
                              (lineText ls (token.Line pos))
                              (Ident_Name w ident)]).
Proof.
  unfold addErrorAtPosition, cachedLines, lineText. intros H.
  destruct (lines v) as [m|]; [|discriminate]. exists m. cbn zeta.
  destruct (m !! _) as [ls|] eqn:Hm; cbn in H.
  - rewrite (insert_id m _ _ Hm).
    destruct (_ <? Z.of_nat _) eqn:Hlt; cbn in H.
    + destruct (_ <? 0) eqn:Hneg; cbn in H; [discriminate|].
      simplify_eq. repeat split; auto. lia.
    + simplify_eq. repeat split; auto. lia.
  - destruct (_ <? Z.of_nat _) eqn:Hlt; cbn in H.
    + destruct (_ <? 0) eqn:Hneg; cbn in H; [discriminate|].
      simplify_eq. repeat split; auto. lia.
    + simplify_eq. repeat split; auto. lia.
Qed.

(** What the visit of a selector does when it records. *)
Inductive recorded (v : visitor) (w : World) (X : ast.Expr)
    (Sel : ast.Ident) (parent : ast.Node) (v' : visitor) (w' : World)
  : Prop :=
| Recorded (obj : types.Object) (goPos : token.Position)
    (method : types.Func) (goMethodPos : token.Position)
    (Hcontext : exemptContext v (ast.SelectorExpr X Sel) parent = Ok false)
    (Hvar : isVar (ObjectOf (typesInfo v) Sel) = Some obj)
    (Hdeclared :
       token.File_Position (fset v) (types.Obj_Pos obj) = Ok goPos)
    (Hgenerated : strings_Contains (token.String goPos) ".pb.go:" = true)
    (Hgetter :
       FindMethod_nilable (TypeOf (typesInfo v) X)
         ("Get" +:+ Ident_Name w Sel) = Some method)
    (HgetterPos :
       token.File_Position (fset v) (types.Func_Pos method)
       = Ok goMethodPos)
    (Hworld :
       w' = set_Ident_Name w Sel ("Get" +:+ Ident_Name w Sel +:+ "()"))
    (Hvisitor :
       addErrorAtPosition v (ast.NamePos Sel) Sel goMethodPos w' = Ok v').

Lemma Visit_selector_cases AV AU X Sel parent v w b v' w' :
  Visit AV AU (mkCursor (Some (ast.NExpr (ast.SelectorExpr X Sel))) parent)
    v w = Ok (b, v', w') ->
  b = true /\ ((v' = v /\ w' = w) \/ recorded v w X Sel parent v' w').
Proof.
  unfold Visit; cbn [Node Parent]. intros H.
  inv_bind H. destruct a; [simplify_eq; auto|].
  destruct (isVar _) as [obj|] eqn:Hobj; [|simplify_eq; auto].
  inv_bind H. rename a into goPos.
  destruct (strings_Contains _ _) eqn:Hgen; [|simplify_eq; auto].
  destruct (FindMethod_nilable _ _) as [method|] eqn:Hm; [|simplify_eq; auto].
  inv_bind H. rename a into goMethodPos. inv_bind H. simplify_eq.
  split; [reflexivity|]. right. econstructor; eauto.
Qed.

(** ** Walks that cannot record

    A visitor with a nil [lines] map panics when it records, so a walk of
    it that returns has changed nothing; the walks of a [UnaryVisitor]
    record only through such visitors. *)

Definition RV_nil (s s' : visitor * World) : Prop :=
  lines s.1 = None -> s' = s.

Lemma RV_nil_selector X Sel parent v w b v' w' :
  Visit noApply_Visit noApply_Unary
    (mkCursor (Some (ast.NExpr (ast.SelectorExpr X Sel))) parent) v w
  = Ok (b, v', w') ->
  RV_nil (v, w) (v', w').
Proof.
  intros H Hnil. apply Visit_selector_cases in H as [_ [[-> ->]|Hrec]];
    [reflexivity|].
  destruct Hrec. apply addErrorAtPosition_Ok in Hvisitor as (m & Hm & _).
  cbn in Hnil. congruence.
Qed.

Lemma RV_nil_trans a b c : RV_nil a b -> RV_nil b c -> RV_nil a c.
Proof.
  unfold RV_nil. intros Hab Hbc Hnil.
  specialize (Hab Hnil). subst b. auto.
Qed.

(** ** The induction principle, for the walks of the checker's visitor

    A relation that is closed under composition and holds of the visit of
    a selector holds of every walk. *)

Section Invariant.

Variable R : visitor * World -> visitor * World -> Prop.

Hypothesis R_refl : forall s, R s s.
Hypothesis R_trans : forall a b c, R a b -> R b c -> R a c.
Hypothesis R_selector : forall X Sel parent v w b v' w',
  Visit noApply_Visit noApply_Unary
    (mkCursor (Some (ast.NExpr (ast.SelectorExpr X Sel))) parent) v w
  = Ok (b, v', w') ->
  R (v, w) (v', w').

Definition RV_inv (s s' : visitor * World) : Prop := R s s' /\ RV_nil s s'.
Definition RW_inv (w w' : World) : Prop := w' = w.

Lemma invariant_all :
  (forall n, (walkV RV_inv n /\ walkU RW_inv n) /\ walkInner RV_inv RW_inv n)
  /\ (forall es, walkVL RV_inv es /\ walkUL RW_inv es)
  /\ (forall o, walkVO RV_inv o /\ walkUO RW_inv o).
Proof.
  apply walk_all; unfold RV_inv, RW_inv.
  - intros s; split; [apply R_refl | intros _; reflexivity].
  - intros a b c [Hab Nab] [Hbc Nbc]; split;
      [eapply R_trans | eapply RV_nil_trans]; eauto.
  - reflexivity.
  - intros a b c -> ->; reflexivity.
  - intros X Sel parent v w b v' w' H; split;
      [eapply R_selector | eapply RV_nil_selector]; exact H.
  - intros v w w' ->; split; [apply R_refl | intros _; reflexivity].
  - intros info fs_ w rv' w' [_ Hnil].
    specialize (Hnil eq_refl). congruence.
Qed.

Lemma invariant_expr parent n v w v' w' :
  applyExpr parent n v w = Ok (v', w') -> R (v, w) (v', w').
Proof.
  intros H. destruct invariant_all as (HE & _ & _).
  destruct (HE n) as [[HV _] _]. eapply HV; exact H.
Qed.

Lemma invariant_unary parent n uv w w' :
  applyUnaryExpr parent n uv w = Ok w' -> w' = w.
Proof.
  intros H. destruct invariant_all as (HE & _ & _).
  destruct (HE n) as [[_ HU] _]. eapply HU; exact H.
Qed.

Lemma invariant_file f v w v' w' :
  Apply_File f v w = Ok (v', w') -> R (v, w) (v', w').
Proof.
  intros H. eapply (walk_file RV_inv RW_inv); try exact H;
    try apply invariant_all; unfold RV_inv, RW_inv.
  - intros s; split; [apply R_refl | intros _; reflexivity].
  - intros a b c [Hab Nab] [Hbc Nbc]; split;
      [eapply R_trans | eapply RV_nil_trans]; eauto.
  - reflexivity.
  - intros a b c -> ->; reflexivity.
  - intros X Sel parent v0 w0 b v0' w0' H0; split;
      [eapply R_selector | eapply RV_nil_selector]; exact H0.
  - intros v0 w0 w0' ->; split; [apply R_refl | intros _; reflexivity].
  - intros info fs_ w0 rv' w0' [_ Hnil].
    specialize (Hnil eq_refl). congruence.
Qed.

End Invariant.

(** A walk of a [UnaryVisitor] that returns leaves the world as it was. *)
Lemma applyUnaryExpr_pure parent n uv w w' :
  applyUnaryExpr parent n uv w = Ok w' -> w' = w.
Proof.
  apply (invariant_unary (fun _ _ => True)); auto.
Qed.

(** ** Identity of nodes *)

Lemma Ident_eqb_refl i : ast.Ident_eqb i i = true.
Proof.
  unfold ast.Ident_eqb. rewrite N.eqb_refl, Z.eqb_refl. reflexivity.
Qed.

Lemma Token_eqb_refl t : token.Token_eqb t t = true.
Proof. destruct t; reflexivity. Qed.

Lemma Expr_eqb_refl_all :
  (forall e, ast.Expr_eqb e e = true)
  /\ (forall es, ast.ExprList_eqb es es = true)
  /\ (forall o, ast.OptExpr_eqb o o = true).
Proof.
  apply Expr_mutind; intros; cbn;
    rewrite ?Ident_eqb_refl, ?String.eqb_refl, ?Token_eqb_refl;
    repeat match goal with H : _ = true |- _ => rewrite H; clear H end;
    reflexivity.
Qed.

Lemma Expr_eqb_refl e : ast.Expr_eqb e e = true.
Proof. apply Expr_eqb_refl_all. Qed.

Lemma existsb_Expr_eqb n l : In n l -> existsb (ast.Expr_eqb n) l = true.
Proof.
  intros Hin. apply existsb_exists. exists n. split; [exact Hin|].
  apply Expr_eqb_refl.
Qed.

(** ** Exemptions of the traversal *)

(** The visitor that [CheckPackage] starts a package with. *)
Definition newVisitor (pkg : Package) : visitor :=
  mkVisitor (TypesInfo pkg) (Fset pkg) (Some ∅) [].

(** C1. When [Visit] stands on a field access that is one of the
    left-hand sides of its parent assignment, or the operand of its parent
    address-of operator, it returns without recording a violation and
    without touching the tree; and checking the test suite's
    [a.Name, b.Name = "hello", "bye"], whose fields have getters in a
    generated file, gives no violation. *)
Theorem C1_assignment_target_and_address_operand_exempt :
  forall AV AU X Sel parent v w,
    (exists Lhs Tok Rhs,
        parent = ast.NStmt (ast.AssignStmt Lhs Tok Rhs)
        /\ In (ast.SelectorExpr X Sel) (ast.to_list Lhs))
    \/ parent = ast.NExpr (ast.UnaryExpr token.AND (ast.SelectorExpr X Sel)) ->
    Visit AV AU
      (mkCursor (Some (ast.NExpr (ast.SelectorExpr X Sel))) parent) v w
    = Ok (true, v, w)
    /\ CheckPackage testdata.ext testdata.checker testdata.lhs.pkg
         testdata.lhs.w
       = Ok (mkResult [], testdata.lhs.w).
Proof.
  intros AV AU X Sel parent v w H. split; [|vm_compute; reflexivity].
  unfold Visit; cbn [Node Parent].
  destruct H as [(Lhs & Tok & Rhs & -> & Hin) | ->]; cbn [exemptContext].
  - rewrite (existsb_Expr_eqb _ _ Hin). reflexivity.
  - reflexivity.
Qed.

Lemma C1_witness :
  Visit Apply_Visit Apply_Unary
    (mkCursor
       (Some (ast.NExpr (testdata.Sel (testdata.E testdata.lhs.a1)
                           testdata.lhs.name1)))
       (ast.NStmt (testdata.assign
                     [testdata.Sel (testdata.E testdata.lhs.a1)
                        testdata.lhs.name1;
                      testdata.Sel (testdata.E testdata.lhs.b1)
                        testdata.lhs.name2]
                     [testdata.lit "hello"; testdata.lit "bye"])))
    (newVisitor testdata.lhs.pkg) testdata.lhs.w
  = Ok (true, newVisitor testdata.lhs.pkg, testdata.lhs.w)
  /\ CheckPackage testdata.ext testdata.checker testdata.lhs.pkg
       testdata.lhs.w
     = Ok (mkResult [], testdata.lhs.w).
Proof.
  apply C1_assignment_target_and_address_operand_exempt.
  left. eexists _, _, _. split; [reflexivity|]. simpl. auto.
Defined.

(** The names of the types whose pointers [basicPointerTypes] lists. *)
Definition primitiveNames : list string :=
  ["string"; "int"; "bool"; "int32"; "int64"; "float32"; "float64";
   "uint32"; "uint64"].

Lemma basicPointerTypes_primitive s :
  In s primitiveNames ->
  contains basicPointerTypes (types.String (types.Pointer (types.Basic s)))
  = true.
Proof.
  cbn. intros H.
  repeat (destruct H as [<- | H]; [reflexivity|]). destruct H.
Qed.

(** C6. When [Visit] stands on a field access that is the left operand of
    a [==] whose right operand is an identifier of type untyped nil, and
    the type of the field is a pointer to one of the primitive types that
    [basicPointerTypes] lists, it returns without recording a violation;
    and checking the test suite's [if c.Address == nil {}], [Address]
    being a [*string] field with a getter, gives no violation. *)
Theorem C6_nil_comparison_of_primitive_pointer_exempt :
  forall AV AU X Sel i ti s v w,
    TypeOf (typesInfo v) (ast.IdentExpr i) = Some ti ->
    types.String ti = "untyped nil" ->
    TypeOf (typesInfo v) (ast.IdentExpr Sel)
    = Some (types.Pointer (types.Basic s)) ->
    In s primitiveNames ->
    Visit AV AU
      (mkCursor (Some (ast.NExpr (ast.SelectorExpr X Sel)))
         (ast.NExpr (ast.BinaryExpr (ast.SelectorExpr X Sel) token.EQL
                       (ast.IdentExpr i)))) v w
    = Ok (true, v, w)
    /\ CheckPackage testdata.ext testdata.checker testdata.nilcheck.pkg
         testdata.nilcheck.w
       = Ok (mkResult [], testdata.nilcheck.w).
Proof.
  intros AV AU X Sel i ti s v w Hi Hnil Hsel Hs.
  split; [|vm_compute; reflexivity].
  unfold Visit; cbn [Node Parent exemptContext token.Token_eqb].
  rewrite Hi, Hnil, Hsel. cbn [String.eqb Ascii.eqb Bool.eqb].
  rewrite (basicPointerTypes_primitive _ Hs). reflexivity.
Qed.

Lemma C6_witness :
  Visit Apply_Visit Apply_Unary
    (mkCursor
       (Some (ast.NExpr (testdata.Sel (testdata.E testdata.nilcheck.c1)
                           testdata.nilcheck.address2)))
       (ast.NExpr testdata.nilcheck.cond))
    (newVisitor testdata.nilcheck.pkg) testdata.nilcheck.w
  = Ok (true, newVisitor testdata.nilcheck.pkg, testdata.nilcheck.w)
  /\ CheckPackage testdata.ext testdata.checker testdata.nilcheck.pkg
       testdata.nilcheck.w
     = Ok (mkResult [], testdata.nilcheck.w).
Proof.
  apply (C6_nil_comparison_of_primitive_pointer_exempt Apply_Visit
           Apply_Unary _ _ _ testdata.tNil "string").
  - reflexivity.
  - reflexivity.
  - reflexivity.
  - simpl. auto.
Defined.

(** ** The recorder *)

(** C8. When the line number of the position lies beyond the lines that
    the cache holds for the file (none at all when the file could not be
    read), a visitor with a line cache records the violation with the
    placeholder as its source line; the call returns. *)
Theorem C8_line_outside_cache_gives_placeholder :
  forall v m position ident getterPos w,
    lines v = Some m ->
    Z.of_nat
      (length (cachedLines m w
                 (token.Filename (token.FileSet_Position (fset v) position))))
    <= token.Line (token.FileSet_Position (fset v) position) - 1 ->
    addErrorAtPosition v position ident getterPos w
    = Ok (mkVisitor (typesInfo v) (fset v)
            (Some (<[token.Filename (token.FileSet_Position (fset v) position)
                     := cachedLines m w
                          (token.Filename
                             (token.FileSet_Position (fset v) position))]> m))
            (errors v
             ++ [mkError (token.FileSet_Position (fset v) position) getterPos
                   "??" (Ident_Name w ident)])).
Proof.
  intros v m position ident getterPos w Hm Hout.
  unfold addErrorAtPosition, cachedLines in *. rewrite Hm.
  destruct (m !! _) as [ls|] eqn:Hc; cbn.
  - rewrite (insert_id m _ _ Hc).
    destruct (_ <? Z.of_nat _) eqn:Hlt; [lia | reflexivity].
  - destruct (_ <? Z.of_nat _) eqn:Hlt; [lia | reflexivity].
Qed.

(** A world in which [main.go] cannot be opened. *)
Definition unreadable : World := mkWorld (testdata.heap testdata.rhs.table) ∅ [].

Lemma C8_witness :
  addErrorAtPosition (newVisitor testdata.rhs.pkg) (testdata.at_ 10 11)
    (testdata.e_ident testdata.rhs.name1)
    (token.mkPosition testdata.generatedFile 2017 20 17) unreadable
  = Ok (mkVisitor (testdata.info testdata.rhs.table) testdata.fset
          (Some {[ testdata.mainFile := [] ]})
          [mkError (token.mkPosition testdata.mainFile 1011 10 11)
             (token.mkPosition testdata.generatedFile 2017 20 17)
             "??" "Name"]).
Proof.
  refine (C8_line_outside_cache_gives_placeholder
            (newVisitor testdata.rhs.pkg) ∅ (testdata.at_ 10 11)
            (testdata.e_ident testdata.rhs.name1)
            (token.mkPosition testdata.generatedFile 2017 20 17) unreadable
            eq_refl _).
  vm_compute. discriminate.
Defined.

(** ** What every recorded violation is *)

(** A violation of a package: some selector [X.Sel] has a field as the
    object of [Sel], declared at a position whose text contains
    [.pb.go:], and [FindMethod] finds the method [Get<field>] on the type
    of [X]; the record holds the place of [Sel], the place of the method
    and the method's name with parentheses. *)
Definition violation_of (info : Info) (fset_ : token.FileSet)
    (e : UnusedGetterError) : Prop :=
  exists X Sel obj goPos method goMethodPos field,
    isVar (ObjectOf info Sel) = Some obj
    /\ token.File_Position fset_ (types.Obj_Pos obj) = Ok goPos
    /\ strings_Contains (token.String goPos) ".pb.go:" = true
    /\ FindMethod_nilable (TypeOf info X) ("Get" +:+ field) = Some method
    /\ token.File_Position fset_ (types.Func_Pos method) = Ok goMethodPos
    /\ Pos e = token.FileSet_Position fset_ (ast.NamePos Sel)
    /\ GetterPos e = goMethodPos
    /\ FuncName e = "Get" +:+ field +:+ "()".

Lemma Ident_Name_set w id s : Ident_Name (set_Ident_Name w id s) id = s.
Proof.
  unfold Ident_Name, set_Ident_Name; cbn. rewrite lookup_insert_eq.
  reflexivity.
Qed.

Lemma recorded_error v w X Sel parent v' w' :
  recorded v w X Sel parent v' w' ->
  typesInfo v' = typesInfo v /\ fset v' = fset v
  /\ (exists m, lines v = Some m)
  /\ Ident_Name w' Sel = "Get" +:+ Ident_Name w Sel +:+ "()"
  /\ exists e : UnusedGetterError,
      errors v' = (errors v ++ [e])%list
      /\ violation_of (typesInfo v) (fset v) e
      /\ FuncName e = "Get" +:+ Ident_Name w Sel +:+ "()".
Proof.
  intros [obj goPos method goMethodPos Hctx Hvar Hdecl Hgen Hget HgPos Hw Hv].
  apply addErrorAtPosition_Ok in Hv as (m & Hm & _ & ->). cbn.
  subst w'. rewrite Ident_Name_set.
  repeat split; eauto.
  eexists. split; [reflexivity|]. split; [|reflexivity].
  exists X, Sel, obj, goPos, method, goMethodPos, (Ident_Name w Sel).
  cbn. repeat split; auto.
Qed.

Definition R_violations (s s' : visitor * World) : Prop :=
  typesInfo s'.1 = typesInfo s.1 /\ fset s'.1 = fset s.1
  /\ (Forall (violation_of (typesInfo s.1) (fset s.1)) (errors s.1) ->
      Forall (violation_of (typesInfo s.1) (fset s.1)) (errors s'.1)).

Lemma R_violations_file f v w v' w' :
  Apply_File f v w = Ok (v', w') -> R_violations (v, w) (v', w').
Proof.
  apply invariant_file; unfold R_violations.
  - intros s; auto.
  - intros a b c (Hi & Hf & Hab) (Hi' & Hf' & Hbc).
    rewrite Hi, Hf in Hbc. repeat split; try congruence. auto.
  - intros X Sel parent v0 w0 b v0' w0' H. cbn.
    apply Visit_selector_cases in H as [_ [[-> ->]|Hrec]]; [auto|].
    apply recorded_error in Hrec
      as (Hi & Hf & _ & _ & e & -> & He & _).
    repeat split; auto. intros Hall. apply Forall_app; auto.
Qed.

Lemma checkFiles_violations ext c files v w v' w' :
  checkFiles ext c files v w = Ok (v', w') ->
  R_violations (v, w) (v', w').
Proof.
  revert v w. induction files as [|f files IH]; intros v w H; cbn in H.
  - simplify_eq. unfold R_violations; auto.
  - inv_bind H. destruct a as [v1 w1]. apply IH in H.
    assert (R_violations (v, w) (v1, w1)) as (Hi & Hf & Hab).
    { unfold checkFile in Ha. destruct (shouldSkipFile _ _ _ _) as [skip w0].
      destruct skip; [simplify_eq; unfold R_violations; auto|].
      inv_bind Ha. destruct a as [v2 w2].
      apply R_violations_file in Ha0.
      destruct (WriteGetters c); [|simplify_eq; exact Ha0].
      destruct (format_Node _ _ _ _); [|discriminate].
      destruct (WriteAndSyncFile _ _ _ _); [|discriminate].
      simplify_eq. exact Ha0. }
    destruct H as (Hi' & Hf' & Hbc). unfold R_violations in *; cbn in *.
    rewrite Hi, Hf in Hbc. repeat split; try congruence. auto.
Qed.

Lemma CheckPackage_violations ext c pkg w r w' :
  CheckPackage ext c pkg w = Ok (r, w') ->
  Forall (violation_of (TypesInfo pkg) (Fset pkg)) (UnusedGetterErrors r).
Proof.
  unfold CheckPackage. intros H. inv_bind H. destruct a as [v1 w1].
  simplify_eq. apply checkFiles_violations in Ha as (_ & _ & Hall).
  cbn in *. apply Hall. constructor.
Qed.

(** ** Which field accesses are flagged *)

Lemma Visit_selector_changes AV AU X Sel parent v w b v' w' :
  Visit AV AU (mkCursor (Some (ast.NExpr (ast.SelectorExpr X Sel))) parent)
    v w = Ok (b, v', w') ->
  (v', w') <> (v, w) ->
  recorded v w X Sel parent v' w'.
Proof.
  intros H Hne. apply Visit_selector_cases in H as [_ [[-> ->]|Hrec]];
    [contradiction | exact Hrec].
Qed.

(** C2. The visit of a field access [X.Sel] changes something only when
    the object of [Sel] is a field ([*types.Var]) declared at a position
    whose text contains [.pb.go:] and [FindMethod] finds [Get<Sel>] on the
    type of [X]; when the field is declared elsewhere, the visit changes
    nothing, whatever methods the type has; every violation that
    [CheckPackage] returns is one of such a field; and a struct written by
    hand in [main.go] with a field [Name] and a method [GetName] gives no
    violation. *)
Theorem C2_flagged_only_generated_fields_with_getter :
  (forall AV AU X Sel parent v w b v' w',
      Visit AV AU
        (mkCursor (Some (ast.NExpr (ast.SelectorExpr X Sel))) parent) v w
      = Ok (b, v', w') ->
      (v', w') <> (v, w) ->
      exists obj goPos method,
        ObjectOf (typesInfo v) Sel = Some obj
        /\ types.Obj_Kind obj = types.KVar
        /\ token.File_Position (fset v) (types.Obj_Pos obj) = Ok goPos
        /\ strings_Contains (token.String goPos) ".pb.go:" = true
        /\ FindMethod_nilable (TypeOf (typesInfo v) X)
             ("Get" +:+ Ident_Name w Sel) = Some method)
  /\ (forall AV AU X Sel parent v w b v' w' obj goPos,
      ObjectOf (typesInfo v) Sel = Some obj ->
      token.File_Position (fset v) (types.Obj_Pos obj) = Ok goPos ->
      strings_Contains (token.String goPos) ".pb.go:" = false ->
      Visit AV AU
        (mkCursor (Some (ast.NExpr (ast.SelectorExpr X Sel))) parent) v w
      = Ok (b, v', w') ->
      (v', w') = (v, w))
  /\ (forall ext c pkg w r w',
      CheckPackage ext c pkg w = Ok (r, w') ->
      Forall (violation_of (TypesInfo pkg) (Fset pkg))
        (UnusedGetterErrors r))
  /\ (FindMethod testdata.tLocal "GetName" <> None
      /\ CheckPackage testdata.ext testdata.checker testdata.handwritten.pkg
           testdata.handwritten.w
         = Ok (mkResult [], testdata.handwritten.w)).
Proof.
  split; [|split; [|split; [|split]]].
  - intros AV AU X Sel parent v w b v' w' H Hne.
    apply Visit_selector_changes in H; [|exact Hne].
    destruct H as [obj goPos method goMethodPos _ Hvar Hdecl Hgen Hget _ _ _].
    exists obj, goPos, method. unfold isVar in Hvar.
    destruct (ObjectOf _ _) as [o|]; [|discriminate].
    destruct (types.Obj_Kind o) eqn:Hk; try discriminate.
    simplify_eq. auto.
  - intros AV AU X Sel parent v w b v' w' obj goPos Hobj Hdecl Hgen H.
    apply Visit_selector_cases in H as [_ [[-> ->]|Hrec]]; [reflexivity|].
    destruct Hrec as [obj' goPos' ? ? _ Hvar Hdecl' Hgen' _ _ _ _].
    unfold isVar in Hvar. rewrite Hobj in Hvar.
    destruct (types.Obj_Kind obj); try discriminate.
    simplify_eq. congruence.
  - intros ext c pkg w r w'. apply CheckPackage_violations.
  - vm_compute. discriminate.
  - vm_compute. reflexivity.
Qed.

(** The visitor and the world after the visit of the first [a.Name] of
    [_, _ = a.Name, a.Name]. *)
Definition rhs_visited : visitor * World :=
  (mkVisitor (testdata.info testdata.rhs.table) testdata.fset
     (Some {[ testdata.mainFile
              := default [] (fs testdata.rhs.w !! testdata.mainFile) ]})
     [mkError (token.mkPosition testdata.mainFile 1011 10 11)
        (token.mkPosition testdata.generatedFile 2017 20 17)
        "_, _ = a.Name, a.Name" "GetName()"],
   set_Ident_Name testdata.rhs.w (testdata.e_ident testdata.rhs.name1)
     "GetName()").

Lemma C2_witness :
  exists obj goPos method,
    ObjectOf (testdata.info testdata.rhs.table)
      (testdata.e_ident testdata.rhs.name1) = Some obj
    /\ types.Obj_Kind obj = types.KVar
    /\ token.File_Position testdata.fset (types.Obj_Pos obj) = Ok goPos
    /\ strings_Contains (token.String goPos) ".pb.go:" = true
    /\ FindMethod_nilable
         (TypeOf (testdata.info testdata.rhs.table)
            (testdata.E testdata.rhs.a1))
         ("Get" +:+ Ident_Name testdata.rhs.w
                      (testdata.e_ident testdata.rhs.name1))
       = Some method.
Proof.
  apply (proj1 C2_flagged_only_generated_fields_with_getter
           Apply_Visit Apply_Unary (testdata.E testdata.rhs.a1)
           (testdata.e_ident testdata.rhs.name1) ast.Wrapper
           (newVisitor testdata.rhs.pkg) testdata.rhs.w true
           rhs_visited.1 rhs_visited.2).
  - reflexivity.
  - intros H. apply (f_equal (fun s => length (errors s.1))) in H.
    cbn in H. discriminate.
Defined.

(** ** The name a violation carries *)

Lemma length_app s1 s2 :
  String.length (s1 +:+ s2) = (String.length s1 + String.length s2)%nat.
Proof.
  induction s1 as [|c s1 IH]; [reflexivity|].
  change (S (String.length (s1 +:+ s2))
          = S (String.length s1 + String.length s2)).
  rewrite IH. reflexivity.
Qed.

Lemma getter_call_not_field s : "Get" +:+ s +:+ "()" <> s.
Proof.
  intros H. apply (f_equal String.length) in H.
  rewrite !length_app in H. cbn in H. lia.
Qed.

(** C10. When the visit of a field access [X.Sel] records a violation,
    the [FuncName] of the record is ["Get"], the name that [Sel] had, and
    ["()"]; this is the name that [Sel] has after the visit, and it is not
    the name it had.  Every violation that [CheckPackage] returns has a
    [FuncName] of this form, and the test suite's [a.Child.Name = "hello"]
    reports [GetChild()]. *)
Theorem C10_violation_names_the_getter_call :
  (forall AV AU X Sel parent v w b v' w',
      Visit AV AU
        (mkCursor (Some (ast.NExpr (ast.SelectorExpr X Sel))) parent) v w
      = Ok (b, v', w') ->
      errors v' <> errors v ->
      exists pos getterPos line,
        errors v'
        = (errors v
           ++ [mkError pos getterPos line
                 ("Get" +:+ Ident_Name w Sel +:+ "()")])%list
        /\ Ident_Name w' Sel = "Get" +:+ Ident_Name w Sel +:+ "()"
        /\ "Get" +:+ Ident_Name w Sel +:+ "()" <> Ident_Name w Sel)
  /\ (forall ext c pkg w r w',
      CheckPackage ext c pkg w = Ok (r, w') ->
      Forall (fun e => exists field, FuncName e = "Get" +:+ field +:+ "()")
        (UnusedGetterErrors r))
  /\ (exists r w',
      CheckPackage testdata.ext testdata.checker testdata.nested.pkg
        testdata.nested.w = Ok (r, w')
      /\ map FuncName (UnusedGetterErrors r) = ["GetChild()"]).
Proof.
  split; [|split].
  - intros AV AU X Sel parent v w b v' w' H Hne.
    apply Visit_selector_cases in H as [_ [[-> ->]|Hrec]]; [contradiction|].
    destruct Hrec as [obj goPos method goMethodPos _ _ _ _ _ _ Hw Hv].
    apply addErrorAtPosition_Ok in Hv as (m & _ & _ & ->). cbn.
    subst w'. rewrite Ident_Name_set.
    eexists _, _, _. split; [reflexivity|]. split; [reflexivity|].
    apply getter_call_not_field.
  - intros ext c pkg w r w' H. apply CheckPackage_violations in H.
    eapply Forall_impl; [exact H|]. cbn.
    intros e (X & Sel & obj & goPos & method & goMethodPos & field & He).
    exists field. apply He.
  - vm_compute. eexists _, _. split; reflexivity.
Qed.

Lemma C10_witness :
  exists pos getterPos line,
    errors (mkVisitor (testdata.info testdata.nested.table) testdata.fset
              (Some {[ testdata.mainFile
                       := default [] (fs testdata.nested.w
                                        !! testdata.mainFile) ]})
              [mkError (token.mkPosition testdata.mainFile 1504 15 4)
                 (token.mkPosition testdata.generatedFile 4018 40 18)
                 "a.Child.Name = hello" "GetChild()"])
    = (errors (newVisitor testdata.nested.pkg)
       ++ [mkError pos getterPos line
             ("Get" +:+ Ident_Name testdata.nested.w
                          (testdata.e_ident testdata.nested.child1)
                    +:+ "()")])%list
    /\ Ident_Name
         (set_Ident_Name testdata.nested.w
            (testdata.e_ident testdata.nested.child1) "GetChild()")
         (testdata.e_ident testdata.nested.child1)
       = "Get" +:+ Ident_Name testdata.nested.w
                     (testdata.e_ident testdata.nested.child1) +:+ "()"
    /\ "Get" +:+ Ident_Name testdata.nested.w
                   (testdata.e_ident testdata.nested.child1) +:+ "()"
       <> Ident_Name testdata.nested.w
            (testdata.e_ident testdata.nested.child1).
Proof.
  apply (proj1 C10_violation_names_the_getter_call Apply_Visit Apply_Unary
           (testdata.E testdata.nested.a1)
           (testdata.e_ident testdata.nested.child1)
           (ast.NExpr (testdata.Sel
                         (testdata.Sel (testdata.E testdata.nested.a1)
                            testdata.nested.child1)
                         testdata.nested.name1))
           (newVisitor testdata.nested.pkg) testdata.nested.w true).
  - reflexivity.
  - cbn. discriminate.
Defined.

(** ** What a check changes *)

(** Every name that differs is that of a getter call. *)
Definition renamed_only (n n' : gmap N string) : Prop :=
  forall a, n' !! a = n !! a
            \/ exists field, n' !! a = Some ("Get" +:+ field +:+ "()").

Lemma renamed_only_refl n : renamed_only n n.
Proof. intros a; auto. Qed.

Lemma renamed_only_trans n1 n2 n3 :
  renamed_only n1 n2 -> renamed_only n2 n3 -> renamed_only n1 n3.
Proof.
  intros H12 H23 a. destruct (H23 a) as [-> | Hget]; [apply H12 | auto].
Qed.

Definition R_frame (s s' : visitor * World) : Prop :=
  fs s'.2 = fs s.2 /\ stdout s'.2 = stdout s.2
  /\ renamed_only (names s.2) (names s'.2)
  /\ exists new, errors s'.1 = (errors s.1 ++ new)%list
                 /\ (new = [] -> s'.2 = s.2).

Lemma R_frame_refl s : R_frame s s.
Proof.
  repeat split; auto using renamed_only_refl.
  exists []. rewrite app_nil_r. auto.
Qed.

Lemma R_frame_trans a b c : R_frame a b -> R_frame b c -> R_frame a c.
Proof.
  intros (Hf & Ho & Hn & new & He & Hw) (Hf' & Ho' & Hn' & new' & He' & Hw').
  repeat split; try congruence; eauto using renamed_only_trans.
  exists (new ++ new')%list. rewrite He', He, app_assoc. split; [reflexivity|].
  intros Hnil. apply app_eq_nil in Hnil as [-> ->].
  rewrite Hw', Hw; auto.
Qed.

Lemma R_frame_selector X Sel parent v w b v' w' :
  Visit noApply_Visit noApply_Unary
    (mkCursor (Some (ast.NExpr (ast.SelectorExpr X Sel))) parent) v w
  = Ok (b, v', w') ->
  R_frame (v, w) (v', w').
Proof.
  intros H. apply Visit_selector_cases in H as [_ [[-> ->]|Hrec]];
    [apply R_frame_refl|].
  pose proof (recorded_error _ _ _ _ _ _ _ Hrec)
    as (_ & _ & _ & _ & e & He & _).
  destruct Hrec as [? ? ? ? _ _ _ _ _ _ -> _].
  repeat split; cbn.
  - intros a. destruct (decide (a = ast.addr Sel)) as [->|Hne].
    + right. eexists. rewrite lookup_insert_eq. reflexivity.
    + left. rewrite lookup_insert_ne; auto.
  - exists [e]. split; [exact He | discriminate].
Qed.

(** The same over the files of a package, where a skipped file prints its
    comment. *)
Definition R_package (s s' : visitor * World) : Prop :=
  fs s'.2 = fs s.2
  /\ renamed_only (names s.2) (names s'.2)
  /\ exists new, errors s'.1 = (errors s.1 ++ new)%list
                 /\ (new = [] -> names s'.2 = names s.2).

Lemma R_frame_package s s' : R_frame s s' -> R_package s s'.
Proof.
  intros (Hf & _ & Hn & new & He & Hw). repeat split; auto.
  exists new. split; [exact He|]. intros Hnil. rewrite Hw; auto.
Qed.

Lemma R_package_trans a b c :
  R_package a b -> R_package b c -> R_package a c.
Proof.
  intros (Hf & Hn & new & He & Hw) (Hf' & Hn' & new' & He' & Hw').
  repeat split; try congruence; eauto using renamed_only_trans.
  exists (new ++ new')%list. rewrite He', He, app_assoc. split; [reflexivity|].
  intros Hnil. apply app_eq_nil in Hnil as [-> ->].
  rewrite Hw', Hw; auto.
Qed.

Lemma checkFiles_frame ext c files v w v' w' :
  WriteGetters c = false ->
  checkFiles ext c files v w = Ok (v', w') ->
  R_package (v, w) (v', w').
Proof.
  intros Hwrite. revert v w.
  induction files as [|f files IH]; intros v w H; cbn in H.
  - simplify_eq. apply R_frame_package, R_frame_refl.
  - inv_bind H. destruct a as [v1 w1]. apply IH in H.
    eapply R_package_trans; [|exact H]. clear H IH.
    unfold checkFile, shouldSkipFile in Ha. rewrite Hwrite in Ha.
    destruct (negb _); cbn in Ha.
    + inv_bind Ha. destruct a as [v2 w2]. simplify_eq.
      apply R_frame_package.
      apply (invariant_file R_frame R_frame_refl R_frame_trans
               R_frame_selector _ _ _ _ _ Ha0).
    + destruct (firstGenerated _ _); cbn in Ha.
      * simplify_eq. repeat split; cbn; auto using renamed_only_refl.
        exists []. rewrite app_nil_r. auto.
      * inv_bind Ha. destruct a as [v2 w2]. simplify_eq.
        apply R_frame_package.
        apply (invariant_file R_frame R_frame_refl R_frame_trans
                 R_frame_selector _ _ _ _ _ Ha0).
Qed.




(** ** The order of [byName] *)

(** The key [byName.Less] compares: file, line, column, source line. *)
Definition key (e : UnusedGetterError) : string * Z * Z * string :=
  (token.Filename (Pos e), token.Line (Pos e), token.Column (Pos e), Line e).

Definition slt (a b : string) : Prop := String.compare a b = Lt.

(** The lexicographic order of the keys. *)
Definition key_lt (k1 k2 : string * Z * Z * string) : Prop :=
  let '(f1, l1, c1, t1) := k1 in
  let '(f2, l2, c2, t2) := k2 in
  slt f1 f2
  \/ (f1 = f2
      /\ (l1 < l2 \/ (l1 = l2 /\ (c1 < c2 \/ (c1 = c2 /\ slt t1 t2))))).

Definition key_le (k1 k2 : string * Z * Z * string) : Prop :=
  key_lt k1 k2 \/ k1 = k2.

Lemma slt_irrefl a : ~ slt a a.
Proof.
  unfold slt. intros H.
  assert (String.compare a a = Eq) by (apply String_as_OT.cmp_eq; reflexivity).
  congruence.
Qed.

Lemma slt_trans a b c : slt a b -> slt b c -> slt a c.
Proof.
  unfold slt. intros Hab Hbc.
  apply String_as_OT.cmp_lt in Hab, Hbc. apply String_as_OT.cmp_lt.
  eapply String_as_OT.lt_trans; eauto.
Qed.

Lemma slt_total a b : slt a b \/ a = b \/ slt b a.
Proof.
  unfold slt. destruct (String.compare a b) eqn:H.
  - right; left. apply String_as_OT.cmp_eq. exact H.
  - left; reflexivity.
  - right; right. rewrite String.compare_antisym, H. reflexivity.
Qed.

Lemma string_ltb_slt a b : string_ltb a b = true <-> slt a b.
Proof.
  unfold string_ltb, slt. destruct (String.compare a b); split; congruence.
Qed.

Lemma byName_Less_key a b :
  byName_Less a b = true <-> key_lt (key a) (key b).
Proof.
  unfold byName_Less, key, key_lt.
  destruct (String.eqb_spec (token.Filename (Pos a)) (token.Filename (Pos b)))
    as [Hf|Hf]; cbn [negb].
  - rewrite Hf.
    destruct (Z.eqb_spec (token.Line (Pos a)) (token.Line (Pos b)))
      as [Hl|Hl]; cbn [negb].
    + rewrite Hl.
      destruct (Z.eqb_spec (token.Column (Pos a)) (token.Column (Pos b)))
        as [Hc|Hc]; cbn [negb].
      * rewrite Hc, string_ltb_slt. split; [auto 10|].
        intros [H|(_ & [H|(_ & [H|(_ & H)])])]; auto;
          [apply slt_irrefl in H; contradiction | lia | lia].
      * rewrite Z.ltb_lt. split; [auto 10|].
        intros [H|(_ & [H|(_ & [H|(H & _)])])]; auto;
          [apply slt_irrefl in H; contradiction | lia | contradiction].
    + rewrite Z.ltb_lt. split; [auto|].
      intros [H|(_ & [H|(H & _)])]; auto;
        [apply slt_irrefl in H; contradiction | contradiction].
  - rewrite string_ltb_slt. split; [auto|].
    intros [H|(H & _)]; [auto | contradiction].
Qed.

Lemma key_lt_irrefl k : ~ key_lt k k.
Proof.
  destruct k as [[[f l] c] t]. cbn.
  intros [H|(_ & [H|(_ & [H|(_ & H)])])];
    try (apply slt_irrefl in H; contradiction); lia.
Qed.

Lemma key_lt_trans k1 k2 k3 : key_lt k1 k2 -> key_lt k2 k3 -> key_lt k1 k3.
Proof.
  destruct k1 as [[[f1 l1] c1] t1], k2 as [[[f2 l2] c2] t2],
    k3 as [[[f3 l3] c3] t3]. cbn.
  intros [H|(-> & [H|(-> & [H|(-> & H)])])]
         [H'|(-> & [H'|(-> & [H'|(-> & H')])])];
    eauto 10 using slt_trans; right; split; auto;
    try (left; lia); right; split; auto; left; lia.
Qed.

Lemma key_lt_total k1 k2 : key_lt k1 k2 \/ k1 = k2 \/ key_lt k2 k1.
Proof.
  destruct k1 as [[[f1 l1] c1] t1], k2 as [[[f2 l2] c2] t2]. cbn.
  destruct (slt_total f1 f2) as [H|[->|H]]; auto.
  destruct (Z.lt_total l1 l2) as [H|[->|H]]; auto 6.
  destruct (Z.lt_total c1 c2) as [H|[->|H]]; auto 8.
  destruct (slt_total t1 t2) as [H|[->|H]]; auto 10.
Qed.

(** [notGreater a b]: [a] may stand before [b] in a sorted slice. *)
Definition notGreater (a b : UnusedGetterError) : Prop :=
  byName_Less b a = false.

Lemma notGreater_key_le a b : notGreater a b <-> key_le (key a) (key b).
Proof.
  unfold notGreater, key_le. split.
  - intros H. destruct (key_lt_total (key a) (key b)) as [?|[?|Hlt]]; auto.
    apply byName_Less_key in Hlt. congruence.
  - intros [Hlt|Heq].
    + destruct (byName_Less b a) eqn:H; [|reflexivity].
      apply byName_Less_key in H.
      destruct (key_lt_irrefl _ (key_lt_trans _ _ _ Hlt H)).
    + destruct (byName_Less b a) eqn:H; [|reflexivity].
      apply byName_Less_key in H. rewrite Heq in H.
      destruct (key_lt_irrefl _ H).
Qed.

Lemma key_le_trans k1 k2 k3 : key_le k1 k2 -> key_le k2 k3 -> key_le k1 k3.
Proof.
  intros [H | ->] [H' | ->]; unfold key_le; eauto using key_lt_trans.
Qed.

Lemma byName_Less_asym a b : byName_Less a b = true -> byName_Less b a = false.
Proof.
  intros H. apply notGreater_key_le. left. apply byName_Less_key. exact H.
Qed.

(** ** Equality of the records *)

Lemma Position_eqb_eq a b : Position_eqb a b = true <-> a = b.
Proof.
  unfold Position_eqb. destruct a, b; cbn.
  rewrite !andb_true_iff, String.eqb_eq, !Z.eqb_eq.
  split; [intros [[[-> ->] ->] ->]; reflexivity | intros H; simplify_eq; auto].
Qed.

Lemma UnusedGetterError_eqb_eq a b :
  UnusedGetterError_eqb a b = true <-> a = b.
Proof.
  unfold UnusedGetterError_eqb. destruct a, b; cbn.
  rewrite !andb_true_iff, !Position_eqb_eq, !String.eqb_eq.
  split; [intros [[[-> ->] ->] ->]; reflexivity | intros H; simplify_eq; auto].
Qed.

Lemma UnusedGetterError_eqb_refl a : UnusedGetterError_eqb a a = true.
Proof. apply UnusedGetterError_eqb_eq. reflexivity. Qed.

(** ** The compaction loop *)

(** What the loop of [Unique] computes: every element that differs from
    the one before it. *)
Fixpoint compactFrom (prev : UnusedGetterError)
    (l : list UnusedGetterError) : list UnusedGetterError :=
  match l with
  | [] => []
  | e :: r =>
      if UnusedGetterError_eqb e prev then compactFrom e r
      else e :: compactFrom e r
  end.

Definition compact (l : list UnusedGetterError) : list UnusedGetterError :=
  match l with
  | [] => []
  | e :: r => e :: compactFrom e r
  end.

Lemma last_cons (x : UnusedGetterError) l d :
  List.last (x :: l) d = List.last l x.
Proof.
  revert x d. induction l as [|y l IH]; intros x d; [reflexivity|].
  change (List.last (x :: y :: l) d) with (List.last (y :: l) d).
  rewrite (IH y d), (IH y x). reflexivity.
Qed.

Lemma compactFrom_snoc prev l e :
  compactFrom prev (l ++ [e])
  = (compactFrom prev l
     ++ (if UnusedGetterError_eqb e (List.last l prev) then [] else [e]))%list.
Proof.
  revert prev. induction l as [|x l IH]; intros prev; cbn [compactFrom app].
  - cbn. destruct (UnusedGetterError_eqb e prev); reflexivity.
  - rewrite IH, last_cons.
    destruct (UnusedGetterError_eqb x prev); reflexivity.
Qed.

Lemma compact_snoc l e :
  compact (l ++ [e])
  = match l with
    | [] => [e]
    | x :: l' =>
        (compact l
         ++ (if UnusedGetterError_eqb e (List.last l' x) then [] else [e]))%list
    end.
Proof.
  destruct l as [|x l]; [reflexivity|].
  cbn [compact app]. rewrite compactFrom_snoc. reflexivity.
Qed.

Lemma compactFrom_last prev l :
  List.last (compactFrom prev l) prev = List.last l prev.
Proof.
  revert prev. induction l as [|x l IH]; intros prev; [reflexivity|].
  cbn [compactFrom]. rewrite last_cons.
  destruct (UnusedGetterError_eqb x prev) eqn:Hx.
  - apply UnusedGetterError_eqb_eq in Hx. subst x. apply IH.
  - rewrite last_cons. apply IH.
Qed.

Lemma compact_last l d : List.last (compact l) d = List.last l d.
Proof.
  destruct l as [|x l]; [reflexivity|].
  unfold compact. rewrite !last_cons. apply compactFrom_last.
Qed.

Lemma compactFrom_length prev l :
  (length (compactFrom prev l) <= length l)%nat.
Proof.
  revert prev. induction l as [|x l IH]; intros prev; cbn; [lia|].
  destruct (UnusedGetterError_eqb x prev); cbn; specialize (IH x); lia.
Qed.

(** The state of the loop after the iterations [0 .. i-1] over the sorted
    slice [l]: the array holds the compaction of the first [i] elements in
    its first [k] places, and is as it was from place [k] on. *)
Record loopInv (l : list UnusedGetterError) (i : nat)
    (st : list UnusedGetterError * nat) : Prop := mkLoopInv {
  inv_length : length st.1 = length l;
  inv_bound : (st.2 <= i)%nat;
  inv_rest : forall j, (st.2 <= j)%nat -> st.1 !! j = l !! j;
  inv_done : take st.2 st.1 = compact (take i l)
}.

Lemma last_lookup (l : list UnusedGetterError) d :
  l <> [] -> l !! (length l - 1)%nat = Some (List.last l d).
Proof.
  induction l as [|x l IH]; [contradiction|]. intros _.
  destruct l as [|y l]; [reflexivity|].
  cbn [length]. replace (S (S (length l)) - 1)%nat with (S (length l)) by lia.
  cbn [lookup list_lookup]. change (List.last (x :: y :: l) d)
    with (List.last (y :: l) d).
  rewrite <- IH by discriminate. cbn [length].
  replace (S (length l) - 1)%nat with (length l) by lia. reflexivity.
Qed.

Lemma loopInv_prev l i arr k x :
  loopInv l (S i) (arr, k) -> l !! i = Some x -> arr !! i = Some x.
Proof.
  intros [Hlen Hk Hrest Hdone] Hx; cbn in *.
  destruct (decide (k <= i)%nat) as [Hle|Hgt].
  - rewrite Hrest; auto.
  - assert (k = S i) as -> by lia.
    assert (Hi : (i < length l)%nat) by (eapply lookup_lt_Some; eauto).
    assert (Htake : take (S i) l = (take i l ++ [x])%list)
      by (erewrite take_S_r; eauto).
    assert (Hlk : take (S i) arr !! i = Some x).
    { rewrite Hdone.
      assert (Hcl : length (compact (take (S i) l)) = S i).
      { rewrite <- Hdone, length_take. lia. }
      pose proof (last_lookup (compact (take (S i) l)) x) as Hlast.
      rewrite Hcl in Hlast. replace (S i - 1)%nat with i in Hlast by lia.
      rewrite Hlast by (intros Hnil; rewrite Hnil in Hcl; discriminate).
      rewrite compact_last, Htake, last_last. reflexivity. }
    rewrite lookup_take_lt in Hlk by lia. exact Hlk.
Qed.

Lemma loopInv_step l i st :
  (i < length l)%nat -> loopInv l i st -> loopInv l (S i) (compactStep st i).
Proof.
  intros Hi Hinv. destruct st as [arr k].
  pose proof Hinv as [Hlen Hk Hrest Hdone]; cbn in *.
  destruct (lookup_lt_is_Some_2 l i Hi) as [err Herr].
  assert (Harr : arr !! i = Some err) by (rewrite Hrest; auto).
  assert (Htake : take (S i) l = (take i l ++ [err])%list)
    by (erewrite take_S_r; eauto).
  unfold compactStep. rewrite Harr.
  destruct i as [|j].
  - (* the first element is kept *)
    assert (k = O) as -> by lia.
    constructor; cbn.
    + rewrite length_insert. exact Hlen.
    + lia.
    + intros j Hj. rewrite list_lookup_insert_ne by lia. apply Hrest. lia.
    + destruct arr as [|a arr]; [discriminate|]. cbn in Harr. simplify_eq.
      cbn in Htake. rewrite Htake. reflexivity.
  - destruct (lookup_lt_is_Some_2 l j ltac:(lia)) as [prev Hprev].
    rewrite (loopInv_prev l j arr k prev Hinv Hprev).
    assert (Hlast : List.last (take (S j) l) prev = prev).
    { erewrite take_S_r by eauto. apply last_last. }
    assert (Hcompact :
      compact (take (S (S j)) l)
      = (compact (take (S j) l)
         ++ (if UnusedGetterError_eqb err prev then [] else [err]))%list).
    { rewrite Htake, compact_snoc.
      destruct (take (S j) l) as [|x0 t] eqn:Ht.
      - assert (Hlen' : length (take (S j) l) = S j)
          by (rewrite length_take; lia).
        rewrite Ht in Hlen'. discriminate.
      - rewrite <- (last_cons x0 t x0), <- Ht.
        erewrite (take_S_r l j) by eauto. rewrite last_last. reflexivity. }
    destruct (UnusedGetterError_eqb err prev) eqn:Heq; cbn [negb].
    + constructor; cbn; auto.
      rewrite Hcompact, app_nil_r. exact Hdone.
    + constructor; cbn.
      * rewrite length_insert. exact Hlen.
      * lia.
      * intros j' Hj'. rewrite list_lookup_insert_ne by lia. apply Hrest. lia.
      * rewrite Hcompact, <- Hdone.
        assert (Hk' : (k < length arr)%nat) by lia.
        erewrite take_S_r by (apply list_lookup_insert_eq; exact Hk').
        rewrite take_insert_ge by lia. reflexivity.
Qed.

Lemma compactLoop_inv l n st :
  (n <= length l)%nat ->
  loopInv l O st ->
  loopInv l n (fold_left compactStep (seq 0 n) st).
Proof.
  intros Hn H0. induction n as [|n IH]; [exact H0|].
  rewrite seq_S, fold_left_app. cbn [fold_left plus].
  apply loopInv_step; [lia|]. apply IH. lia.
Qed.

(** The loop computes [compact]: writing into the array that is being read
    never overwrites an element before it is compared. *)
Lemma compactLoop_compact l :
  take (compactLoop l).2 (compactLoop l).1 = compact l.
Proof.
  unfold compactLoop.
  assert (H0 : loopInv l O (l, O)) by (constructor; cbn; auto).
  destruct (compactLoop_inv l (length l) (l, O) (le_n _) H0)
    as [_ _ _ Hdone].
  rewrite Hdone, firstn_all. reflexivity.
Qed.

Lemma Result_Unique_compact ext r :
  UnusedGetterErrors (Result_Unique ext r)
  = compact (sort_Sort ext (UnusedGetterErrors r)).
Proof.
  unfold Result_Unique.
  pose proof (compactLoop_compact (sort_Sort ext (UnusedGetterErrors r))) as H.
  destruct (compactLoop _) as [arr k]. exact H.
Qed.

Lemma compactFrom_sorted (Rel : UnusedGetterError -> UnusedGetterError -> Prop)
    prev l :
  Sorted Rel (prev :: l) ->
  Sorted (fun a b => Rel a b /\ a <> b) (prev :: compactFrom prev l).
Proof.
  revert prev. induction l as [|e r IH]; intros prev Hs.
  - repeat constructor.
  - apply Sorted_inv in Hs as [Hs Hhd]. apply HdRel_inv in Hhd.
    cbn [compactFrom].
    destruct (UnusedGetterError_eqb e prev) eqn:He.
    + apply UnusedGetterError_eqb_eq in He. subst e. apply IH. exact Hs.
    + constructor; [apply IH; exact Hs|]. constructor. split; [exact Hhd|].
      intros ->. rewrite UnusedGetterError_eqb_refl in He. discriminate.
Qed.

Lemma compact_sorted (Rel : UnusedGetterError -> UnusedGetterError -> Prop) l :
  Sorted Rel l -> Sorted (fun a b => Rel a b /\ a <> b) (compact l).
Proof.
  destruct l as [|x l]; [constructor|]. apply compactFrom_sorted.
Qed.

Lemma Sorted_impl {A} (R1 R2 : A -> A -> Prop) (l : list A) :
  (forall a b, R1 a b -> R2 a b) -> Sorted R1 l -> Sorted R2 l.
Proof.
  intros Himp Hs. induction Hs as [|a l Hs IH Hhd]; constructor; auto.
  destruct Hhd; constructor; auto.
Qed.

Lemma Sorted_True {A} (l : list A) : Sorted (fun _ _ => True) l.
Proof.
  induction l as [|a l IH]; constructor; auto. destruct l; constructor; auto.
Qed.

Lemma compactFrom_fixed prev l :
  Sorted (fun a b => a <> b) (prev :: l) -> compactFrom prev l = l.
Proof.
  revert prev. induction l as [|e r IH]; intros prev Hs; [reflexivity|].
  apply Sorted_inv in Hs as [Hs Hhd]. apply HdRel_inv in Hhd.
  cbn [compactFrom]. destruct (UnusedGetterError_eqb e prev) eqn:He.
  - apply UnusedGetterError_eqb_eq in He. congruence.
  - rewrite IH; auto.
Qed.

Lemma compact_fixed l : Sorted (fun a b => a <> b) l -> compact l = l.
Proof.
  destruct l as [|x l]; [reflexivity|]. intros Hs. unfold compact.
  rewrite compactFrom_fixed; auto.
Qed.

Lemma compact_distinct l : Sorted (fun a b => a <> b) (compact l).
Proof.
  eapply Sorted_impl; [|apply (compact_sorted (fun _ _ => True)), Sorted_True].
  intros a b [_ H]; exact H.
Qed.

Lemma compact_idempotent l : compact (compact l) = compact l.
Proof. apply compact_fixed, compact_distinct. Qed.

Lemma compactFrom_In prev l e :
  In e (prev :: compactFrom prev l) <-> In e (prev :: l).
Proof.
  revert prev. induction l as [|x r IH]; intros prev; [reflexivity|].
  cbn [compactFrom]. destruct (UnusedGetterError_eqb x prev) eqn:Hx.
  - apply UnusedGetterError_eqb_eq in Hx. subst x. rewrite IH. cbn. tauto.
  - specialize (IH x). cbn in *. tauto.
Qed.

Lemma compact_In l e : In e (compact l) <-> In e l.
Proof. destruct l as [|x l]; [reflexivity|]. apply compactFrom_In. Qed.

(** ** The sort of the test suite's externals *)

Lemma insert_perm e l : Permutation (e :: l) (testdata.insert e l).
Proof.
  induction l as [|x r IH]; cbn; [reflexivity|].
  destruct (byName_Less x e); [|reflexivity].
  rewrite perm_swap. constructor. exact IH.
Qed.

Lemma insertionSort_perm l : Permutation l (testdata.insertionSort l).
Proof.
  induction l as [|e r IH]; cbn; [constructor|].
  rewrite <- insert_perm. constructor. exact IH.
Qed.

Lemma insert_sorted e l :
  Sorted notGreater l -> Sorted notGreater (testdata.insert e l).
Proof.
  induction l as [|x r IH]; intros Hs; cbn.
  - repeat constructor.
  - apply Sorted_inv in Hs as [Hs Hhd].
    destruct (byName_Less x e) eqn:Hx.
    + constructor; [apply IH; exact Hs|].
      destruct r as [|y r]; cbn.
      * constructor. apply byName_Less_asym. exact Hx.
      * apply HdRel_inv in Hhd. destruct (byName_Less y e); constructor.
        -- exact Hhd.
        -- apply byName_Less_asym. exact Hx.
    + constructor; [constructor; assumption|]. constructor. exact Hx.
Qed.

Lemma insertionSort_sorted l : Sorted notGreater (testdata.insertionSort l).
Proof.
  induction l as [|e r IH]; cbn; [constructor|]. apply insert_sorted, IH.
Qed.

Lemma insertionSort_fixed l :
  Sorted notGreater l -> testdata.insertionSort l = l.
Proof.
  induction l as [|e r IH]; intros Hs; [reflexivity|].
  apply Sorted_inv in Hs as [Hs Hhd]. cbn. rewrite IH by exact Hs.
  destruct r as [|x r]; [reflexivity|]. apply HdRel_inv in Hhd.
  cbn. unfold notGreater in Hhd. rewrite Hhd. reflexivity.
Qed.

(** ** The deduplicator *)

Lemma Result_Unique_eq ext r :
  Result_Unique ext r
  = mkResult (compact (sort_Sort ext (UnusedGetterErrors r))).
Proof.
  rewrite <- Result_Unique_compact. destruct (Result_Unique ext r).
  reflexivity.
Qed.

Lemma Unique_sorted ext r :
  (forall l, Sorted notGreater (sort_Sort ext l)) ->
  Sorted notGreater (UnusedGetterErrors (Result_Unique ext r)).
Proof.
  intros Hsorted. rewrite Result_Unique_compact.
  eapply Sorted_impl; [|apply compact_sorted, Hsorted].
  intros a b [H _]; exact H.
Qed.

(** C3. [Unique] is idempotent, for a [sort.Sort] that sorts and that
    leaves a sorted slice as it is. *)
Theorem C3_Unique_idempotent :
  forall ext r,
    (forall l, Sorted notGreater (sort_Sort ext l)) ->
    (forall l, Sorted notGreater l -> sort_Sort ext l = l) ->
    Result_Unique ext (Result_Unique ext r) = Result_Unique ext r.
Proof.
  intros ext r Hsorted Hfixed.
  rewrite (Result_Unique_eq ext (Result_Unique ext r)).
  rewrite Hfixed by (apply Unique_sorted, Hsorted).
  rewrite !Result_Unique_eq. cbn. rewrite compact_idempotent. reflexivity.
Qed.

(** Two reports of one place in two packages, and one of another. *)
Definition dup1 : UnusedGetterError :=
  mkError (token.mkPosition testdata.mainFile 1019 10 19)
    (token.mkPosition testdata.generatedFile 2017 20 17)
    "_, _ = a.Name, a.Name" "GetName()".
Definition dup2 : UnusedGetterError :=
  mkError (token.mkPosition testdata.mainFile 1011 10 11)
    (token.mkPosition testdata.generatedFile 2017 20 17)
    "_, _ = a.Name, a.Name" "GetName()".

Lemma C3_witness :
  Result_Unique testdata.ext
    (Result_Unique testdata.ext (mkResult [dup1; dup2; dup1]))
  = Result_Unique testdata.ext (mkResult [dup1; dup2; dup1]).
Proof.
  apply C3_Unique_idempotent.
  - apply insertionSort_sorted.
  - apply insertionSort_fixed.
Defined.

(** No two violations of the list have the same key. *)
Definition no_shared_key (u : list UnusedGetterError) : Prop :=
  forall i j a b,
    u !! i = Some a -> u !! j = Some b -> i <> j -> key a <> key b.

Lemma Sorted_impl_In {A} (R1 R2 : A -> A -> Prop) (l : list A) :
  (forall a b, In a l -> In b l -> R1 a b -> R2 a b) ->
  Sorted R1 l -> Sorted R2 l.
Proof.
  intros Himp Hs. induction Hs as [|a l Hs IH Hhd]; constructor.
  - apply IH. intros x y Hx Hy. apply Himp; right; assumption.
  - destruct Hhd as [|b l' Hab]; constructor.
    apply Himp; [left; reflexivity | right; left; reflexivity | exact Hab].
Qed.

Lemma StronglySorted_lookup {A} (R : A -> A -> Prop) (l : list A) i j a b :
  StronglySorted R l -> (i < j)%nat ->
  l !! i = Some a -> l !! j = Some b -> R a b.
Proof.
  intros Hs. revert i j.
  induction Hs as [|x l Hs IH Hall]; intros i j Hij Hi Hj; [discriminate|].
  destruct j as [|j]; [exfalso; lia|]. cbn in Hj. destruct i as [|i].
  - cbn in Hi. simplify_eq. rewrite List.Forall_forall in Hall.
    apply Hall. apply list_elem_of_In. eapply list_elem_of_lookup_2; eauto.
  - cbn in Hi. apply (IH i j); [lia | exact Hi | exact Hj].
Qed.

Lemma strictly_sorted_no_shared_key u :
  Sorted (fun a b => key_lt (key a) (key b)) u -> no_shared_key u.
Proof.
  intros Hs. apply Sorted_StronglySorted in Hs;
    [|intros a b c; apply key_lt_trans].
  intros i j a b Hi Hj Hne Hkey.
  destruct (Nat.lt_total i j) as [Hlt|[Heq|Hgt]]; [|contradiction|].
  - pose proof (StronglySorted_lookup _ _ _ _ _ _ Hs Hlt Hi Hj) as H.
    cbn beta in H. rewrite Hkey in H. exact (key_lt_irrefl _ H).
  - pose proof (StronglySorted_lookup _ _ _ _ _ _ Hs Hgt Hj Hi) as H.
    cbn beta in H. rewrite Hkey in H. exact (key_lt_irrefl _ H).
Qed.

Lemma Unique_In ext r e :
  (forall l, Permutation l (sort_Sort ext l)) ->
  In e (UnusedGetterErrors (Result_Unique ext r))
  <-> In e (UnusedGetterErrors r).
Proof.
  intros Hperm. rewrite Result_Unique_compact, compact_In. split.
  - apply Permutation_in. symmetry. apply Hperm.
  - apply Permutation_in. apply Hperm.
Qed.

(** C4, as the code has it.  For a [sort.Sort] that returns its input
    sorted, the result of [Unique] is sorted by the key (file, line,
    column, source line), has the violations of its input, and has no
    violation next to an equal one; when the violations of the input that
    have the same key are equal in every field, no two violations of the
    result have the same key. *)
Theorem C4_Unique_sorted_and_compacted :
  forall ext r,
    (forall l, Permutation l (sort_Sort ext l)) ->
    (forall l, Sorted notGreater (sort_Sort ext l)) ->
    StronglySorted (fun a b => key_le (key a) (key b))
      (UnusedGetterErrors (Result_Unique ext r))
    /\ (forall e, In e (UnusedGetterErrors (Result_Unique ext r))
                  <-> In e (UnusedGetterErrors r))
    /\ Sorted (fun a b => a <> b) (UnusedGetterErrors (Result_Unique ext r))
    /\ ((forall a b,
            In a (UnusedGetterErrors r) -> In b (UnusedGetterErrors r) ->
            key a = key b -> a = b) ->
        no_shared_key (UnusedGetterErrors (Result_Unique ext r))).
Proof.
  intros ext r Hperm Hsorted. split; [|split; [|split]].
  - apply Sorted_StronglySorted.
    + intros a b c. apply key_le_trans.
    + eapply Sorted_impl; [|apply Unique_sorted, Hsorted].
      intros a b. apply notGreater_key_le.
  - intros e. apply Unique_In, Hperm.
  - rewrite Result_Unique_compact. apply compact_distinct.
  - intros Hinj. apply strictly_sorted_no_shared_key.
    pose proof (compact_sorted notGreater _
                  (Hsorted (UnusedGetterErrors r))) as Hs.
    rewrite <- Result_Unique_compact in Hs.
    eapply Sorted_impl_In; [|exact Hs]. cbn.
    intros a b Ha Hb [Hle Hne].
    apply notGreater_key_le in Hle. destruct Hle as [Hlt|Heq]; [exact Hlt|].
    destruct Hne. apply Hinj; [| |exact Heq]; eapply Unique_In; eauto.
Qed.

Lemma C4_witness :
  StronglySorted (fun a b => key_le (key a) (key b))
    (UnusedGetterErrors
       (Result_Unique testdata.ext (mkResult [dup1; dup2; dup1])))
  /\ (forall e,
        In e (UnusedGetterErrors
                (Result_Unique testdata.ext (mkResult [dup1; dup2; dup1])))
        <-> In e [dup1; dup2; dup1])
  /\ Sorted (fun a b => a <> b)
       (UnusedGetterErrors
          (Result_Unique testdata.ext (mkResult [dup1; dup2; dup1])))
  /\ ((forall a b,
          In a [dup1; dup2; dup1] -> In b [dup1; dup2; dup1] ->
          key a = key b -> a = b) ->
      no_shared_key
        (UnusedGetterErrors
           (Result_Unique testdata.ext (mkResult [dup1; dup2; dup1])))).
Proof.
  apply (C4_Unique_sorted_and_compacted testdata.ext
           (mkResult [dup1; dup2; dup1])).
  - apply insertionSort_perm.
  - apply insertionSort_sorted.
Defined.

(** Two violations at one place that differ in the getter they name. *)
Definition twin1 : UnusedGetterError :=
  mkError (token.mkPosition testdata.mainFile 1011 10 11)
    (token.mkPosition testdata.generatedFile 2017 20 17)
    "_, _ = a.Name, a.Name" "GetName()".
Definition twin2 : UnusedGetterError :=
  mkError (token.mkPosition testdata.mainFile 1011 10 11)
    (token.mkPosition testdata.generatedFile 4018 40 18)
    "_, _ = a.Name, a.Name" "GetChild()".

(** Both are kept by [Unique], though they have the same key. *)
Lemma C4_counterexample :
  UnusedGetterErrors (Result_Unique testdata.ext (mkResult [twin1; twin2]))
  = [twin1; twin2]
  /\ key twin1 = key twin2
  /\ ~ no_shared_key
       (UnusedGetterErrors
          (Result_Unique testdata.ext (mkResult [twin1; twin2]))).
Proof.
  assert (Hu : UnusedGetterErrors
                 (Result_Unique testdata.ext (mkResult [twin1; twin2]))
               = [twin1; twin2]) by (vm_compute; reflexivity).
  split; [exact Hu|]. split; [reflexivity|]. rewrite Hu.
  intros H. apply (H 0%nat 1%nat twin1 twin2); auto.
Qed.

(** * Further properties of the code *)

(** ** errcheck.go: [byName.Less], [Result.Unique], [Result.Append] *)

(** X1. [byName.Less] is a strict weak order, as [sort.Sort] requires of
    it: it is irreflexive, asymmetric and transitive, and two violations
    neither of which is less than the other are those with the same file,
    line, column and source line. *)
Theorem byName_Less_strict_weak_order :
  (forall a, byName_Less a a = false)
  /\ (forall a b, byName_Less a b = true -> byName_Less b a = false)
  /\ (forall a b c,
        byName_Less a b = true -> byName_Less b c = true ->
        byName_Less a c = true)
  /\ (forall a b,
        byName_Less a b = false /\ byName_Less b a = false
        <-> key a = key b).
Proof.
  split; [|split; [|split]].
  - intros a. destruct (byName_Less a a) eqn:H; [|reflexivity].
    apply byName_Less_key in H. destruct (key_lt_irrefl _ H).
  - apply byName_Less_asym.
  - intros a b c Hab Hbc. apply byName_Less_key.
    apply byName_Less_key in Hab, Hbc. eapply key_lt_trans; eauto.
  - intros a b. split.
    + intros [Hab Hba].
      destruct (key_lt_total (key a) (key b)) as [H|[H|H]]; [|exact H|];
        apply byName_Less_key in H; congruence.
    + intros Heq. split.
      * destruct (byName_Less a b) eqn:H; [|reflexivity].
        apply byName_Less_key in H. rewrite Heq in H.
        destruct (key_lt_irrefl _ H).
      * destruct (byName_Less b a) eqn:H; [|reflexivity].
        apply byName_Less_key in H. rewrite Heq in H.
        destruct (key_lt_irrefl _ H).
Qed.

(** X2. The loop of [Unique] compacts in place, appending to a slice that
    shares the array it is reading; it still keeps exactly the elements of
    the sorted slice that differ from the element before them, in their
    order: no element is overwritten before it has been read and
    compared.  The result is never longer than the input. *)
Theorem Unique_compacts_the_sorted_slice :
  forall ext r,
    UnusedGetterErrors (Result_Unique ext r)
    = compact (sort_Sort ext (UnusedGetterErrors r))
    /\ (length (UnusedGetterErrors (Result_Unique ext r))
        <= length (sort_Sort ext (UnusedGetterErrors r)))%nat.
Proof.
  intros ext r. rewrite Result_Unique_compact. split; [reflexivity|].
  destruct (sort_Sort ext (UnusedGetterErrors r)) as [|x l]; [cbn; lia|].
  unfold compact. cbn [length]. pose proof (compactFrom_length x l). lia.
Qed.

(** X3. For a [sort.Sort] that permutes its input, [Unique] loses no
    violation and invents none: a violation is in the result exactly when
    it is in the receiver; and appending two results and taking [Unique]
    gives the violations of both. *)
Theorem Unique_keeps_the_violations :
  forall ext r other,
    (forall l, Permutation l (sort_Sort ext l)) ->
    (forall e,
        In e (UnusedGetterErrors (Result_Unique ext r))
        <-> In e (UnusedGetterErrors r))
    /\ (forall e,
        In e (UnusedGetterErrors (Result_Unique ext (Result_Append r other)))
        <-> In e (UnusedGetterErrors r) \/ In e (UnusedGetterErrors other)).
Proof.
  intros ext r other Hperm. split; intros e.
  - apply Unique_In, Hperm.
  - rewrite Unique_In by exact Hperm. cbn. apply in_app_iff.
Qed.

Lemma Unique_keeps_the_violations_witness :
  (forall e,
      In e (UnusedGetterErrors
              (Result_Unique testdata.ext (mkResult [dup1; dup2; dup1])))
      <-> In e [dup1; dup2; dup1])
  /\ (forall e,
      In e (UnusedGetterErrors
              (Result_Unique testdata.ext
                 (Result_Append (mkResult [dup1; dup2; dup1])
                    (mkResult [twin2]))))
      <-> In e [dup1; dup2; dup1] \/ In e [twin2]).
Proof.
  apply (Unique_keeps_the_violations testdata.ext
           (mkResult [dup1; dup2; dup1]) (mkResult [twin2])).
  apply insertionSort_perm.
Defined.

(** X4. For a [sort.Sort] that returns its input sorted by [Less], the
    result of [Unique] is in ascending order of the key (file, line,
    column, source line) and no violation stands next to one equal to it
    in every field. *)
Theorem Unique_result_sorted_without_adjacent_duplicates :
  forall ext r,
    (forall l, Sorted notGreater (sort_Sort ext l)) ->
    StronglySorted (fun a b => key_le (key a) (key b))
      (UnusedGetterErrors (Result_Unique ext r))
    /\ Sorted (fun a b => key_le (key a) (key b) /\ a <> b)
         (UnusedGetterErrors (Result_Unique ext r)).
Proof.
  intros ext r Hsorted. split.
  - apply Sorted_StronglySorted.
    + intros a b c. apply key_le_trans.
    + eapply Sorted_impl; [|apply Unique_sorted, Hsorted].
      intros a b. apply notGreater_key_le.
  - rewrite Result_Unique_compact.
    eapply Sorted_impl; [|apply compact_sorted, Hsorted]. cbn.
    intros a b [Hle Hne]. split; [apply notGreater_key_le, Hle | exact Hne].
Qed.

Lemma Unique_result_sorted_witness :
  StronglySorted (fun a b => key_le (key a) (key b))
    (UnusedGetterErrors
       (Result_Unique testdata.ext (mkResult [dup1; twin2; dup2; dup1])))
  /\ Sorted (fun a b => key_le (key a) (key b) /\ a <> b)
       (UnusedGetterErrors
          (Result_Unique testdata.ext (mkResult [dup1; twin2; dup2; dup1]))).
Proof.
  apply (Unique_result_sorted_without_adjacent_duplicates testdata.ext
           (mkResult [dup1; twin2; dup2; dup1])).
  apply insertionSort_sorted.
Defined.

(** X5. For a [sort.Sort] that sorts and leaves a sorted slice as it is,
    [Unique] returns unchanged a result that is sorted and has no
    violation next to an equal one, and so applying it twice is applying
    it once. *)
Theorem Unique_fixes_what_it_returns :
  forall ext r,
    (forall l, Sorted notGreater (sort_Sort ext l)) ->
    (forall l, Sorted notGreater l -> sort_Sort ext l = l) ->
    (Sorted notGreater (UnusedGetterErrors r) ->
     Sorted (fun a b => a <> b) (UnusedGetterErrors r) ->
     Result_Unique ext r = r)
    /\ Result_Unique ext (Result_Unique ext r) = Result_Unique ext r.
Proof.
  intros ext r Hsorted Hfixed.
  assert (Hfix : forall r0,
             Sorted notGreater (UnusedGetterErrors r0) ->
             Sorted (fun a b => a <> b) (UnusedGetterErrors r0) ->
             Result_Unique ext r0 = r0).
  { intros [l] Hs Hd. cbn in *.
    rewrite Result_Unique_eq. cbn. rewrite Hfixed by exact Hs.
    rewrite compact_fixed by exact Hd. reflexivity. }
  split; [apply Hfix|]. apply Hfix.
  - apply Unique_sorted, Hsorted.
  - rewrite Result_Unique_compact. apply compact_distinct.
Qed.

Lemma Unique_fixes_what_it_returns_witness :
  (Sorted notGreater [dup2; dup1] ->
   Sorted (fun a b => a <> b) [dup2; dup1] ->
   Result_Unique testdata.ext (mkResult [dup2; dup1]) = mkResult [dup2; dup1])
  /\ Result_Unique testdata.ext
       (Result_Unique testdata.ext (mkResult [dup2; dup1]))
     = Result_Unique testdata.ext (mkResult [dup2; dup1]).
Proof.
  apply (Unique_fixes_what_it_returns testdata.ext (mkResult [dup2; dup1])).
  - apply insertionSort_sorted.
  - apply insertionSort_fixed.
Defined.

(** ** gettercheck_visitor.go: [FindMethod] *)

(** The type under every pointer. *)
Fixpoint underPointers (t : types.Type_) : types.Type_ :=
  match t with
  | types.Pointer elem => underPointers elem
  | _ => t
  end.

(** The method set of a named type, none for another type. *)
Definition declaredMethods (t : types.Type_) : list types.Func :=
  match t with
  | types.Named _ _ _ methods => methods
  | _ => []
  end.

Lemma FindMethod_loop_find methods methodName :
  FindMethod_loop methods methodName
  = find (fun m => String.eqb (types.Func_Name m) methodName) methods.
Proof.
  induction methods as [|m ms IH]; cbn; [reflexivity|].
  destruct (String.eqb _ _); [reflexivity | exact IH].
Qed.

Lemma FindMethod_underPointers t methodName :
  FindMethod t methodName
  = FindMethod_loop (declaredMethods (underPointers t)) methodName.
Proof.
  induction t; cbn; auto.
Qed.

Lemma find_first {A} (f : A -> bool) (l : list A) (x : A) :
  find f l = Some x ->
  exists l1 l2, l = (l1 ++ x :: l2)%list /\ f x = true
                /\ Forall (fun y => f y = false) l1.
Proof.
  induction l as [|a l IH]; cbn; [discriminate|].
  destruct (f a) eqn:Hfa.
  - intros [= ->]. exists [], l. auto.
  - intros H. destruct (IH H) as (l1 & l2 & -> & Hx & Hall).
    exists (a :: l1), l2. auto.
Qed.

(** X6. [FindMethod] looks under every pointer, however many; on a named
    type it returns the first declared method whose name is the given
    one, and none when no declared method has that name; on a type that
    is not named under its pointers it returns none. *)
Theorem FindMethod_first_declared_method_of_the_name :
  forall t methodName,
    (forall m,
        FindMethod t methodName = Some m <->
        exists before after,
          declaredMethods (underPointers t) = (before ++ m :: after)%list
          /\ types.Func_Name m = methodName
          /\ Forall (fun m' => types.Func_Name m' <> methodName) before)
    /\ (FindMethod t methodName = None <->
        Forall (fun m' => types.Func_Name m' <> methodName)
          (declaredMethods (underPointers t)))
    /\ FindMethod (types.Pointer t) methodName = FindMethod t methodName.
Proof.
  intros t methodName. split; [|split; [|reflexivity]];
    rewrite FindMethod_underPointers, FindMethod_loop_find.
  - intros m. split.
    + intros H. apply find_first in H as (l1 & l2 & Hl & Hm & Hall).
      exists l1, l2. split; [exact Hl|].
      split; [apply String.eqb_eq; exact Hm|].
      eapply Forall_impl; [exact Hall|]. cbn. intros m'.
      apply String.eqb_neq.
    + intros (l1 & l2 & -> & Hm & Hall).
      induction Hall as [|a l1 Ha Hall IH]; cbn.
      * apply String.eqb_eq in Hm. rewrite Hm. reflexivity.
      * apply String.eqb_neq in Ha. rewrite Ha. exact IH.
  - split.
    + intros H. apply List.Forall_forall. intros m Hin Hname.
      apply (find_none _ _ H) in Hin. cbn in Hin.
      apply String.eqb_neq in Hin. contradiction.
    + intros Hall. induction Hall as [|a l Ha Hall IH]; [reflexivity|].
      cbn. apply String.eqb_neq in Ha. rewrite Ha. exact IH.
Qed.

(** ** gettercheck_visitor.go: the walks *)

(** X7. A walk of a [UnaryVisitor] that returns has not changed the tree:
    it records nothing and renames nothing.  So the step of [Visit] on a
    unary expression whose operand is not a selector changes nothing
    either when it returns. *)
Theorem UnaryVisitor_walk_changes_nothing :
  forall parent n uv w w',
    applyUnaryExpr parent n uv w = Ok w' -> w' = w.
Proof. apply applyUnaryExpr_pure. Qed.

Lemma UnaryVisitor_walk_changes_nothing_witness :
  testdata.lhs.w = testdata.lhs.w.
Proof.
  apply (UnaryVisitor_walk_changes_nothing ast.Wrapper
           (ast.ParenExpr (testdata.composite testdata.lhs.tB0 []))
           (mkUnaryVisitor (testdata.info testdata.lhs.table) testdata.fset)).
  reflexivity.
Defined.

(** X8. When a unary operator is applied to a parenthesised field access
    [(X.Sel.Outer)] and [X.Sel] is a field access that [Visit] would
    flag, [Visit] panics on the unary expression: the visitor that
    [UnaryVisitor.Visit] makes for the receiver has a nil [lines] map, and
    recording the violation stores into it. *)
Theorem Visit_panics_on_flagged_receiver_in_parentheses_under_unary :
  forall Op X Sel Outer parent v w obj goPos method goMethodPos,
    isVar (ObjectOf (typesInfo v) Sel) = Some obj ->
    token.File_Position (fset v) (types.Obj_Pos obj) = Ok goPos ->
    strings_Contains (token.String goPos) ".pb.go:" = true ->
    FindMethod_nilable (TypeOf (typesInfo v) X)
      ("Get" +:+ Ident_Name w Sel) = Some method ->
    token.File_Position (fset v) (types.Func_Pos method) = Ok goMethodPos ->
    Visit Apply_Visit Apply_Unary
      (mkCursor
         (Some (ast.NExpr
                  (ast.UnaryExpr Op
                     (ast.ParenExpr
                        (ast.SelectorExpr (ast.SelectorExpr X Sel) Outer)))))
         parent) v w
    = Panic "assignment to entry in nil map".
Proof.
  intros Op X Sel Outer parent v w obj goPos method goMethodPos
    Hvar Hdecl Hgen Hget HgPos.
  unfold Visit; cbn [Node]. unfold Apply_Unary.
  rewrite applyUnaryExpr_eq.
  unfold UnaryVisitor_Visit; cbn [Node]. unfold Apply_Visit.
  rewrite applyExpr_eq.
  unfold Visit; cbn [Node Parent exemptContext typesInfo fset u_typesInfo
                       u_fset].
  cbn [mbind Res_bind bindR]. rewrite Hvar. cbn [mbind Res_bind bindR].
  rewrite Hdecl. cbn [mbind Res_bind bindR]. rewrite Hgen, Hget.
  cbn [mbind Res_bind bindR]. rewrite HgPos. reflexivity.
Qed.

(** [_ = -(a.Child.Count)] in the package of [a.Child.Name = "hello"] *)
Definition countIdent : ast.Ident := ast.mkIdent 18 (testdata.at_ 16 16).

Lemma Visit_panics_witness :
  Visit Apply_Visit Apply_Unary
    (mkCursor
       (Some (ast.NExpr
                (ast.UnaryExpr token.SUB
                   (ast.ParenExpr
                      (ast.SelectorExpr
                         (testdata.Sel (testdata.E testdata.nested.a1)
                            testdata.nested.child1)
                         countIdent)))))
       ast.Wrapper)
    (newVisitor testdata.nested.pkg) testdata.nested.w
  = Panic "assignment to entry in nil map".
Proof.
  apply (Visit_panics_on_flagged_receiver_in_parentheses_under_unary
           token.SUB (testdata.E testdata.nested.a1)
           (testdata.e_ident testdata.nested.child1) countIdent ast.Wrapper
           (newVisitor testdata.nested.pkg) testdata.nested.w
           testdata.fieldChild
           (token.mkPosition testdata.generatedFile 3202 32 2)
           testdata.GetChild
           (token.mkPosition testdata.generatedFile 4018 40 18));
    reflexivity.
Defined.

(** The visitor only grows: same type information and file set, more
    violations, a larger line cache. *)
Definition R_grows (s s' : visitor * World) : Prop :=
  typesInfo s'.1 = typesInfo s.1 /\ fset s'.1 = fset s.1
  /\ (exists new, errors s'.1 = (errors s.1 ++ new)%list)
  /\ (forall m, lines s.1 = Some m ->
                exists m', lines s'.1 = Some m' /\ m ⊆ m').

Lemma R_grows_selector X Sel parent v w b v' w' :
  Visit noApply_Visit noApply_Unary
    (mkCursor (Some (ast.NExpr (ast.SelectorExpr X Sel))) parent) v w
  = Ok (b, v', w') ->
  R_grows (v, w) (v', w').
Proof.
  intros H. apply Visit_selector_cases in H as [_ [[-> ->]|Hrec]].
  - repeat split; cbn; eauto. exists []. rewrite app_nil_r. reflexivity.
  - destruct Hrec as [? ? ? ? _ _ _ _ _ _ _ Hv].
    apply addErrorAtPosition_Ok in Hv as (m & Hm & _ & ->).
    repeat split; cbn; eauto. intros m0 Hm0. rewrite Hm in Hm0.
    simplify_eq. eexists. split; [reflexivity|].
    unfold cachedLines.
    destruct (m0 !! _) as [ls|] eqn:Hc.
    + rewrite insert_id by exact Hc. reflexivity.
    + apply insert_subseteq. exact Hc.
Qed.

(** X9. A walk of a file only appends to the visitor's violations, and
    only adds files to its line cache: the violations it had stay in
    their places, the lines cached for a file are never replaced (each
    file is read at most once), and the type information and file set
    are the same. *)
Theorem walk_appends_violations_and_extends_the_cache :
  forall f v w v' w',
    Apply_File f v w = Ok (v', w') ->
    typesInfo v' = typesInfo v /\ fset v' = fset v
    /\ (exists new, errors v' = (errors v ++ new)%list)
    /\ (forall m, lines v = Some m ->
                  exists m', lines v' = Some m' /\ m ⊆ m').
Proof.
  intros f v w v' w' H.
  apply (invariant_file R_grows) in H; [exact H| | |apply R_grows_selector].
  - intros s. repeat split; eauto. exists []. rewrite app_nil_r. reflexivity.
  - intros a b c (Hi & Hf & [n1 He] & Hc) (Hi' & Hf' & [n2 He'] & Hc').
    repeat split; try congruence.
    + exists (n1 ++ n2)%list. rewrite He', He, app_assoc. reflexivity.
    + intros m Hm. destruct (Hc m Hm) as (m1 & Hm1 & Hsub).
      destruct (Hc' m1 Hm1) as (m2 & Hm2 & Hsub').
      exists m2. split; [exact Hm2|]. etransitivity; eauto.
Qed.

Lemma walk_appends_witness :
  typesInfo rhs_visited.1 = typesInfo (newVisitor testdata.rhs.pkg)
  /\ fset rhs_visited.1 = fset (newVisitor testdata.rhs.pkg)
  /\ (exists new,
         errors rhs_visited.1
         = (errors (newVisitor testdata.rhs.pkg) ++ new)%list)
  /\ (forall m, lines (newVisitor testdata.rhs.pkg) = Some m ->
                exists m', lines rhs_visited.1 = Some m' /\ m ⊆ m').
Proof.
  apply (walk_appends_violations_and_extends_the_cache
           (ast.mkFile (testdata.at_ 1 1) (testdata.e_ident testdata.idSrc)
              [ast.mkFuncDecl (testdata.e_ident testdata.idMain)
                 (ast.stmts
                    [ast.ExprStmt (testdata.Sel (testdata.E testdata.rhs.a1)
                                     testdata.rhs.name1)])] [])
           (newVisitor testdata.rhs.pkg) testdata.rhs.w
           rhs_visited.1 rhs_visited.2).
  reflexivity.
Defined.

Lemma append_assoc_ (a b c : string) : (a +:+ b) +:+ c = a +:+ (b +:+ c).
Proof.
  induction a as [|x a IH]; [reflexivity|].
  change (String x ((a +:+ b) +:+ c) = String x (a +:+ (b +:+ c))).
  rewrite IH. reflexivity.
Qed.

(** The last byte of a string. *)
Fixpoint lastByte (s : string) : option ascii :=
  match s with
  | EmptyString => None
  | String c EmptyString => Some c
  | String _ r => lastByte r
  end.

Lemma lastByte_call s : lastByte (s +:+ "()") = Some ")"%char.
Proof.
  induction s as [|c s IH]; [reflexivity|].
  change (lastByte (String c (s +:+ "()")) = Some ")"%char).
  destruct (s +:+ "()") eqn:Hs; [|exact IH].
  destruct s; discriminate.
Qed.

Lemma FindMethod_no_call_name t s :
  Forall (fun m => lastByte (types.Func_Name m) <> Some ")"%char)
    (declaredMethods (underPointers t)) ->
  FindMethod t (s +:+ "()") = None.
Proof.
  intros Hall. rewrite FindMethod_underPointers.
  induction Hall as [|m ms Hm Hall IH]; [reflexivity|]. cbn.
  destruct (String.eqb_spec (types.Func_Name m) (s +:+ "()")) as [Heq|Hne].
  - rewrite Heq, lastByte_call in Hm. contradiction.
  - exact IH.
Qed.

(** X10. A field access that [Visit] has flagged is not flagged again
    when it is visited once more (as the value of a key-value pair and the
    operand of a unary operator are): its identifier now reads
    [Get<field>()], and no method of the receiver's type has a name that
    ends in a parenthesis. *)
Theorem flagged_selector_is_not_flagged_again :
  forall AV AU X Sel parent parent' v w b v' w' b' v'' w'',
    (forall t,
        TypeOf (typesInfo v) X = Some t ->
        Forall (fun m => lastByte (types.Func_Name m) <> Some ")"%char)
          (declaredMethods (underPointers t))) ->
    Visit AV AU
      (mkCursor (Some (ast.NExpr (ast.SelectorExpr X Sel))) parent) v w
    = Ok (b, v', w') ->
    (v', w') <> (v, w) ->
    Visit AV AU
      (mkCursor (Some (ast.NExpr (ast.SelectorExpr X Sel))) parent') v' w'
    = Ok (b', v'', w'') ->
    (v'', w'') = (v', w').
Proof.
  intros AV AU X Sel parent parent' v w b v' w' b' v'' w'' Hnames H1 Hne H2.
  apply Visit_selector_changes in H1; [|exact Hne].
  apply recorded_error in H1 as (Hinfo & _ & _ & Hname & _).
  apply Visit_selector_cases in H2 as [_ [[-> ->]|Hrec]]; [reflexivity|].
  exfalso. destruct Hrec as [? ? method ? _ _ _ _ Hget _ _ _].
  rewrite Hname, Hinfo in Hget.
  unfold FindMethod_nilable in Hget.
  destruct (TypeOf (typesInfo v) X) as [t|] eqn:Ht; [|discriminate].
  replace ("Get" +:+ "Get" +:+ Ident_Name w Sel +:+ "()")
    with (("Get" +:+ "Get" +:+ Ident_Name w Sel) +:+ "()") in Hget
    by (rewrite !append_assoc_; reflexivity).
  rewrite FindMethod_no_call_name in Hget by (apply Hnames; reflexivity).
  discriminate.
Qed.

Lemma flagged_selector_is_not_flagged_again_witness :
  rhs_visited = rhs_visited.
Proof.
  apply (flagged_selector_is_not_flagged_again Apply_Visit Apply_Unary
           (testdata.E testdata.rhs.a1)
           (testdata.e_ident testdata.rhs.name1) ast.Wrapper ast.Wrapper
           (newVisitor testdata.rhs.pkg) testdata.rhs.w true
           rhs_visited.1 rhs_visited.2 true rhs_visited.1 rhs_visited.2).
  - intros t [= <-]. cbn. repeat constructor; discriminate.
  - reflexivity.
  - intros H. apply (f_equal (fun s => length (errors s.1))) in H.
    cbn in H. discriminate.
  - reflexivity.
Defined.

(** ** Code that touches no generated field *)

(** [Visit] asks for the type of the right operand of a [==], and of the
    field on its left when the right one is nil; it dereferences the
    answers.  [comparisonTyped info n] says that for the comparison [n]
    these types are known. *)
Definition comparisonTyped (info : Info) (n : ast.Expr) : Prop :=
  match n with
  | ast.BinaryExpr x _ _ =>
      exists b,
        exemptContext (mkVisitor info (fun _ => None) None []) x (ast.NExpr n)
        = Ok b
  | _ => True
  end.

Fixpoint typedExpr (info : Info) (n : ast.Expr) {struct n} : Prop :=
  comparisonTyped info n
  /\ match n with
     | ast.IdentExpr _ => True
     | ast.BasicLit _ => True
     | ast.CompositeLit t es => typedOptExpr info t /\ typedExprList info es
     | ast.ParenExpr x => typedExpr info x
     | ast.SelectorExpr x _ => typedExpr info x
     | ast.IndexExpr x i => typedExpr info x /\ typedExpr info i
     | ast.CallExpr f args => typedExpr info f /\ typedExprList info args
     | ast.StarExpr x => typedExpr info x
     | ast.UnaryExpr _ x => typedExpr info x
     | ast.BinaryExpr x _ y => typedExpr info x /\ typedExpr info y
     | ast.KeyValueExpr k v => typedExpr info k /\ typedExpr info v
     end
with typedExprList (info : Info) (es : ast.ExprList) {struct es} : Prop :=
  match es with
  | ast.ENil => True
  | ast.ECons e es' => typedExpr info e /\ typedExprList info es'
  end
with typedOptExpr (info : Info) (o : ast.OptExpr) {struct o} : Prop :=
  match o with
  | ast.NoExpr => True
  | ast.SomeExpr e => typedExpr info e
  end.

Fixpoint typedStmt (info : Info) (n : ast.Stmt) {struct n} : Prop :=
  match n with
  | ast.ExprStmt x => typedExpr info x
  | ast.AssignStmt lhs _ rhs =>
      typedExprList info lhs /\ typedExprList info rhs
  | ast.ReturnStmt results => typedExprList info results
  | ast.BlockStmt l => typedStmtList info l
  | ast.IfStmt init cond body els =>
      typedOptStmt info init /\ typedExpr info cond
      /\ typedStmtList info body /\ typedOptStmt info els
  end
with typedStmtList (info : Info) (ss : ast.StmtList) {struct ss} : Prop :=
  match ss with
  | ast.SNil => True
  | ast.SCons s ss' => typedStmt info s /\ typedStmtList info ss'
  end
with typedOptStmt (info : Info) (o : ast.OptStmt) {struct o} : Prop :=
  match o with
  | ast.NoStmt => True
  | ast.SomeStmt s => typedStmt info s
  end.

Definition typedFile (info : Info) (f : ast.File) : Prop :=
  Forall (fun d => typedStmtList info (ast.Decl_Body d)) (ast.Decls f).

Section NoGenerated.

Variable info : Info.
Variable fs_ : token.FileSet.

(** No field is declared at a position whose text contains [.pb.go:]. *)
Hypothesis plain : forall Sel obj,
  isVar (ObjectOf info Sel) = Some obj ->
  exists goPos,
    token.File_Position fs_ (types.Obj_Pos obj) = Ok goPos
    /\ strings_Contains (token.String goPos) ".pb.go:" = false.

Definition okParent (parent : ast.Node) : Prop :=
  match parent with
  | ast.NExpr p => comparisonTyped info p
  | _ => True
  end.

Lemma exemptContext_total v n parent :
  okParent parent -> typesInfo v = info ->
  exists b, exemptContext v n parent = Ok b.
Proof.
  intros Hp Hi. destruct parent as [p|s| | |]; try (eexists; reflexivity).
  - destruct p; try (eexists; reflexivity).
    cbn in Hp. destruct Hp as [b Hb]. exists b. rewrite <- Hb.
    unfold exemptContext. cbn [typesInfo]. rewrite Hi. reflexivity.
  - destruct s; eexists; reflexivity.
Qed.

Lemma Visit_selector_plain AV AU X Sel parent v w :
  okParent parent -> typesInfo v = info -> fset v = fs_ ->
  Visit AV AU (mkCursor (Some (ast.NExpr (ast.SelectorExpr X Sel))) parent)
    v w = Ok (true, v, w).
Proof.
  intros Hp Hi Hf. unfold Visit; cbn [Node Parent].
  destruct (exemptContext_total v (ast.SelectorExpr X Sel) parent Hp Hi)
    as [b ->]. cbn [mbind Res_bind bindR].
  destruct b; [reflexivity|]. rewrite Hi, Hf.
  destruct (isVar (ObjectOf info Sel)) as [obj|] eqn:Hobj; [|reflexivity].
  destruct (plain Sel obj Hobj) as (goPos & Hd & Hg).
  rewrite Hd. cbn [mbind Res_bind bindR]. rewrite Hg. reflexivity.
Qed.

Definition totalV (n : ast.Expr) : Prop :=
  typedExpr info n ->
  forall parent v w,
    okParent parent -> typesInfo v = info -> fset v = fs_ ->
    applyExpr parent n v w = Ok (v, w).

Definition totalU (n : ast.Expr) : Prop :=
  typedExpr info n ->
  forall parent uv w,
    u_typesInfo uv = info -> u_fset uv = fs_ ->
    applyUnaryExpr parent n uv w = Ok w.

Definition totalVL (es : ast.ExprList) : Prop :=
  typedExprList info es ->
  forall parent v w,
    okParent parent -> typesInfo v = info -> fset v = fs_ ->
    applyExprList parent es v w = Ok (v, w).

Definition totalUL (es : ast.ExprList) : Prop :=
  typedExprList info es ->
  forall parent uv w,
    u_typesInfo uv = info -> u_fset uv = fs_ ->
    applyUnaryExprList parent es uv w = Ok w.

Definition totalVO (o : ast.OptExpr) : Prop :=
  typedOptExpr info o ->
  forall parent v w,
    okParent parent -> typesInfo v = info -> fset v = fs_ ->
    applyOptExpr parent o v w = Ok (v, w).

Definition totalUO (o : ast.OptExpr) : Prop :=
  typedOptExpr info o ->
  forall parent uv w,
    u_typesInfo uv = info -> u_fset uv = fs_ ->
    applyUnaryOptExpr parent o uv w = Ok w.

Definition totalInner (n : ast.Expr) : Prop :=
  match n with
  | ast.SelectorExpr x _ => totalV x /\ totalU x
  | ast.ParenExpr x => totalV x /\ totalU x
  | _ => True
  end.

Lemma typedExpr_inner n x :
  typedExpr info n ->
  match n with
  | ast.SelectorExpr y _ => y = x
  | ast.ParenExpr y => y = x
  | _ => False
  end ->
  typedExpr info x.
Proof. destruct n; cbn; intros [_ H] Hx; try contradiction; subst; exact H. Qed.

Lemma Visit_total n parent v w :
  typedExpr info n ->
  totalInner n ->
  match n with
  | ast.KeyValueExpr _ val => totalV val
  | ast.UnaryExpr _ x => totalU x /\ totalInner x
  | _ => True
  end ->
  okParent parent -> typesInfo v = info -> fset v = fs_ ->
  Visit Apply_Visit Apply_Unary (mkCursor (Some (ast.NExpr n)) parent) v w
  = Ok (true, v, w).
Proof.
  intros Ht Hin Hn Hp Hi Hf. destruct n; try reflexivity.
  - apply Visit_selector_plain; assumption.
  - destruct Hn as [HU Hx]. destruct Ht as [_ Ht].
    unfold Visit, Apply_Visit, Apply_Unary; cbn [Node].
    destruct n;
      try (rewrite (HU Ht) by (cbn; auto); reflexivity).
    destruct Hx as [HV _]. destruct Ht as [_ Ht].
    rewrite (HV Ht) by (cbn; auto). reflexivity.
  - destruct Ht as [_ [_ Ht]].
    unfold Visit, Apply_Visit; cbn [Node].
    rewrite (Hn Ht) by (cbn; auto). reflexivity.
Qed.

Lemma UnaryVisitor_Visit_total n parent uv w :
  typedExpr info n ->
  match n with
  | ast.ParenExpr x => totalInner x
  | ast.SelectorExpr x _ => totalU x
  | _ => True
  end ->
  u_typesInfo uv = info -> u_fset uv = fs_ ->
  UnaryVisitor_Visit Apply_Visit Apply_Unary
    (mkCursor (Some (ast.NExpr n)) parent) uv w = Ok (true, w).
Proof.
  intros Ht Hn Hi Hf. destruct n; try reflexivity.
  - destruct Ht as [_ Ht].
    unfold UnaryVisitor_Visit, Apply_Visit, Apply_Unary; cbn [Node].
    destruct n; cbn in Hn; try reflexivity.
    + destruct Hn as [_ HU]. destruct Ht as [_ Ht].
      cbn [mbind Res_bind bindR].
      rewrite (HU Ht) by assumption. reflexivity.
    + destruct Hn as [HV _]. destruct Ht as [_ Ht].
      rewrite (HV Ht) by (cbn; auto). reflexivity.
  - destruct Ht as [_ Ht].
    unfold UnaryVisitor_Visit, Apply_Unary; cbn [Node].
    rewrite (Hn Ht) by assumption. reflexivity.
Qed.

Local Ltac split_typed Ht :=
  cbn [typedExpr typedExprList typedOptExpr] in Ht;
  repeat match goal with
  | H : _ /\ _ |- _ => destruct H as [? ?]
  end.

Local Ltac child_okParent :=
  first [ assumption | exact I | cbn; auto; fail ].

Local Ltac walk_total_V :=
  repeat match goal with
  | H : totalV ?x |- context [applyExpr ?p ?x ?v ?w] =>
      rewrite (H ltac:(assumption) p v w) by child_okParent;
      cbn [mbind Res_bind bindR fst snd]
  | H : totalVL ?x |- context [applyExprList ?p ?x ?v ?w] =>
      rewrite (H ltac:(assumption) p v w) by child_okParent;
      cbn [mbind Res_bind bindR fst snd]
  | H : totalVO ?x |- context [applyOptExpr ?p ?x ?v ?w] =>
      rewrite (H ltac:(assumption) p v w) by child_okParent;
      cbn [mbind Res_bind bindR fst snd]
  end;
  rewrite ?applyLeaf_ident, ?applyLeaf_None; try reflexivity.

Local Ltac walk_total_U :=
  repeat match goal with
  | H : totalU ?x |- context [applyUnaryExpr ?p ?x ?uv ?w] =>
      rewrite (H ltac:(assumption) p uv w) by assumption;
      cbn [mbind Res_bind bindR]
  | H : totalUL ?x |- context [applyUnaryExprList ?p ?x ?uv ?w] =>
      rewrite (H ltac:(assumption) p uv w) by assumption;
      cbn [mbind Res_bind bindR]
  | H : totalUO ?x |- context [applyUnaryOptExpr ?p ?x ?uv ?w] =>
      rewrite (H ltac:(assumption) p uv w) by assumption;
      cbn [mbind Res_bind bindR]
  end;
  rewrite ?applyLeafU_ident, ?applyLeafU_None; try reflexivity.

Lemma total_all :
  (forall n, (totalV n /\ totalU n) /\ totalInner n)
  /\ (forall es, totalVL es /\ totalUL es)
  /\ (forall o, totalVO o /\ totalUO o).
Proof.
  apply Expr_mutind; intros;
    repeat match goal with
    | H : (_ /\ _) /\ _ |- _ => destruct H as [[? ?] ?]
    | H : _ /\ _ |- _ => destruct H as [? ?]
    end;
    repeat split; try (cbn; auto; fail);
    try (intros Ht parent v w Hp Hi Hf;
         first [ rewrite applyExpr_eq;
                 rewrite Visit_total;
                 [| exact Ht | cbn; auto | cbn; auto
                  | exact Hp | exact Hi | exact Hf ];
                 cbn [mbind Res_bind bindR walkExpr fst snd]
               | cbn [applyExprList applyOptExpr] ];
         split_typed Ht; walk_total_V; fail);
    try (intros Ht parent uv w Hi Hf;
         first [ rewrite applyUnaryExpr_eq;
                 rewrite UnaryVisitor_Visit_total;
                 [| exact Ht | cbn; auto | exact Hi | exact Hf ];
                 cbn [mbind Res_bind bindR walkExpr]
               | cbn [applyUnaryExprList applyUnaryOptExpr] ];
         split_typed Ht; walk_total_U; fail).
Qed.

Lemma total_stmts :
  (forall n, typedStmt info n ->
             forall parent v w,
               typesInfo v = info -> fset v = fs_ ->
               applyStmt parent n v w = Ok (v, w))
  /\ (forall ss, typedStmtList info ss ->
                 forall parent v w,
                   typesInfo v = info -> fset v = fs_ ->
                   applyStmtList parent ss v w = Ok (v, w))
  /\ (forall o, typedOptStmt info o ->
                forall parent v w,
                  typesInfo v = info -> fset v = fs_ ->
                  applyOptStmt parent o v w = Ok (v, w)).
Proof.
  destruct total_all as (HE & HL & _).
  assert (HV : forall n, totalV n) by (intros n; apply HE).
  assert (HVL : forall es, totalVL es) by (intros es; apply HL).
  clear HE HL. unfold totalV, totalVL in HV, HVL.
  apply Stmt_mutind.
  - intros X Ht parent v w Hi Hf.
    rewrite applyStmt_eq, visitNode_stmt. cbn [mbind Res_bind bindR].
    cbn in Ht. apply HV; cbn; auto.
  - intros Lhs Tok Rhs [Hl Hr] parent v w Hi Hf.
    rewrite applyStmt_eq, visitNode_stmt. cbn [mbind Res_bind bindR].
    cbv zeta. rewrite (HVL Lhs Hl) by (cbn; auto).
    cbn [mbind Res_bind bindR]. apply HVL; cbn; auto.
  - intros Results Ht parent v w Hi Hf.
    rewrite applyStmt_eq, visitNode_stmt. cbn [mbind Res_bind bindR].
    apply HVL; cbn; auto.
  - intros l IH Ht parent v w Hi Hf.
    rewrite applyStmt_eq, visitNode_stmt. cbn [mbind Res_bind bindR].
    apply IH; auto.
  - intros Init IHi Cond Body IHb Else IHe (Hti & Htc & Htb & Hte)
      parent v w Hi Hf.
    rewrite applyStmt_eq, visitNode_stmt. cbn [mbind Res_bind bindR].
    cbv zeta. rewrite (IHi Hti) by auto. cbn [mbind Res_bind bindR].
    rewrite (HV Cond Htc) by (cbn; auto). cbn [mbind Res_bind bindR].
    rewrite visitNode_stmt. cbn [mbind Res_bind bindR].
    rewrite (IHb Htb) by auto. cbn [mbind Res_bind bindR].
    apply IHe; auto.
  - intros _ parent v w Hi Hf. reflexivity.
  - intros s IHs ss IHss [Hs Hss] parent v w Hi Hf. cbn [applyStmtList].
    rewrite (IHs Hs) by auto. cbn [mbind Res_bind bindR]. apply IHss; auto.
  - intros _ parent v w Hi Hf. reflexivity.
  - intros s IHs Ht parent v w Hi Hf. cbn [applyOptStmt]. apply IHs; auto.
Qed.

Lemma total_file f v w :
  typedFile info f -> typesInfo v = info -> fset v = fs_ ->
  Apply_File f v w = Ok (v, w).
Proof.
  intros Ht Hi Hf. destruct total_stmts as (_ & HSL & _).
  unfold Apply_File. rewrite visitNode_file. cbn [mbind Res_bind bindR].
  cbv zeta. rewrite applyLeaf_ident. cbn [mbind Res_bind bindR].
  unfold typedFile in Ht.
  induction Ht as [|d ds Hd Hds IH]; [reflexivity|].
  cbn [applyDecls]. unfold applyFuncDecl.
  rewrite visitNode_decl. cbn [mbind Res_bind bindR]. cbv zeta.
  rewrite applyLeaf_ident. cbn [mbind Res_bind bindR].
  rewrite visitNode_stmt. cbn [mbind Res_bind bindR].
  rewrite (HSL _ Hd) by auto. cbn [mbind Res_bind bindR]. exact IH.
Qed.

Lemma total_files ext c files v w :
  Forall (typedFile info) files ->
  typesInfo v = info -> fset v = fs_ ->
  WriteGetters c = false ->
  exists w',
    checkFiles ext c files v w = Ok (v, w')
    /\ names w' = names w /\ fs w' = fs w.
Proof.
  intros Ht Hi Hf Hwrite. revert w.
  induction Ht as [|f files Hfile Hfiles IH]; intros w; cbn [checkFiles].
  - exists w. auto.
  - unfold checkFile. destruct (shouldSkipFile ext c f w) as [skip w0] eqn:Hs.
    assert (Hw0 : names w0 = names w /\ fs w0 = fs w).
    { unfold shouldSkipFile in Hs. destruct (negb _); [simplify_eq; auto|].
      destruct (firstGenerated _ _); simplify_eq; auto. }
    destruct Hw0 as [Hn0 Hf0]. destruct skip.
    + cbn [mbind Res_bind bindR]. destruct (IH w0) as (w' & -> & Hn & Hfs).
      exists w'. split; [reflexivity|]. split; congruence.
    + rewrite (total_file f v w0 Hfile Hi Hf). cbn [mbind Res_bind bindR].
      rewrite Hwrite. cbn [mbind Res_bind bindR].
      destruct (IH w0) as (w' & -> & Hn & Hfs).
      exists w'. split; [reflexivity|]. split; congruence.
Qed.

End NoGenerated.

(** X11. A package none of whose fields is declared at a position that
    contains [.pb.go:], and in which the comparisons that [Visit] asks
    the types of have them, is checked without a panic; the result has no
    violation and no identifier of the tree is renamed, whatever methods
    named [Get<field>] its types have.  (With [WriteGetters] off no file
    is written either.) *)
Theorem check_of_code_without_generated_fields :
  forall ext c pkg w,
    (forall Sel obj,
        isVar (ObjectOf (TypesInfo pkg) Sel) = Some obj ->
        exists goPos,
          token.File_Position (Fset pkg) (types.Obj_Pos obj) = Ok goPos
          /\ strings_Contains (token.String goPos) ".pb.go:" = false) ->
    Forall (typedFile (TypesInfo pkg)) (Syntax pkg) ->
    WriteGetters c = false ->
    exists w',
      CheckPackage ext c pkg w = Ok (mkResult [], w')
      /\ names w' = names w /\ fs w' = fs w.
Proof.
  intros ext c pkg w Hplain Htyped Hwrite. unfold CheckPackage.
  destruct (total_files (TypesInfo pkg) (Fset pkg) Hplain ext c (Syntax pkg)
              (mkVisitor (TypesInfo pkg) (Fset pkg) (Some ∅) []) w
              Htyped eq_refl eq_refl Hwrite) as (w' & -> & Hn & Hf).
  exists w'. auto.
Qed.

Lemma testdata_ObjectOf table Sel obj :
  ObjectOf (testdata.info table) Sel = Some obj ->
  In (Some obj) (map testdata.e_obj table).
Proof.
  cbn. destruct (find _ table) as [e|] eqn:He; [|discriminate].
  intros <-. apply find_some in He as [Hin _]. apply in_map. exact Hin.
Qed.

Lemma check_of_code_without_generated_fields_witness :
  exists w',
    CheckPackage testdata.ext testdata.checker testdata.handwritten.pkg
      testdata.handwritten.w = Ok (mkResult [], w')
    /\ names w' = names testdata.handwritten.w
    /\ fs w' = fs testdata.handwritten.w.
Proof.
  apply (check_of_code_without_generated_fields testdata.ext
           testdata.checker testdata.handwritten.pkg testdata.handwritten.w).
  - intros Sel obj Hvar. unfold isVar in Hvar.
    destruct (ObjectOf _ Sel) as [o|] eqn:Ho; [|discriminate].
    apply testdata_ObjectOf in Ho. cbn in Ho.
    repeat (destruct Ho as [Ho|Ho]; [try discriminate Ho|]); try contradiction;
      injection Ho as <-; cbn in Hvar; try discriminate Hvar;
      injection Hvar as <-; eexists; split; reflexivity.
  - repeat constructor.
  - reflexivity.
Defined.

(** ** gettercheck_visitor.go: [addErrorAtPosition] within the file *)



(** ** errcheck.go: [shouldSkipFile] and the loop of [CheckPackage] *)

Lemma firstGenerated_first ext before text after :
  Forall (fun t => generatedCodeRegexp_MatchString ext t = false) before ->
  generatedCodeRegexp_MatchString ext text = true ->
  firstGenerated ext (before ++ text :: after) = Some text.
Proof.
  intros Hall Hm. induction Hall as [|t ts Ht Hall IH]; cbn.
  - rewrite Hm. reflexivity.
  - rewrite Ht. exact IH.
Qed.

Lemma firstGenerated_none ext comments :
  Forall (fun t => generatedCodeRegexp_MatchString ext t = false) comments ->
  firstGenerated ext comments = None.
Proof.
  intros Hall. induction Hall as [|t ts Ht Hall IH]; cbn; [reflexivity|].
  rewrite Ht. exact IH.
Qed.

(** X13. With generated files excluded, a file is skipped as soon as one
    of its comments, in whatever comment group, matches the pattern: it
    is not walked and not rewritten, the visitor and the tree are as
    before, and the first comment that matches is printed.  A file none
    of whose comments matches is not skipped, and with the exclusion off
    no file is. *)
Theorem generated_file_is_skipped_and_its_comment_printed :
  forall ext c astFile v w,
    (forall before text after,
        GeneratedFiles (Exclusions_ c) = true ->
        concat (ast.Comments astFile) = (before ++ text :: after)%list ->
        Forall (fun t => generatedCodeRegexp_MatchString ext t = false)
          before ->
        generatedCodeRegexp_MatchString ext text = true ->
        checkFile ext c astFile v w
        = Ok (v, mkWorld (names w) (fs w) (stdout w ++ [text +:+ newline])))
    /\ (GeneratedFiles (Exclusions_ c) = false
        \/ Forall (fun t => generatedCodeRegexp_MatchString ext t = false)
             (concat (ast.Comments astFile)) ->
        shouldSkipFile ext c astFile w = (false, w)).
Proof.
  intros ext c astFile v w. split.
  - intros before text after Hex Hc Hall Hm.
    unfold checkFile, shouldSkipFile. rewrite Hex, Hc. cbn [negb].
    rewrite (firstGenerated_first ext before text after Hall Hm).
    reflexivity.
  - intros [Hoff|Hnone]; unfold shouldSkipFile.
    + rewrite Hoff. reflexivity.
    + destruct (negb _); [reflexivity|].
      rewrite (firstGenerated_none ext _ Hnone). reflexivity.
Qed.

(** A generated file, for externals whose pattern matches the comments
    that start with [// Code generated]. *)
Definition generatedExt : Externals :=
  mkExternals (sort_Sort testdata.ext)
    (fun t => String.prefix "// Code generated" t)
    (format_Node testdata.ext) (WriteAndSyncFile testdata.ext)
    (loadPackages testdata.ext) (schedule testdata.ext).

Definition generatedAst : ast.File :=
  ast.mkFile (testdata.at_ 3 1) (testdata.e_ident testdata.idSrc)
    [ast.mkFuncDecl (testdata.e_ident testdata.idMain)
       (ast.stmts testdata.rhs.body)]
    [["// Copyright"];
     ["// Code generated by protoc-gen-go. DO NOT EDIT."; "// source: x"]].

Lemma generated_file_is_skipped_witness :
  checkFile generatedExt testdata.checker generatedAst
    (newVisitor testdata.rhs.pkg) testdata.rhs.w
  = Ok (newVisitor testdata.rhs.pkg,
        mkWorld (names testdata.rhs.w) (fs testdata.rhs.w)
          (stdout testdata.rhs.w
           ++ ["// Code generated by protoc-gen-go. DO NOT EDIT."
               +:+ newline])).
Proof.
  apply (proj1 (generated_file_is_skipped_and_its_comment_printed
                  generatedExt testdata.checker generatedAst
                  (newVisitor testdata.rhs.pkg) testdata.rhs.w)
           ["// Copyright"]
           "// Code generated by protoc-gen-go. DO NOT EDIT."
           ["// source: x"]).
  - reflexivity.
  - reflexivity.
  - repeat constructor.
  - reflexivity.
Defined.

(** ** gettercheck_visitor.go: [getSelectorName] *)

(** The selector [base.f1. ... .fn]. *)
Definition selectors (base : ast.Expr) (fields : list ast.Ident) : ast.Expr :=
  fold_left ast.SelectorExpr fields base.

(** A node that is neither an identifier nor a selector. *)
Definition unnamed (e : ast.Expr) : bool :=
  match e with
  | ast.IdentExpr _ => false
  | ast.SelectorExpr _ _ => false
  | _ => true
  end.

Lemma concat_snoc sep (l : list string) s :
  l <> [] ->
  String.concat sep (l ++ [s]) = String.concat sep l +:+ sep +:+ s.
Proof.
  induction l as [|x l IH]; [contradiction|]. intros _.
  destruct l as [|y l]; [reflexivity|].
  change (String.concat sep ((x :: y :: l) ++ [s]))
    with (x +:+ sep +:+ String.concat sep ((y :: l) ++ [s])).
  rewrite IH by discriminate.
  change (String.concat sep (x :: y :: l))
    with (x +:+ sep +:+ String.concat sep (y :: l)).
  rewrite !append_assoc_. reflexivity.
Qed.

(** X14. For a chain of selectors that starts at an identifier,
    [getSelectorName] is the names joined by dots.  For a chain that
    starts at another expression (a call, an index, a parenthesis) it is
    empty when there is one selector, and otherwise it starts with a dot
    and leaves out the first field: [f().a.b] gives [.b]. *)
Theorem getSelectorName_of_a_chain :
  forall w base first fields Sel,
    getSelectorName w (selectors (ast.IdentExpr first) fields) Sel
    = String.concat "." (map (Ident_Name w) (first :: fields ++ [Sel]))
    /\ (unnamed base = true ->
        getSelectorName w base Sel = ""
        /\ getSelectorName w (selectors (ast.SelectorExpr base first) fields)
             Sel
           = String.concat "."
               ("" :: map (Ident_Name w) (fields ++ [Sel]))).
Proof.
  intros w base first fields Sel. split.
  - revert Sel. induction fields as [|f fields IH] using rev_ind; intros Sel.
    + reflexivity.
    + unfold selectors. rewrite fold_left_app. cbn [fold_left].
      cbn [getSelectorName]. fold (selectors (ast.IdentExpr first) fields).
      rewrite IH.
      change (first :: (fields ++ [f]) ++ [Sel])
        with ((first :: fields ++ [f]) ++ [Sel])%list.
      rewrite (List.map_app (Ident_Name w) (first :: fields ++ [f]) [Sel]).
      change (map (Ident_Name w) [Sel]) with [Ident_Name w Sel].
      rewrite concat_snoc by discriminate. reflexivity.
  - intros Hbase. split; [destruct base; try discriminate; reflexivity|].
    revert Sel. induction fields as [|f fields IH] using rev_ind; intros Sel.
    + cbn. destruct base; try discriminate; reflexivity.
    + unfold selectors. rewrite fold_left_app. cbn [fold_left].
      cbn [getSelectorName].
      fold (selectors (ast.SelectorExpr base first) fields).
      rewrite IH.
      rewrite (List.map_app (Ident_Name w) (fields ++ [f]) [Sel]).
      change (map (Ident_Name w) [Sel]) with [Ident_Name w Sel].
      change ("" :: map (Ident_Name w) (fields ++ [f]) ++ [Ident_Name w Sel])
        with (("" :: map (Ident_Name w) (fields ++ [f]))
              ++ [Ident_Name w Sel])%list.
      rewrite concat_snoc by discriminate. reflexivity.
Qed.

Lemma getSelectorName_of_a_chain_witness :
  getSelectorName testdata.nested.w
    (ast.CallExpr (testdata.E testdata.nested.a1) ast.ENil)
    (testdata.e_ident testdata.nested.name1) = ""
  /\ getSelectorName testdata.nested.w
       (selectors
          (ast.SelectorExpr
             (ast.CallExpr (testdata.E testdata.nested.a1) ast.ENil)
             (testdata.e_ident testdata.nested.child1))
          [])
       (testdata.e_ident testdata.nested.name1)
     = String.concat "."
         ("" :: map (Ident_Name testdata.nested.w)
                  ([] ++ [testdata.e_ident testdata.nested.name1])).
Proof.
  apply (getSelectorName_of_a_chain testdata.nested.w
           (ast.CallExpr (testdata.E testdata.nested.a1) ast.ENil)
           (testdata.e_ident testdata.nested.child1) []
           (testdata.e_ident testdata.nested.name1)).
  reflexivity.
Defined.

(** ** The command: [checkPaths] and [mainCmd] *)

Lemma enqueue_errors pkgs work pkg :
  enqueue pkgs work = inl pkg ->
  exists before after,
    pkgs = (before ++ pkg :: after)%list
    /\ Forall (fun p => Errors p = []) before /\ Errors pkg <> [].
Proof.
  revert work. induction pkgs as [|p pkgs IH]; intros work; cbn;
    [discriminate|].
  destruct (Errors p) as [|e es] eqn:Hp; cbn.
  - intros H. apply IH in H as (before & after & -> & Hall & Hne).
    exists (p :: before), after. auto.
  - intros [= <-]. exists [], pkgs. rewrite Hp.
    repeat split; auto; discriminate.
Qed.

Lemma enqueue_finds pkgs work :
  Exists (fun pkg => Errors pkg <> []) pkgs ->
  exists pkg, enqueue pkgs work = inl pkg.
Proof.
  intros Hex. revert work.
  induction Hex as [p pkgs Hp|p pkgs Hex IH]; intros work; cbn.
  - destruct (Errors p); [contradiction|]. cbn. eauto.
  - destruct (Errors p); cbn; [apply IH | eauto].
Qed.

Lemma enqueue_all pkgs work :
  Forall (fun p => Errors p = []) pkgs ->
  enqueue pkgs work = inr (work ++ pkgs)%list.
Proof.
  intros Hall. revert work.
  induction Hall as [|p pkgs Hp Hall IH]; intros work; cbn.
  - rewrite app_nil_r. reflexivity.
  - rewrite Hp. cbn. rewrite IH, <- app_assoc. reflexivity.
Qed.

(** X15. [checkPaths] checks nothing when loading fails: an error of the
    loader is returned as it is, and when a loaded package carries
    errors, the error names the first such package in the order of the
    loader; in both cases the result is empty and the world is as it
    was, whatever the workers would have done with a package. *)
Theorem checkPaths_checks_nothing_after_a_load_error :
  forall ext c paths w,
    (forall err,
        LoadPackages ext c paths = inr err ->
        forall check,
          checkPaths_with ext check c paths w
          = Ok (mkResult [], Some err, w))
    /\ (forall pkgs,
        LoadPackages ext c paths = inl pkgs ->
        Exists (fun pkg => Errors pkg <> []) pkgs ->
        exists before pkg after,
          pkgs = (before ++ pkg :: after)%list
          /\ Forall (fun p => Errors p = []) before
          /\ Errors pkg <> []
          /\ forall check,
               checkPaths_with ext check c paths w
               = Ok (mkResult [],
                     Some (PackageErrors (ID pkg) (Errors pkg)), w)).
Proof.
  intros ext c paths w. split.
  - intros err Hload check. unfold checkPaths_with. rewrite Hload.
    reflexivity.
  - intros pkgs Hload Hex.
    destruct (enqueue_finds pkgs [] Hex) as [pkg Hq].
    destruct (enqueue_errors _ _ _ Hq) as (before & after & Hp & Hall & Hne).
    exists before, pkg, after. repeat split; auto.
    intros check. unfold checkPaths_with. rewrite Hload, Hq. reflexivity.
Qed.

(** A package that did not compile, loaded after one that did. *)
Definition brokenPkg : Package :=
  mkPackage "testdata/broken" "testdata/broken"
    ["main.go:3:1: expected declaration"] [] (testdata.info []) testdata.fset.

Definition brokenLoad : Externals :=
  mkExternals (sort_Sort testdata.ext)
    (generatedCodeRegexp_MatchString testdata.ext)
    (format_Node testdata.ext) (WriteAndSyncFile testdata.ext)
    (fun _ _ => inl [testdata.rhs.pkg; brokenPkg])
    (schedule testdata.ext).

Lemma checkPaths_checks_nothing_witness :
  exists before pkg after,
    [testdata.rhs.pkg; brokenPkg] = (before ++ pkg :: after)%list
    /\ Forall (fun p => Errors p = []) before
    /\ Errors pkg <> []
    /\ forall check,
         checkPaths_with brokenLoad check testdata.checker ["./..."]
           testdata.rhs.w
         = Ok (mkResult [],
               Some (PackageErrors (ID pkg) (Errors pkg)), testdata.rhs.w).
Proof.
  apply (proj2 (checkPaths_checks_nothing_after_a_load_error brokenLoad
                  testdata.checker ["./..."] testdata.rhs.w)
           [testdata.rhs.pkg; brokenPkg]).
  - reflexivity.
  - right. left. discriminate.
Defined.

(** The workers' run: the packages of the queue are checked one after
    the other, each in the world the one before left. *)
Inductive ran (check : Package -> World -> Res (Result * World))
  : list Package -> World -> list Result -> World -> Prop :=
| ran_nil w : ran check [] w [] w
| ran_cons pkg rest w r w1 rs w' :
    check pkg w = Ok (r, w1) ->
    ran check rest w1 rs w' ->
    ran check (pkg :: rest) w (r :: rs) w'.

Lemma drain_ran check work result w result' w' :
  drain check work result w = Ok (result', w') ->
  exists rs,
    ran check work w rs w'
    /\ UnusedGetterErrors result'
       = (UnusedGetterErrors result
          ++ concat (map UnusedGetterErrors rs))%list.
Proof.
  revert result w. induction work as [|pkg rest IH]; intros result w H;
    cbn in H.
  - simplify_eq. exists []. split; [constructor|].
    cbn. rewrite app_nil_r. reflexivity.
  - inv_bind H. destruct a as [r w1].
    apply IH in H as (rs & Hran & He).
    exists (r :: rs). split; [econstructor; eauto|].
    rewrite He. cbn. rewrite app_assoc. reflexivity.
Qed.

Lemma ran_drain check work result w rs w' :
  ran check work w rs w' ->
  exists result', drain check work result w = Ok (result', w').
Proof.
  intros Hran. revert result.
  induction Hran as [w|pkg rest w r w1 rs w' Hc _ IH]; intros result; cbn.
  - eauto.
  - rewrite Hc. cbn. apply IH.
Qed.

Lemma ran_each check work w rs w' r :
  ran check work w rs w' ->
  In r rs ->
  exists pkg w0 w1, In pkg work /\ check pkg w0 = Ok (r, w1).
Proof.
  induction 1 as [w|pkg rest w r0 w1 rs w' Hc _ IH]; intros Hin.
  - destruct Hin.
  - destruct Hin as [<-|Hin].
    + exists pkg, w, w1. split; [left; reflexivity | exact Hc].
    + destruct (IH Hin) as (p & w0 & w2 & Hp & Hcp).
      exists p, w0, w2. split; [right; exact Hp | exact Hcp].
Qed.

Lemma enqueue_inr pkgs work queue :
  enqueue pkgs work = inr queue ->
  queue = (work ++ pkgs)%list /\ Forall (fun p => Errors p = []) pkgs.
Proof.
  revert work. induction pkgs as [|p pkgs IH]; intros work; cbn.
  - intros [= <-]. rewrite app_nil_r. auto.
  - destruct (Errors p) as [|e es] eqn:Hp; cbn; [|discriminate].
    intros H. apply IH in H as [-> Hall]. rewrite <- app_assoc.
    split; [reflexivity|]. constructor; assumption.
Qed.

(** X16. When [checkPaths] returns without an error, no loaded package
    had errors, the packages were checked one after the other in the
    order the workers took them, and for a [sort.Sort] that permutes, the
    violations of the result are those of the packages' results: each is
    a violation of one of the checked packages.  Conversely such a run
    makes [checkPaths] return without an error. *)
Theorem checkPaths_returns_the_violations_of_the_checked_packages :
  forall ext c paths w,
    (forall result w',
        (forall l, Permutation l (sort_Sort ext l)) ->
        checkPaths ext c paths w = Ok (result, None, w') ->
        exists pkgs rs,
          LoadPackages ext c paths = inl pkgs
          /\ Forall (fun p => Errors p = []) pkgs
          /\ ran (CheckPackage ext c) (schedule ext pkgs) w rs w'
          /\ (forall e,
                 In e (UnusedGetterErrors result)
                 <-> exists r, In r rs /\ In e (UnusedGetterErrors r))
          /\ (forall e,
                 In e (UnusedGetterErrors result) ->
                 exists pkg,
                   In pkg (schedule ext pkgs)
                   /\ violation_of (TypesInfo pkg) (Fset pkg) e))
    /\ (forall pkgs rs w',
        LoadPackages ext c paths = inl pkgs ->
        Forall (fun p => Errors p = []) pkgs ->
        ran (CheckPackage ext c) (schedule ext pkgs) w rs w' ->
        exists result, checkPaths ext c paths w = Ok (result, None, w')).
Proof.
  intros ext c paths w. split.
  - intros result w' Hperm H. unfold checkPaths, checkPaths_with in H.
    destruct (LoadPackages ext c paths) as [pkgs|err]; [|discriminate].
    destruct (enqueue pkgs []) as [pkg|queue] eqn:Hq; [discriminate|].
    apply enqueue_inr in Hq as [-> Hall]. cbn [app] in H.
    inv_bind H. destruct a as [res w1]. simplify_eq.
    apply drain_ran in Ha as (rs & Hran & He). cbn in He.
    assert (Hin : forall e,
               In e (UnusedGetterErrors (Result_Unique ext res))
               <-> exists r, In r rs /\ In e (UnusedGetterErrors r)).
    { intros e. rewrite Unique_In by exact Hperm. rewrite He, in_concat.
      split.
      - intros (l & Hl & Hel). apply in_map_iff in Hl as (r & <- & Hr).
        eauto.
      - intros (r & Hr & Her). exists (UnusedGetterErrors r).
        split; [apply in_map; exact Hr | exact Her]. }
    exists pkgs, rs. repeat split; auto; try apply Hin.
    intros e He'. apply Hin in He' as (r & Hr & Her).
    destruct (ran_each _ _ _ _ _ _ Hran Hr) as (pkg & w0 & w2 & Hp & Hc).
    exists pkg. split; [exact Hp|].
    apply CheckPackage_violations in Hc.
    rewrite List.Forall_forall in Hc. apply Hc, Her.
  - intros pkgs rs w' Hload Hall Hran.
    unfold checkPaths, checkPaths_with.
    rewrite Hload, (enqueue_all pkgs [] Hall). cbn [app].
    destruct (ran_drain _ _ (mkResult []) _ _ _ Hran) as [res ->].
    cbn. eauto.
Qed.

(** The loader of the package with [_, _ = a.Name, a.Name]. *)
Definition rhsLoad : Externals :=
  mkExternals (sort_Sort testdata.ext)
    (generatedCodeRegexp_MatchString testdata.ext)
    (format_Node testdata.ext) (WriteAndSyncFile testdata.ext)
    (fun _ _ => inl [testdata.rhs.pkg])
    (schedule testdata.ext).

Definition rhs_checked : Result * World :=
  (mkResult
     [mkError (token.mkPosition testdata.mainFile 1011 10 11)
        (token.mkPosition testdata.generatedFile 2017 20 17)
        "_, _ = a.Name, a.Name" "GetName()";
      mkError (token.mkPosition testdata.mainFile 1019 10 19)
        (token.mkPosition testdata.generatedFile 2017 20 17)
        "_, _ = a.Name, a.Name" "GetName()"],
   set_Ident_Name
     (set_Ident_Name testdata.rhs.w (testdata.e_ident testdata.rhs.name1)
        "GetName()")
     (testdata.e_ident testdata.rhs.name2) "GetName()").


Lemma checkPaths_returns_the_violations_witness :
  exists pkgs rs,
    LoadPackages rhsLoad testdata.checker ["./..."] = inl pkgs
    /\ Forall (fun p => Errors p = []) pkgs
    /\ ran (CheckPackage rhsLoad testdata.checker) (schedule rhsLoad pkgs)
         testdata.rhs.w rs rhs_checked.2
    /\ (forall e,
           In e (UnusedGetterErrors rhs_checked.1)
           <-> exists r, In r rs /\ In e (UnusedGetterErrors r))
    /\ (forall e,
           In e (UnusedGetterErrors rhs_checked.1) ->
           exists pkg,
             In pkg (schedule rhsLoad pkgs)
             /\ violation_of (TypesInfo pkg) (Fset pkg) e).
Proof.
  apply (proj1 (checkPaths_returns_the_violations_of_the_checked_packages
                  rhsLoad testdata.checker ["./..."] testdata.rhs.w)
           rhs_checked.1 rhs_checked.2).
  - intros l. apply insertionSort_perm.
  - vm_compute. reflexivity.
Defined.

(** ** The command: [mainCmd] *)




(** A flag parser that takes every argument for a path, under the flags
    [-ignoregenerated -abspath]. *)
Definition pathsOnly : OS :=
  mkOS (fun rest => Some (mkFlags false true false false true "" rest))
    (Some "/work") (fun _ _ => None).


Lemma checkPaths_load_error ext c paths w :
  (forall err,
      LoadPackages ext c paths = inr err ->
      checkPaths ext c paths w = Ok (mkResult [], Some err, w))
  /\ (forall pkgs,
      LoadPackages ext c paths = inl pkgs ->
      Exists (fun pkg => Errors pkg <> []) pkgs ->
      exists pkg,
        In pkg pkgs /\ Errors pkg <> []
        /\ checkPaths ext c paths w
           = Ok (mkResult [], Some (PackageErrors (ID pkg) (Errors pkg)), w)).
Proof.
  unfold checkPaths, checkPaths_with. split.
  - intros err ->. reflexivity.
  - intros pkgs -> Hex.
    destruct (enqueue_finds pkgs [] Hex) as [pkg Hq].
    destruct (enqueue_errors _ _ _ Hq) as (before & after & -> & _ & Hne).
    exists pkg. rewrite Hq. split; [|auto].
    apply in_or_app. right. left. reflexivity.
Qed.

(** The paths [parseFlags] returns for the parsed flags. *)
Definition pathsOf (f : Flags) : list string :=
  match flag_Args f with
  | [] => ["."]
  | _ => flag_Args f
  end.

(** X18. When the flags parse but loading fails, [mainCmd] checks
    nothing and leaves the world as it was.  The loader is called with
    tests exactly when [-ignoretests] is off, on the arguments that are
    not flags, or on [.] when there are none.  An error of the loader
    other than [ErrNoGoFiles] gives the exit code 2, [ErrNoGoFiles] the
    code 0; a loaded package with errors gives 2 and a message that names
    that package and lists its errors. *)
Theorem mainCmd_checks_nothing_when_loading_fails :
  forall ext os arg0 rest f w,
    flags_Parse os rest = Some f ->
    (forall err,
        loadPackages ext (negb (flag_ignoretests f)) (pathsOf f) = inr err ->
        mainCmd ext os (arg0 :: rest) w
        = Ok (if isErrNoGoFiles err then exitCodeOk else exitFatalError, w,
              [(if isErrNoGoFiles err then ""
                else "error: failed to check packages: ")
               +:+ Error_ err +:+ newline]))
    /\ (forall pkgs,
        loadPackages ext (negb (flag_ignoretests f)) (pathsOf f) = inl pkgs ->
        Exists (fun pkg => Errors pkg <> []) pkgs ->
        exists pkg,
          In pkg pkgs /\ Errors pkg <> []
          /\ mainCmd ext os (arg0 :: rest) w
             = Ok (exitFatalError, w,
                   ["error: failed to check packages: "
                    +:+ "errors while loading package " +:+ ID pkg +:+ ": ["
                    +:+ String.concat " " (Errors pkg) +:+ "]"
                    +:+ newline])).
Proof.
  intros ext os arg0 rest f w Hparse.
  assert (Hmain : forall r,
             checkPaths ext
               (mkChecker (mkExclusions (flag_ignoretests f)
                             (flag_ignoregenerated f))
                  (flag_write f) (flag_mod f))
               (pathsOf f) w = Ok (mkResult [], Some r, w) ->
             mainCmd ext os (arg0 :: rest) w
             = Ok (if isErrNoGoFiles r then exitCodeOk else exitFatalError,
                   w,
                   [(if isErrNoGoFiles r then ""
                     else "error: failed to check packages: ")
                    +:+ Error_ r +:+ newline])).
  { intros r Hc. unfold mainCmd, parseFlags. rewrite Hparse.
    cbn [mbind Res_bind bindR]. fold (pathsOf f). cbn beta iota.
    rewrite Hc. cbn [mbind Res_bind bindR]. cbn beta iota.
    destruct (isErrNoGoFiles r); reflexivity. }
  pose proof (checkPaths_load_error ext
                (mkChecker (mkExclusions (flag_ignoretests f)
                              (flag_ignoregenerated f))
                   (flag_write f) (flag_mod f))
                (pathsOf f) w) as [Herr Hpkg].
  unfold LoadPackages in Herr, Hpkg. cbn [Exclusions_ TestFiles] in Herr, Hpkg.
  split.
  - intros err Hload. apply Hmain, Herr, Hload.
  - intros pkgs Hload Hex.
    destruct (Hpkg pkgs Hload Hex) as (pkg & Hin & Hne & Hc).
    exists pkg. split; [exact Hin|]. split; [exact Hne|].
    rewrite (Hmain _ Hc). cbn [isErrNoGoFiles Error_].
    rewrite !append_assoc_. reflexivity.
Qed.

Lemma mainCmd_checks_nothing_witness :
  exists pkg,
    In pkg [testdata.rhs.pkg; brokenPkg] /\ Errors pkg <> []
    /\ mainCmd brokenLoad pathsOnly ["gettercheck"; "./..."] testdata.rhs.w
       = Ok (exitFatalError, testdata.rhs.w,
             ["error: failed to check packages: "
              +:+ "errors while loading package " +:+ ID pkg +:+ ": ["
              +:+ String.concat " " (Errors pkg) +:+ "]" +:+ newline]).
Proof.
  apply (proj2 (mainCmd_checks_nothing_when_loading_fails brokenLoad
                  pathsOnly "gettercheck" ["./..."]
                  (mkFlags false true false false true "" ["./..."])
                  testdata.rhs.w eq_refl)
           [testdata.rhs.pkg; brokenPkg]).
  - reflexivity.
  - right. left. discriminate.
Defined.

(** ** errcheck.go: [CheckPackage] under [-write] *)

Lemma R_grows_refl s : R_grows s s.
Proof. repeat split; eauto. exists []. rewrite app_nil_r. reflexivity. Qed.

Lemma R_grows_trans a b c : R_grows a b -> R_grows b c -> R_grows a c.
Proof.
  intros (Hi & Hf & [n1 He] & Hc) (Hi' & Hf' & [n2 He'] & Hc').
  repeat split; try congruence.
  - exists (n1 ++ n2)%list. rewrite He', He, app_assoc. reflexivity.
  - intros m Hm. destruct (Hc m Hm) as (m1 & Hm1 & Hsub).
    destruct (Hc' m1 Hm1) as (m2 & Hm2 & Hsub').
    exists m2. split; [exact Hm2|]. etransitivity; eauto.
Qed.

(** The files a check has written: a name of the file system either holds
    what it held, or it is the name of a file of [files], and holds what
    [format.Node] printed for that file under names in which only flagged
    identifiers were renamed. *)
Definition written_only (ext : Externals) (fset_ : token.FileSet)
    (files : list ast.File) (w w' : World) : Prop :=
  forall name,
    fs w' !! name = fs w !! name
    \/ exists astFile names1 buf,
        In astFile files
        /\ name = token.Filename
                    (token.FileSet_Position fset_ (ast.Package astFile))
        /\ renamed_only (names w) names1
        /\ format_Node ext fset_ names1 astFile = Some buf
        /\ fs w' !! name = Some buf.

Lemma checkFile_written ext c astFile v w v' w' :
  (forall fs_ name buf fs',
      WriteAndSyncFile ext fs_ name buf = Some fs' ->
      fs' = <[name := buf]> fs_) ->
  checkFile ext c astFile v w = Ok (v', w') ->
  fset v' = fset v
  /\ renamed_only (names w) (names w')
  /\ written_only ext (fset v) [astFile] w w'
  /\ (WriteGetters c = false -> fs w' = fs w).
Proof.
  intros Hwrite H. unfold checkFile in H.
  destruct (shouldSkipFile ext c astFile w) as [skip w0] eqn:Hs.
  assert (Hw0 : names w0 = names w /\ fs w0 = fs w).
  { unfold shouldSkipFile in Hs. destruct (negb _); [simplify_eq; auto|].
    destruct (firstGenerated _ _); simplify_eq; auto. }
  destruct Hw0 as [Hn0 Hf0]. destruct skip.
  - simplify_eq. repeat split; auto.
    + rewrite Hn0. apply renamed_only_refl.
    + intros name. left. rewrite Hf0. reflexivity.
  - inv_bind H. destruct a as [v1 w1].
    pose proof (invariant_file R_frame R_frame_refl R_frame_trans
                  R_frame_selector _ _ _ _ _ Ha) as (Hfs & _ & Hren & _).
    pose proof (invariant_file R_grows R_grows_refl R_grows_trans
                  R_grows_selector _ _ _ _ _ Ha) as (_ & Hfset & _).
    cbn in Hfs, Hren, Hfset. rewrite Hn0 in Hren.
    destruct (WriteGetters c).
    + destruct (format_Node ext (fset v1) (names w1) astFile) as [buf|] eqn:Hb;
        [|discriminate].
      destruct (WriteAndSyncFile ext (fs w1) _ buf) as [fs'|] eqn:Hwr;
        [|discriminate].
      injection H as Hv Hw. subst v' w'. apply Hwrite in Hwr. subst fs'.
      cbn [names fs].
      repeat split; auto; [|discriminate].
      intros name.
      destruct (decide
                  (name = token.Filename
                            (token.FileSet_Position (fset v1)
                               (ast.Package astFile)))) as [->|Hne].
      * right. exists astFile, (names w1), buf. rewrite Hfset in *.
        repeat split; auto; [left; reflexivity|].
        cbn [fs]. apply lookup_insert_eq.
      * left. cbn [fs]. rewrite lookup_insert_ne by congruence. congruence.
    + injection H as Hv Hw. subst v' w'.
      split; [exact Hfset|]. split; [exact Hren|].
      split; [intros name; left|intros _]; congruence.
Qed.

Lemma checkFiles_written ext c files v w v' w' :
  (forall fs_ name buf fs',
      WriteAndSyncFile ext fs_ name buf = Some fs' ->
      fs' = <[name := buf]> fs_) ->
  checkFiles ext c files v w = Ok (v', w') ->
  fset v' = fset v
  /\ renamed_only (names w) (names w')
  /\ written_only ext (fset v) files w w'.
Proof.
  intros Hwrite. revert v w.
  induction files as [|f files IH]; intros v w H; cbn in H.
  - simplify_eq. repeat split; auto using renamed_only_refl.
    intros name. left. reflexivity.
  - inv_bind H. destruct a as [v1 w1].
    apply checkFile_written in Ha as (Hf1 & Hr1 & Hw1 & _); [|exact Hwrite].
    apply IH in H as (Hf2 & Hr2 & Hw2).
    split; [congruence|]. split; [eapply renamed_only_trans; eauto|].
    intros name. destruct (Hw2 name) as [Hsame|Hnew].
    + destruct (Hw1 name) as [Hsame1|Hnew1].
      * left. congruence.
      * right. destruct Hnew1 as (a & n1 & buf & Hin & Hname & Hren & Hb & Hl).
        exists a, n1, buf. repeat split; auto; [|congruence].
        destruct Hin as [<-|[]]. left. reflexivity.
    + right. destruct Hnew as (a & n1 & buf & Hin & Hname & Hren & Hb & Hl).
      exists a, n1, buf. rewrite Hf1 in *.
      repeat split; auto; [right; exact Hin|].
      eapply renamed_only_trans; eauto.
Qed.

(** X19. Under [-write], for a [WriteAndSyncFile] that sets the named
    file, [CheckPackage] changes no file but those of the package: every
    name of the file system holds what it held, or it is the name of the
    position of the package clause of one of the package's files, and
    holds what [format.Node] printed for the tree of that file with no
    identifier changed except into a getter call.  Without [-write] no
    file changes at all. *)
Theorem CheckPackage_writes_only_the_files_of_the_package :
  forall ext c pkg w r w',
    (forall fs_ name buf fs',
        WriteAndSyncFile ext fs_ name buf = Some fs' ->
        fs' = <[name := buf]> fs_) ->
    CheckPackage ext c pkg w = Ok (r, w') ->
    renamed_only (names w) (names w')
    /\ (forall name,
           fs w' !! name = fs w !! name
           \/ exists astFile names1 buf,
               WriteGetters c = true
               /\ In astFile (Syntax pkg)
               /\ name = token.Filename
                           (token.FileSet_Position (Fset pkg)
                              (ast.Package astFile))
               /\ renamed_only (names w) names1
               /\ format_Node ext (Fset pkg) names1 astFile = Some buf
               /\ fs w' !! name = Some buf).
Proof.
  intros ext c pkg w r w' Hwrite H. unfold CheckPackage in H.
  inv_bind H. destruct a as [v1 w1]. simplify_eq.
  destruct (WriteGetters c) eqn:Hc.
  - apply checkFiles_written in Ha as (_ & Hren & Hw); [|exact Hwrite].
    split; [exact Hren|]. intros name.
    destruct (Hw name) as [Hsame|(a & n1 & buf & Hnew)]; [left; exact Hsame|].
    right. exists a, n1, buf. split; [reflexivity | exact Hnew].
  - apply checkFiles_frame in Ha as (Hf & Hn & _); [|exact Hc].
    cbn in Hf, Hn. split; [exact Hn|]. intros name. left. congruence.
Qed.

(** The checker of the test suite under [-write]. *)
Definition writer : Checker :=
  mkChecker (mkExclusions false true) true "".

(** The world after the check of [_, _ = a.Name, a.Name] under [-write],
    with the formatter of the test externals, which prints nothing. *)
Definition rhs_written_world : World :=
  mkWorld (names rhs_checked.2)
    (<[testdata.mainFile := []]> (fs testdata.rhs.w)) [].

Lemma rhs_written :
  CheckPackage testdata.ext writer testdata.rhs.pkg testdata.rhs.w
  = Ok (rhs_checked.1, rhs_written_world).
Proof. vm_compute. reflexivity. Qed.

Lemma CheckPackage_writes_only_witness :
  renamed_only (names testdata.rhs.w) (names rhs_written_world)
  /\ (forall name,
         fs rhs_written_world !! name = fs testdata.rhs.w !! name
         \/ exists astFile names1 buf,
             WriteGetters writer = true
             /\ In astFile (Syntax testdata.rhs.pkg)
             /\ name = token.Filename
                         (token.FileSet_Position (Fset testdata.rhs.pkg)
                            (ast.Package astFile))
             /\ renamed_only (names testdata.rhs.w) names1
             /\ format_Node testdata.ext (Fset testdata.rhs.pkg) names1
                  astFile = Some buf
             /\ fs rhs_written_world !! name = Some buf).
Proof.
  apply (CheckPackage_writes_only_the_files_of_the_package testdata.ext
           writer testdata.rhs.pkg testdata.rhs.w rhs_checked.1
           rhs_written_world).
  - intros fs_ name buf fs' H. injection H as <-. reflexivity.
  - exact rhs_written.
Defined.

(** ** gettercheck_visitor.go: [contains] *)

(** X20. [contains] is membership in the slice: it reports [true]
    exactly for the strings that occur in it, whatever comes before or
    after them. *)
Theorem contains_is_membership :
  forall s e,
    (contains s e = true <-> In e s)
    /\ (forall before after, contains (before ++ e :: after) e = true).
Proof.
  intros s e.
  assert (Hin : forall l, contains l e = true <-> In e l).
  { induction l as [|a l IH]; cbn.
    - split; [discriminate | contradiction].
    - destruct (String.eqb_spec a e) as [->|Hne].
      + split; auto.
      + rewrite IH. split; [auto | intros [H|H]; [contradiction | exact H]]. }
  split; [apply Hin|].
  intros before after. apply Hin, in_or_app. right. left. reflexivity.
Qed.
